(** * Open-addressing hash map with quadratic probing (hash_map_oa.py)

    A shallow embedding of the [HashMap] class of [src/hash_map_oa.py] and
    the properties of its specification.

    Python integers are unbounded, so they are modelled by [Z]; [%] is
    Python's floored modulo, which is [Z.modulo] for a non-zero divisor and
    raises [ZeroDivisionError] otherwise.  Loops and the mutual recursion of
    [put] and [resize_table] are bounded by a fuel counter: [Timeout] is the
    answer of a run that is still going when the fuel is spent, so a run that
    answers [Timeout] for every amount of fuel never returns. *)

From Stdlib Require Import ZArith List Bool Lia String QArith Znumtheory Wf_Z.
From stdpp Require Import base list.
Import ListNotations.

Local Open Scope Z_scope.

(** ** Results of a run *)

Inductive exn : Type :=
| DynamicArrayException
| ZeroDivisionError.

Inductive result (A : Type) : Type :=
| Ok (a : A)
| Raise (e : exn)
| Timeout.

Arguments Ok {A} a.
Arguments Raise {A} e.
Arguments Timeout {A}.

Definition rbind {A B} (r : result A) (k : A -> result B) : result B :=
  match r with
  | Ok a => k a
  | Raise e => Raise e
  | Timeout => Timeout
  end.

(** Python's [a % b]. *)
Definition py_mod (a b : Z) : result Z :=
  if b =? 0 then Raise ZeroDivisionError else Ok (a mod b).

(** Python's [range(n)]: empty when [n <= 0]. *)
Definition range (n : Z) : list Z := map Z.of_nat (seq 0 (Z.to_nat n)).

(** Modelled from the spec: the growable array [DynamicArray] of the module
    [da_and_sll], which is not part of the sources.  The spec treats it as a
    standard dynamic array with append, indexed get and set, and length; an
    index outside [0, length) raises [DynamicArrayException], the exception
    the hash map imports from that module. *)
Definition da_get {A} (da : list A) (index : Z) : result A :=
  if index <? 0 then Raise DynamicArrayException
  else match da !! Z.to_nat index with
       | Some x => Ok x
       | None => Raise DynamicArrayException
       end.

Definition da_set {A} (da : list A) (index : Z) (x : A) : result (list A) :=
  if (index <? 0) || (Z.of_nat (length da) <=? index)
  then Raise DynamicArrayException
  else Ok (<[Z.to_nat index := x]> da).

(** ** Prime sizing: [_is_prime] and [_next_prime] *)

(** The loop [while factor ** 2 <= capacity] of [_is_prime]. *)
Fixpoint is_prime_loop (fuel : nat) (factor capacity : Z) : result bool :=
  match fuel with
  | O => Timeout
  | S fuel =>
      if factor ^ 2 <=? capacity then
        if capacity mod factor =? 0 then Ok false
        else is_prime_loop fuel (factor + 2) capacity
      else Ok true
  end.

Definition _is_prime (fuel : nat) (capacity : Z) : result bool :=
  if (capacity =? 2) || (capacity =? 3) then Ok true
  else if (capacity =? 1) || (capacity mod 2 =? 0) then Ok false
  else is_prime_loop fuel 3 capacity.

(** The loop [while not self._is_prime(capacity)] of [_next_prime]. *)
Fixpoint next_prime_loop (fuel : nat) (capacity : Z) : result Z :=
  match fuel with
  | O => Timeout
  | S fuel =>
      rbind (_is_prime fuel capacity) (fun p =>
      if p then Ok capacity else next_prime_loop fuel (capacity + 2))
  end.

Definition _next_prime (fuel : nat) (capacity : Z) : result Z :=
  let capacity := if capacity mod 2 =? 0 then capacity + 1 else capacity in
  next_prime_loop fuel capacity.

(** What the loop of [_is_prime] establishes: no odd number from [factor]
    on, with a square of at most [n], divides [n]. *)
Definition no_odd_factor (factor n : Z) : Prop :=
  forall d, factor <= d -> d mod 2 = 1 -> d ^ 2 <= n -> n mod d <> 0.

(** The slot of probe attempt [i] from the base index [base]: the base
    plus [i] squared, modulo the capacity. *)
Definition slot_at (base capacity : Z) (i : nat) : Z :=
  (base + Z.of_nat i ^ 2) mod capacity.

(** ** The map *)

Section HashMap.

(** The values stored in the map, and the hash function handed to the
    constructor (an opaque function from strings to integers). *)
Variable V : Type.
Variable hash_function : string -> Z.

(** Modelled from the spec: the class [HashEntry] of [da_and_sll], a key, a
    value and the flag [is_tombstone], which the constructor sets to
    [False].  An entry is a plain object, so it is truthy; an empty slot
    holds [None]. *)
Record HashEntry : Type := mkHashEntry {
  key : string;
  value : V;
  is_tombstone : bool
}.

Definition new_HashEntry (k : string) (v : V) : HashEntry :=
  mkHashEntry k v false.

Record HashMap : Type := mkHashMap {
  _buckets : list (option HashEntry);
  _capacity : Z;
  _size : Z
}.

(** Methods run in a state-and-error monad over the map. *)
Definition M (A : Type) : Type := HashMap -> result (A * HashMap).

Definition ret {A} (a : A) : M A := fun m => Ok (a, m).

Definition bind {A B} (c : M A) (k : A -> M B) : M B :=
  fun m =>
    match c m with
    | Ok (a, m') => k a m'
    | Raise e => Raise e
    | Timeout => Timeout
    end.

Definition lift {A} (r : result A) : M A :=
  fun m =>
    match r with
    | Ok a => Ok (a, m)
    | Raise e => Raise e
    | Timeout => Timeout
    end.

Definition gets {A} (f : HashMap -> A) : M A := fun m => Ok (f m, m).
Definition timeout {A} : M A := fun _ => Timeout.

Definition set_buckets (b : list (option HashEntry)) : M unit :=
  fun m => Ok (tt, mkHashMap b (_capacity m) (_size m)).
Definition set_capacity (c : Z) : M unit :=
  fun m => Ok (tt, mkHashMap (_buckets m) c (_size m)).
Definition set_size (s : Z) : M unit :=
  fun m => Ok (tt, mkHashMap (_buckets m) (_capacity m) s).

Notation "x <- c ;; k" := (bind c (fun x => k))
  (at level 63, c at next level, right associativity).
Notation "c ;;; k" := (bind c (fun _ => k))
  (at level 63, right associativity).

(** [self._buckets[index]] and [self._buckets[index] = x]. *)
Definition bucket_get (index : Z) : M (option HashEntry) :=
  b <- gets _buckets ;; lift (da_get b index).

Definition bucket_set (index : Z) (x : option HashEntry) : M unit :=
  b <- gets _buckets ;; b' <- lift (da_set b index x) ;; set_buckets b'.

(** A fresh table of [c] empty slots. *)
Definition fresh_buckets (c : Z) : list (option HashEntry) :=
  replicate (Z.to_nat c) None.

(** [__init__]: the constructor. *)
Definition HashMap_init (fuel : nat) (capacity : Z) : result HashMap :=
  rbind (_next_prime fuel capacity) (fun c =>
  Ok (mkHashMap (fresh_buckets c) c 0)).

Definition get_size : M Z := gets _size.
Definition get_capacity : M Z := gets _capacity.

(** [_hash]. *)
Definition _hash (k : string) : M Z :=
  c <- gets _capacity ;; lift (py_mod (hash_function k) c).

(** [table_load]: the float [size / capacity] is the correctly rounded
    value of the exact quotient modelled here; 0.5 is a float, so below
    2^53 slots the test [table_load() >= 0.5] is the exact comparison. *)
Definition table_load : M Q :=
  s <- gets _size ;; c <- gets _capacity ;;
  if c =? 0 then lift (Raise ZeroDivisionError)
  else ret (inject_Z s / inject_Z c)%Q.

Definition empty_buckets : M Z :=
  s <- gets _size ;; c <- gets _capacity ;; ret (c - s).

(** The cursor update shared by the four probe loops:
    [target_bucket += (probe + 1)**2 - probe**2] and
    [target_bucket %= self._capacity]. *)
Definition advance (target_bucket probe : Z) : M Z :=
  c <- gets _capacity ;;
  lift (py_mod (target_bucket + ((probe + 1) ^ 2 - probe ^ 2)) c).

(** The probe loop of [put] together with the insertion after it.  The
    answer is the list of slots the loop looked at, a ghost value: the
    method itself returns [None]. *)
Fixpoint put_probe (fuel : nat) (k : string) (v : V)
    (target_bucket probe : Z) : M (list Z) :=
  match fuel with
  | O => timeout
  | S fuel =>
      slot <- bucket_get target_bucket ;;
      match slot with
      | Some entry =>
          if is_tombstone entry then
            bucket_set target_bucket (Some (new_HashEntry k v)) ;;;
            s <- gets _size ;; set_size (s + 1) ;;;
            ret [target_bucket]
          else if String.eqb (key entry) k then
            bucket_set target_bucket
              (Some (mkHashEntry (key entry) v (is_tombstone entry))) ;;;
            ret [target_bucket]
          else
            next <- advance target_bucket probe ;;
            visited <- put_probe fuel k v next (probe + 1) ;;
            ret (target_bucket :: visited)
      | None =>
          bucket_set target_bucket (Some (new_HashEntry k v)) ;;;
          s <- gets _size ;; set_size (s + 1) ;;;
          ret [target_bucket]
      end
  end.

(** The migration loop of [resize_table]:
    [for index in range(old_capacity)], which re-inserts the live entries
    of the old table with [put].  Its answer counts the automatic resizes
    those insertions triggered, a ghost value. *)
Fixpoint migrate (put : string -> V -> M (nat * list Z))
    (old_map : list (option HashEntry)) (indices : list Z) : M nat :=
  match indices with
  | [] => ret 0%nat
  | index :: indices =>
      curr <- lift (da_get old_map index) ;;
      n <- match curr with
           | Some entry =>
               if negb (is_tombstone entry)
               then r <- put (key entry) (value entry) ;; ret (fst r)
               else ret 0%nat
           | None => ret 0%nat
           end ;;
      n' <- migrate put old_map indices ;;
      ret (n + n')%nat
  end.

(** [put] and [resize_table] call each other.  Both methods return [None];
    the answers here are ghost values: [put] answers the number of resizes
    it set off (its own and those inside it) and the slots its probe loop
    looked at, [resize_table] the number of automatic resizes set off by
    its re-insertions. *)
Fixpoint put (fuel : nat) (k : string) (v : V) {struct fuel}
    : M (nat * list Z) :=
  match fuel with
  | O => timeout
  | S fuel =>
      load <- table_load ;;
      resizes <- (if Qle_bool (1 # 2) load
                  then c <- gets _capacity ;;
                       n <- resize_table fuel (c * 2) ;;
                       ret (S n)
                  else ret 0%nat) ;;
      target_bucket <- _hash k ;;
      visited <- put_probe fuel k v target_bucket 0 ;;
      ret (resizes, visited)
  end
with resize_table (fuel : nat) (new_capacity : Z) {struct fuel} : M nat :=
  match fuel with
  | O => timeout
  | S fuel =>
      s <- gets _size ;;
      if new_capacity <? s then ret 0%nat
      else
        old_map <- gets _buckets ;;
        old_capacity <- gets _capacity ;;
        p <- lift (_is_prime fuel new_capacity) ;;
        (if negb p
         then c <- lift (_next_prime fuel new_capacity) ;; set_capacity c
         else set_capacity new_capacity) ;;;
        c <- gets _capacity ;;
        set_buckets (fresh_buckets c) ;;;
        set_size 0 ;;;
        migrate (put fuel) old_map (range old_capacity)
  end.

(** The probe loop of [get]; the answer pairs the slots it looked at with
    the value found. *)
Fixpoint get_probe (fuel : nat) (k : string) (target_bucket probe : Z)
    : M (list Z * option V) :=
  match fuel with
  | O => timeout
  | S fuel =>
      slot <- bucket_get target_bucket ;;
      match slot with
      | Some curr =>
          if String.eqb (key curr) k && negb (is_tombstone curr)
          then ret ([target_bucket], Some (value curr))
          else
            next <- advance target_bucket probe ;;
            r <- get_probe fuel k next (probe + 1) ;;
            ret (target_bucket :: fst r, snd r)
      | None => ret ([target_bucket], None)
      end
  end.

Definition get_traced (fuel : nat) (k : string) : M (list Z * option V) :=
  s <- gets _size ;;
  if s =? 0 then ret ([], None)
  else target_bucket <- _hash k ;; get_probe fuel k target_bucket 0.

(** [get]: [None] stands for Python's [None], the answer for an absent
    key. *)
Definition get (fuel : nat) (k : string) : M (option V) :=
  r <- get_traced fuel k ;; ret (snd r).

(** The probe loop of [contains_key]. *)
Fixpoint contains_probe (fuel : nat) (k : string) (target_bucket probe : Z)
    : M (list Z * bool) :=
  match fuel with
  | O => timeout
  | S fuel =>
      slot <- bucket_get target_bucket ;;
      match slot with
      | Some curr =>
          if String.eqb (key curr) k && negb (is_tombstone curr)
          then ret ([target_bucket], true)
          else
            next <- advance target_bucket probe ;;
            r <- contains_probe fuel k next (probe + 1) ;;
            ret (target_bucket :: fst r, snd r)
      | None => ret ([target_bucket], false)
      end
  end.

Definition contains_key_traced (fuel : nat) (k : string) : M (list Z * bool) :=
  s <- gets _size ;;
  if s =? 0 then ret ([], false)
  else target_bucket <- _hash k ;; contains_probe fuel k target_bucket 0.

Definition contains_key (fuel : nat) (k : string) : M bool :=
  r <- contains_key_traced fuel k ;; ret (snd r).

(** The probe loop of [remove]; the answer is the list of slots it looked
    at. *)
Fixpoint remove_probe (fuel : nat) (k : string) (target_bucket probe : Z)
    : M (list Z) :=
  match fuel with
  | O => timeout
  | S fuel =>
      slot <- bucket_get target_bucket ;;
      match slot with
      | Some curr =>
          if String.eqb (key curr) k && negb (is_tombstone curr)
          then
            bucket_set target_bucket
              (Some (mkHashEntry (key curr) (value curr) true)) ;;;
            s <- gets _size ;; set_size (s - 1) ;;;
            ret [target_bucket]
          else
            next <- advance target_bucket probe ;;
            visited <- remove_probe fuel k next (probe + 1) ;;
            ret (target_bucket :: visited)
      | None => ret [target_bucket]
      end
  end.

Definition remove (fuel : nat) (k : string) : M (list Z) :=
  target_bucket <- _hash k ;; remove_probe fuel k target_bucket 0.

(** The loop of [get_keys_and_values]. *)
Fixpoint collect (b : list (option HashEntry)) (indices : list Z)
    : result (list (string * V)) :=
  match indices with
  | [] => Ok []
  | index :: indices =>
      rbind (da_get b index) (fun curr =>
      rbind (collect b indices) (fun rest =>
      match curr with
      | Some entry =>
          if negb (is_tombstone entry)
          then Ok ((key entry, value entry) :: rest)
          else Ok rest
      | None => Ok rest
      end))
  end.

Definition get_keys_and_values : M (list (string * V)) :=
  b <- gets _buckets ;; c <- gets _capacity ;; lift (collect b (range c)).

Definition clear : M unit :=
  c <- gets _capacity ;;
  set_buckets (fresh_buckets c) ;;;
  set_size 0.

(** ** Invariants and reachable states *)

(** A slot is live when it holds an entry that is not a tombstone. *)
Definition live (slot : option HashEntry) : bool :=
  match slot with
  | Some entry => negb (is_tombstone entry)
  | None => false
  end.

Fixpoint count_live (b : list (option HashEntry)) : Z :=
  match b with
  | [] => 0
  | slot :: b => (if live slot then 1 else 0) + count_live b
  end.

(** The size counter agrees with the table, and the table has one slot per
    unit of capacity. *)
Definition size_ok (m : HashMap) : Prop :=
  _size m = count_live (_buckets m).

Definition shape_ok (m : HashMap) : Prop :=
  length (_buckets m) = Z.to_nat (_capacity m).

Definition consistent (m : HashMap) : Prop := size_ok m /\ shape_ok m.

(** A slot that makes the probe loop of [put] move on: a live entry with
    another key. *)
Definition blocked (k : string) (slot : option HashEntry) : bool :=
  match slot with
  | Some entry => negb (is_tombstone entry) && negb (String.eqb (key entry) k)
  | None => false
  end.

(** Whether probe attempt [i] from the base index [base] is blocked. *)
Definition blocked_at (m : HashMap) (k : string) (base : Z) (i : nat) : bool :=
  match _buckets m !! Z.to_nat (slot_at base (_capacity m) i) with
  | Some slot => blocked k slot
  | None => false
  end.

(** The indices of the live slots of a table whose first slot has index
    [off]. *)
Fixpoint live_indices (off : nat) (b : list (option HashEntry)) : list nat :=
  match b with
  | [] => []
  | slot :: b => (if live slot then [off] else []) ++ live_indices (S off) b
  end.

(** Whether the slot [index] of a table is live, and how many of the
    slots listed in [indices] are. *)
Definition live_at (b : list (option HashEntry)) (index : Z) : bool :=
  match b !! Z.to_nat index with
  | Some slot => live slot
  | None => false
  end.

Fixpoint count_live_at (b : list (option HashEntry)) (indices : list Z) : Z :=
  match indices with
  | [] => 0
  | index :: indices =>
      (if live_at b index then 1 else 0) + count_live_at b indices
  end.

(** The states a client can reach: construction, then any public calls
    that return. *)
Inductive reachable : HashMap -> Prop :=
| reach_init fuel capacity m :
    HashMap_init fuel capacity = Ok m -> reachable m
| reach_put fuel k v m tr m' :
    reachable m -> put fuel k v m = Ok (tr, m') -> reachable m'
| reach_get fuel k m r m' :
    reachable m -> get fuel k m = Ok (r, m') -> reachable m'
| reach_contains_key fuel k m r m' :
    reachable m -> contains_key fuel k m = Ok (r, m') -> reachable m'
| reach_remove fuel k m tr m' :
    reachable m -> remove fuel k m = Ok (tr, m') -> reachable m'
| reach_resize_table fuel new_capacity m n m' :
    reachable m -> resize_table fuel new_capacity m = Ok (n, m') ->
    reachable m'
| reach_clear m m' :
    reachable m -> clear m = Ok (tt, m') -> reachable m'.

(** The slot of probe attempt [i] in the specification's words: the base
    index plus [i] squared, modulo the capacity. *)
Definition quadratic_slot (k : string) (capacity : Z) (i : nat) : Z :=
  slot_at (hash_function k mod capacity) capacity i.

Definition quadratic_sequence (k : string) (capacity : Z) (n : nat)
    : list Z :=
  map (quadratic_slot k capacity) (seq 0 n).

End HashMap.

Arguments mkHashEntry {V}.
Arguments key {V}.
Arguments value {V}.
Arguments is_tombstone {V}.
Arguments new_HashEntry {V}.
Arguments mkHashMap {V}.
Arguments _buckets {V}.
Arguments _capacity {V}.
Arguments _size {V}.
Arguments ret {V A}.
Arguments bind {V A B}.
Arguments lift {V A}.
Arguments gets {V A}.
Arguments timeout {V A}.
Arguments set_buckets {V}.
Arguments set_capacity {V}.
Arguments set_size {V}.
Arguments bucket_get {V}.
Arguments bucket_set {V}.
Arguments fresh_buckets {V}.
Arguments HashMap_init {V}.
Arguments get_size {V}.
Arguments get_capacity {V}.
Arguments _hash {V}.
Arguments table_load {V}.
Arguments empty_buckets {V}.
Arguments advance {V}.
Arguments put_probe {V}.
Arguments migrate {V}.
Arguments put {V}.
Arguments resize_table {V}.
Arguments get_probe {V}.
Arguments get_traced {V}.
Arguments get {V}.
Arguments contains_probe {V}.
Arguments contains_key_traced {V}.
Arguments contains_key {V}.
Arguments remove_probe {V}.
Arguments remove {V}.
Arguments collect {V}.
Arguments get_keys_and_values {V}.
Arguments clear {V}.
Arguments live {V}.
Arguments count_live {V}.
Arguments size_ok {V}.
Arguments shape_ok {V}.
Arguments consistent {V}.
Arguments blocked {V}.
Arguments blocked_at {V}.
Arguments live_indices {V}.
Arguments live_at {V}.
Arguments count_live_at {V}.
Arguments reachable {V}.

Notation "x <- c ;; k" := (bind c (fun x => k))
  (at level 63, c at next level, right associativity).
Notation "c ;;; k" := (bind c (fun _ => k))
  (at level 63, right associativity).

(** ** Iteration: [__iter__] and [__next__] *)

Section Iteration.
Context {V : Type}.

(** [__iter__] returns the map itself after setting the attribute
    [_index] on it: the iterator is the map object together with its
    cursor.  The record always carries a cursor; a call of [__next__] on
    a map that [__iter__] never saw, which Python answers with an
    [AttributeError], has no counterpart here. *)
Record HashMapIter : Type := mkHashMapIter {
  _map : HashMap V;
  _index : Z
}.

(** What a call of [__next__] ends with: the entry it returns, or
    [raise StopIteration], after which the object lives on with its
    cursor. *)
Inductive next_result : Type :=
| Yield (val : HashEntry V)
| StopIteration.

Definition __iter__ (m : HashMap V) : HashMapIter := mkHashMapIter m 0.

(** [__next__]: the loop [while self._index < self._buckets.length()],
    on fuel. *)
Fixpoint __next__ (fuel : nat) (it : HashMapIter)
    : result (next_result * HashMapIter) :=
  match fuel with
  | O => Timeout
  | S fuel =>
      if _index it <? Z.of_nat (length (_buckets (_map it)))
      then
        rbind (da_get (_buckets (_map it)) (_index it)) (fun val =>
        match val with
        | Some entry =>
            if negb (is_tombstone entry)
            then Ok (Yield entry, mkHashMapIter (_map it) (_index it + 1))
            else __next__ fuel (mkHashMapIter (_map it) (_index it + 1))
        | None => __next__ fuel (mkHashMapIter (_map it) (_index it + 1))
        end)
      else Ok (StopIteration, it)
  end.

(** Python's [for entry in m]: call [__next__] until it raises
    [StopIteration]; the answer lists the entries the loop body is given,
    with the iterator as the loop leaves it. *)
Fixpoint for_each (fuel : nat) (it : HashMapIter)
    : result (list (HashEntry V) * HashMapIter) :=
  match fuel with
  | O => Timeout
  | S fuel =>
      rbind (__next__ fuel it) (fun r =>
      match fst r with
      | Yield entry =>
          rbind (for_each fuel (snd r)) (fun rest =>
          Ok (entry :: fst rest, snd rest))
      | StopIteration => Ok ([], snd r)
      end)
  end.
End Iteration.

Arguments HashMapIter : clear implicits.
Arguments next_result : clear implicits.

(** ** Notions used to state the properties of the map *)

Section Notions.
Context {V : Type} (hash_function : string -> Z).

(** What every reachable map satisfies beyond consistency: a capacity that
    is not negative is prime, and the table is at most about half full. *)
Definition sound (m : HashMap V) : Prop :=
  consistent m /\
  (0 <= _capacity m -> Z.prime (_capacity m)) /\
  (_size m = 0 \/ 2 * (_size m - 1) < _capacity m).

(** Whether [get] found an entry. *)
Definition found (r : option V) : bool :=
  match r with
  | Some _ => true
  | None => false
  end.

(** The key and value of the live entries of a table, in slot order. *)
Fixpoint live_pairs (b : list (option (HashEntry V))) : list (string * V) :=
  match b with
  | [] => []
  | Some entry :: b =>
      if negb (is_tombstone entry)
      then (key entry, value entry) :: live_pairs b
      else live_pairs b
  | None :: b => live_pairs b
  end.

(** Every entry of the table, live or tombstone, sits on the probe
    sequence of its key, and no slot of that sequence before it is
    empty. *)
Definition chain_ok (m : HashMap V) : Prop :=
  forall index entry,
    _buckets m !! index = Some (Some entry) ->
    exists j,
      Z.to_nat (quadratic_slot hash_function (key entry) (_capacity m) j)
        = index /\
      forall i, (i < j)%nat ->
        exists e,
          _buckets m
            !! Z.to_nat (quadratic_slot hash_function (key entry)
                           (_capacity m) i)
          = Some (Some e).



(** A table holds a key when one of its live entries has it. *)
Definition holds_key (b : list (option (HashEntry V))) (k : string) : Prop :=
  exists index entry,
    b !! index = Some (Some entry) /\ is_tombstone entry = false /\
    key entry = k.

(** The live entries of a table, in slot order. *)
Fixpoint live_entries (b : list (option (HashEntry V)))
    : list (HashEntry V) :=
  match b with
  | [] => []
  | Some entry :: b =>
      if negb (is_tombstone entry)
      then entry :: live_entries b
      else live_entries b
  | None :: b => live_entries b
  end.

(** The first live entry of the slots [b] that start at index [i], with
    the cursor behind it; [StopIteration] with the cursor behind the last
    slot when there is none. *)
Fixpoint next_live (m : HashMap V) (i : nat) (b : list (option (HashEntry V)))
    : next_result V * HashMapIter V :=
  match b with
  | [] => (StopIteration, mkHashMapIter m (Z.of_nat i))
  | slot :: b =>
      match slot with
      | Some entry =>
          if negb (is_tombstone entry)
          then (Yield entry, mkHashMapIter m (Z.of_nat i + 1))
          else next_live m (S i) b
      | None => next_live m (S i) b
      end
  end.
End Notions.

(** ** Concrete maps used as test inputs

    The hash function of the examples is Python's [len], a function from
    strings to unsigned integers as the constructor expects. *)
Definition len (k : string) : Z := Z.of_nat (String.length k).

(** The number of distinct keys among exported pairs. *)
Definition distinct_keys (pairs : list (string * Z)) : nat :=
  length (nodup String.string_dec (map fst pairs)).

Definition entry (k : string) (v : Z) : option (HashEntry Z) :=
  Some (mkHashEntry k v false).

Definition tombstone (k : string) (v : Z) : option (HashEntry Z) :=
  Some (mkHashEntry k v true).

(** [HashMap(3, len)] after [put("a", 1)] and [put("d", 2)]: both keys
    have length 1 and hash to slot 1, so "d" sits one probe further, in
    slot 2. *)
Definition two_keys : HashMap Z :=
  mkHashMap [None; entry "a" 1; entry "d" 2] 3 2.

(** [two_keys] after [remove("d")]. *)
Definition stuck_map : HashMap Z :=
  mkHashMap [None; entry "a" 1; tombstone "d" 2] 3 1.

(** [two_keys] after [remove("a")]. *)
Definition one_key : HashMap Z :=
  mkHashMap [None; tombstone "a" 1; entry "d" 2] 3 1.

(** [one_key] after [put("d", 3)]: the key "d" now has two live
    entries. *)
Definition dup_map : HashMap Z :=
  mkHashMap [None; entry "d" 3; entry "d" 2] 3 2.

(** [dup_map] after [remove("d")], and after a second
    [remove("d")]. *)
Definition dup_removed : HashMap Z :=
  mkHashMap [None; tombstone "d" 3; entry "d" 2] 3 1.

Definition dup_removed_twice : HashMap Z :=
  mkHashMap [None; tombstone "d" 3; tombstone "d" 2] 3 0.

(** [HashMap(10, len)] after five insertions of keys of lengths 1 to 5. *)
Definition five_keys : HashMap Z :=
  mkHashMap [None; entry "a" 1; entry "ab" 2; entry "abc" 3;
             entry "abcd" 4; entry "abcde" 5;
             None; None; None; None; None] 11 5.

(** ** Proof automation *)

Ltac munfold :=
  unfold bucket_get, bucket_set, advance, _hash, table_load, empty_buckets,
    get_size, get_capacity, clear, set_buckets, set_size, set_capacity,
    bind, gets, lift, ret, timeout in *.

Ltac break_hyp H :=
  repeat match type of H with
         | context [match ?x with _ => _ end] => destruct x eqn:?
         end.

(** * Facts *)

(** ** Primes *)

Lemma prime_divisor n : 2 <= n -> exists p, Z.prime p /\ (p | n).
Proof.
  intros Hn. assert (H0 : 0 <= n) by lia. revert Hn.
  pattern n. apply Z_lt_induction; [|exact H0]. clear n H0.
  intros n IH Hn.
  destruct (prime_dec n) as [Hp|Hnp]; [apply prime_alt in Hp|].
  - exists n. split; [exact Hp | apply Z.divide_refl].
  - destruct (not_prime_divide n ltac:(lia) Hnp) as (d & Hd & Hdiv).
    destruct (IH d ltac:(lia) ltac:(lia)) as (p & Hp & Hpd).
    exists p. split; [exact Hp | eapply Z.divide_trans; eassumption].
Qed.

Lemma divide_fact k : forall d, 1 <= d <= Z.of_nat k -> (d | Z.of_nat (fact k)).
Proof.
  induction k as [|k IH]; intros d Hd.
  - lia.
  - change (fact (S k)) with (S k * fact k)%nat. rewrite Nat2Z.inj_mul.
    destruct (Z.eq_dec d (Z.of_nat (S k))) as [->|Hne].
    + apply Z.divide_factor_l.
    + apply Z.divide_mul_r. apply IH. lia.
Qed.

Lemma primes_unbounded n : exists p, Z.prime p /\ n < p.
Proof.
  set (k := Z.to_nat n).
  assert (Hf : 1 <= Z.of_nat (fact k)).
  { pose proof (lt_O_fact k). lia. }
  destruct (prime_divisor (Z.of_nat (fact k) + 1) ltac:(lia)) as (p & Hp & Hd).
  exists p. split; [exact Hp|].
  destruct (Z_lt_le_dec n p) as [Hlt|Hle]; [exact Hlt|exfalso].
  pose proof (Z.prime_ge_2 p Hp) as Hp2.
  assert (Hpf : (p | Z.of_nat (fact k))).
  { apply divide_fact. subst k. lia. }
  assert (Hp1 : (p | 1)).
  { replace 1 with (Z.of_nat (fact k) + 1 - Z.of_nat (fact k)) by lia.
    apply Z.divide_sub_r; assumption. }
  apply Z.divide_1_r_nonneg in Hp1; lia.
Qed.

Lemma is_prime_loop_spec fuel : forall factor n,
  3 <= factor -> factor mod 2 = 1 ->
  (Z.to_nat (n - factor) < fuel)%nat ->
  exists b, is_prime_loop fuel factor n = Ok b /\
            (b = true <-> no_odd_factor factor n).
Proof.
  induction fuel as [|fuel IH]; intros factor n Hf Hodd Hfuel; [lia|].
  simpl. destruct (factor ^ 2 <=? n) eqn:Hsq.
  - apply Z.leb_le in Hsq.
    destruct (n mod factor =? 0) eqn:Hm.
    + apply Z.eqb_eq in Hm. exists false. split; [reflexivity|].
      split; [discriminate|]. intros Hno. exfalso.
      apply (Hno factor); [lia | exact Hodd | exact Hsq | exact Hm].
    + apply Z.eqb_neq in Hm.
      destruct (IH (factor + 2) n) as (b & Hb & Hiff).
      * lia.
      * rewrite <- Zplus_mod_idemp_l, Hodd. reflexivity.
      * nia.
      * exists b. split; [exact Hb|]. rewrite Hiff. split.
        -- intros Hno d Hd Hdo Hd2.
           destruct (Z.eq_dec d factor) as [->|Hne]; [exact Hm|].
           destruct (Z.eq_dec d (factor + 1)) as [->|Hne1].
           ++ rewrite <- Zplus_mod_idemp_l, Hodd in Hdo. discriminate.
           ++ apply Hno; [lia | exact Hdo | exact Hd2].
        -- intros Hno d Hd. apply Hno. lia.
  - apply Z.leb_gt in Hsq. exists true. split; [reflexivity|].
    split; [|reflexivity]. intros _ d Hd _ Hd2. nia.
Qed.

Lemma odd_divisor n d : n mod 2 = 1 -> (d | n) -> d mod 2 = 1.
Proof.
  intros Hn [q ->].
  rewrite Z.mul_mod in Hn by lia.
  pose proof (Z.mod_pos_bound d 2 ltac:(lia)) as Hd.
  assert (Hc : d mod 2 = 0 \/ d mod 2 = 1) by lia.
  destruct Hc as [Hc|Hc]; [|exact Hc].
  rewrite Hc, Z.mul_0_r in Hn. discriminate.
Qed.

Lemma no_odd_factor_prime n :
  5 <= n -> n mod 2 = 1 -> (no_odd_factor 3 n <-> Z.prime n).
Proof.
  intros Hn Hodd. split.
  - intros Hno. split; [lia|].
    intros d Hd Hdiv.
    pose proof (odd_divisor n d Hodd Hdiv) as Hdo.
    destruct Hdiv as [q Hq].
    assert (Hqdiv : (q | n)) by (exists d; lia).
    pose proof (odd_divisor n q Hodd Hqdiv) as Hqo.
    assert (Hq1 : 1 < q) by nia.
    destruct (Z_le_gt_dec d q) as [Hle|Hgt].
    + apply (Hno d); [|exact Hdo| |].
      * destruct (Z.eq_dec d 2) as [->|]; [discriminate|lia].
      * nia.
      * subst n. apply Z.mod_mul. lia.
    + apply (Hno q); [|exact Hqo| |].
      * destruct (Z.eq_dec q 2) as [->|]; [discriminate|lia].
      * nia.
      * subst n. rewrite Z.mul_comm. apply Z.mod_mul. lia.
  - intros Hp d Hd Hdo Hd2 Hm.
    destruct Hp as [_ Hp].
    apply (Hp d); [nia|].
    apply Z.mod_divide; [lia|exact Hm].
Qed.

Lemma is_prime_spec fuel n :
  0 <= n -> (Z.to_nat n < fuel)%nat ->
  exists b, _is_prime fuel n = Ok b /\ (b = true <-> Z.prime n).
Proof.
  intros Hn Hfuel. unfold _is_prime.
  destruct ((n =? 2) || (n =? 3)) eqn:H23.
  - exists true. split; [reflexivity|]. split; [|reflexivity]. intros _.
    apply orb_true_iff in H23 as [H|H]; apply Z.eqb_eq in H; subst.
    + apply Z.prime_2.
    + apply Z.prime_3.
  - apply orb_false_iff in H23 as [H2 H3].
    apply Z.eqb_neq in H2. apply Z.eqb_neq in H3.
    destruct ((n =? 1) || (n mod 2 =? 0)) eqn:H1.
    + exists false. split; [reflexivity|]. split; [discriminate|].
      intros Hp. exfalso.
      pose proof (Z.prime_ge_2 n Hp) as Hge.
      apply orb_true_iff in H1 as [H|H].
      * apply Z.eqb_eq in H. lia.
      * apply Z.eqb_eq in H. destruct Hp as [_ Hp].
        apply (Hp 2); [lia|]. apply Z.mod_divide; [lia|exact H].
    + apply orb_false_iff in H1 as [H1 He].
      apply Z.eqb_neq in H1. apply Z.eqb_neq in He.
      assert (Hodd : n mod 2 = 1).
      { pose proof (Z.mod_pos_bound n 2 ltac:(lia)). lia. }
      assert (H5 : 5 <= n).
      { destruct (Z.eq_dec n 0) as [->|]; [discriminate|].
        destruct (Z.eq_dec n 4) as [->|]; [discriminate|]. lia. }
      destruct (is_prime_loop_spec fuel 3 n) as (b & Hb & Hiff);
        [lia | reflexivity | lia |].
      exists b. split; [exact Hb|].
      rewrite Hiff. apply no_odd_factor_prime; assumption.
Qed.

(** [_is_prime] answers, given enough fuel, on every integer. *)
Lemma is_prime_returns fuel n :
  (Z.to_nat n < fuel)%nat -> exists b, _is_prime fuel n = Ok b.
Proof.
  intros Hfuel. destruct (Z_le_gt_dec 0 n) as [Hn|Hn].
  - destruct (is_prime_spec fuel n Hn Hfuel) as (b & Hb & _). eauto.
  - unfold _is_prime.
    destruct ((n =? 2) || (n =? 3)); [eauto|].
    destruct ((n =? 1) || (n mod 2 =? 0)); [eauto|].
    destruct fuel as [|fuel]; [lia|]. simpl.
    assert (H : (3 ^ 2 <=? n) = false) by (apply Z.leb_gt; lia).
    rewrite H. eauto.
Qed.

(** The candidates of [_next_prime]: from an odd start, the loop stops
    at the first prime among [start], [start + 2], ... *)
Lemma next_prime_loop_spec q : Z.prime q -> q mod 2 = 1 ->
  forall fuel start,
  0 <= start <= q -> start mod 2 = 1 ->
  (Z.to_nat (2 * q - start + 2) <= fuel)%nat ->
  exists p, next_prime_loop fuel start = Ok p /\
            Z.prime p /\ p mod 2 = 1 /\ start <= p <= q /\
            (forall r, Z.prime r -> start <= r -> r mod 2 = 1 -> p <= r).
Proof.
  intros Hq Hqo. induction fuel as [|fuel IH]; intros start Hs Hso Hfuel.
  - lia.
  - simpl.
    destruct (is_prime_spec fuel start) as (b & Hb & Hiff); [lia|lia|].
    rewrite Hb. simpl. destruct b.
    + exists start. split; [reflexivity|].
      split; [apply Hiff; reflexivity|]. split; [exact Hso|].
      split; [lia|]. intros; assumption.
    + assert (Hnp : ~ Z.prime start).
      { intros Hp. apply Hiff in Hp. discriminate. }
      assert (Hne : start <> q) by (intros ->; contradiction).
      assert (Hne1 : start + 1 <> q).
      { intros <-. rewrite <- Zplus_mod_idemp_l, Hso in Hqo. discriminate. }
      destruct (IH (start + 2)) as (p & Hp & Hpp & Hpo & Hpr & Hmin).
      * lia.
      * rewrite <- Zplus_mod_idemp_l, Hso. reflexivity.
      * lia.
      * exists p. split; [exact Hp|]. split; [exact Hpp|].
        split; [exact Hpo|]. split; [lia|]. intros r Hr Hsr Hro.
        apply Hmin; [exact Hr| |exact Hro].
        destruct (Z.eq_dec r start) as [->|]; [contradiction|].
        destruct (Z.eq_dec r (start + 1)) as [->|]; [|lia].
        rewrite <- Zplus_mod_idemp_l, Hso in Hro. discriminate.
Qed.

Lemma odd_prime p : Z.prime p -> p <> 2 -> p mod 2 = 1.
Proof.
  intros Hp H2. pose proof (Z.prime_ge_2 p Hp) as Hge.
  pose proof (Z.mod_pos_bound p 2 ltac:(lia)) as Hb.
  destruct (Z.eq_dec (p mod 2) 0) as [H0|H0]; [exfalso|lia].
  destruct Hp as [_ Hp]. apply (Hp 2); [lia|].
  apply Z.mod_divide; [lia|exact H0].
Qed.

(** [_next_prime] on a non-negative request: the smallest prime that is
    at least the request and at least 3. *)
Lemma next_prime_spec c : 0 <= c ->
  exists p, Z.prime p /\ c <= p /\ 3 <= p /\
    (forall r, Z.prime r -> c <= r -> 3 <= r -> p <= r) /\
    exists fuel0, forall fuel, (fuel0 <= fuel)%nat ->
      _next_prime fuel c = Ok p.
Proof.
  intros Hc.
  destruct (primes_unbounded (c + 2)) as (q & Hq & Hcq).
  assert (Hqo : q mod 2 = 1) by (apply odd_prime; [exact Hq|lia]).
  set (start := if c mod 2 =? 0 then c + 1 else c).
  assert (Hso : start mod 2 = 1).
  { subst start. destruct (c mod 2 =? 0) eqn:He.
    - apply Z.eqb_eq in He. rewrite <- Zplus_mod_idemp_l, He. reflexivity.
    - apply Z.eqb_neq in He.
      pose proof (Z.mod_pos_bound c 2 ltac:(lia)). lia. }
  assert (Hsc : c <= start <= c + 1).
  { subst start. destruct (c mod 2 =? 0); lia. }
  assert (Hrun : forall fuel, (Z.to_nat (2 * q - start + 2) <= fuel)%nat ->
    exists p, _next_prime fuel c = Ok p /\ Z.prime p /\ c <= p /\ 3 <= p /\
      (forall r, Z.prime r -> c <= r -> 3 <= r -> p <= r)).
  { intros fuel Hfuel.
    destruct (next_prime_loop_spec q Hq Hqo fuel start)
      as (p & Hp & Hpp & Hpo & Hpr & Hmin); [lia|exact Hso|exact Hfuel|].
    exists p. split; [exact Hp|]. split; [exact Hpp|]. split; [lia|].
    assert (Hp3 : 3 <= p).
    { pose proof (Z.prime_ge_2 p Hpp).
      destruct (Z.eq_dec p 2) as [->|]; [discriminate|lia]. }
    split; [exact Hp3|].
    intros r Hr Hcr H3.
    apply Hmin; [exact Hr| |apply odd_prime; [exact Hr|lia]].
    destruct (Z.eq_dec r c) as [->|]; [|lia].
    pose proof (odd_prime c Hr ltac:(lia)) as Hco.
    subst start. destruct (c mod 2 =? 0) eqn:He; [|lia].
    apply Z.eqb_eq in He. lia. }
  destruct (Hrun _ (Nat.le_refl _)) as (p & Hp & Hpp & Hcp & Hp3 & Hmin).
  exists p. split; [exact Hpp|]. split; [exact Hcp|]. split; [exact Hp3|].
  split; [exact Hmin|].
  exists (Z.to_nat (2 * q - start + 2)). intros fuel Hfuel.
  destruct (Hrun fuel Hfuel) as (p' & Hp' & Hpp' & Hcp' & Hp3' & Hmin').
  rewrite Hp'. f_equal.
  pose proof (Hmin p' Hpp' Hcp' Hp3'). pose proof (Hmin' p Hpp Hcp Hp3). lia.
Qed.

(** ** The map *)

Section Facts.

Context {V : Type} (hash_function : string -> Z).

Local Arguments Z.pow : simpl never.
Local Arguments Z.modulo : simpl never.
Local Arguments Z.mul : simpl never.
Local Arguments Z.add : simpl never.
Local Arguments Z.sub : simpl never.
Local Arguments Z.of_nat : simpl never.
Local Arguments Z.to_nat : simpl never.

Lemma bind_Ok {A B} (c : M V A) (k : A -> M V B) m b m2 :
  bind c k m = Ok (b, m2) ->
  exists a m1, c m = Ok (a, m1) /\ k a m1 = Ok (b, m2).
Proof.
  unfold bind. destruct (c m) as [[a m1]| |]; try discriminate.
  intros H. exists a, m1. split; [reflexivity | exact H].
Qed.

(** *** The observers leave the map alone *)

Lemma bucket_get_frame index (m : HashMap V) x m' :
  bucket_get index m = Ok (x, m') -> m' = m.
Proof.
  munfold. intros H. break_hyp H; congruence.
Qed.

Lemma advance_frame t p (m : HashMap V) x m' :
  advance t p m = Ok (x, m') -> m' = m.
Proof.
  munfold. unfold py_mod. intros H. break_hyp H; congruence.
Qed.

Lemma hash_frame k (m : HashMap V) x m' :
  _hash hash_function k m = Ok (x, m') -> m' = m.
Proof.
  munfold. unfold py_mod. intros H. break_hyp H; congruence.
Qed.

Lemma get_probe_frame fuel : forall k t p (m : HashMap V) r m',
  get_probe fuel k t p m = Ok (r, m') -> m' = m.
Proof.
  induction fuel as [|fuel IH]; intros k t p m r m' H; simpl in H.
  - discriminate.
  - apply bind_Ok in H as (slot & m1 & Hg & H).
    apply bucket_get_frame in Hg as ->.
    destruct slot as [curr|].
    + destruct (String.eqb (key curr) k && negb (is_tombstone curr)).
      * unfold ret in H. congruence.
      * apply bind_Ok in H as (next & m2 & Ha & H).
        apply advance_frame in Ha as ->.
        apply bind_Ok in H as (r' & m3 & Hp & H).
        apply IH in Hp as ->. unfold ret in H. congruence.
    + unfold ret in H. congruence.
Qed.

Lemma contains_probe_frame fuel : forall k t p (m : HashMap V) r m',
  contains_probe fuel k t p m = Ok (r, m') -> m' = m.
Proof.
  induction fuel as [|fuel IH]; intros k t p m r m' H; simpl in H.
  - discriminate.
  - apply bind_Ok in H as (slot & m1 & Hg & H).
    apply bucket_get_frame in Hg as ->.
    destruct slot as [curr|].
    + destruct (String.eqb (key curr) k && negb (is_tombstone curr)).
      * unfold ret in H. congruence.
      * apply bind_Ok in H as (next & m2 & Ha & H).
        apply advance_frame in Ha as ->.
        apply bind_Ok in H as (r' & m3 & Hp & H).
        apply IH in Hp as ->. unfold ret in H. congruence.
    + unfold ret in H. congruence.
Qed.

Lemma get_frame fuel k (m : HashMap V) r m' :
  get hash_function fuel k m = Ok (r, m') -> m' = m.
Proof.
  unfold get, get_traced. intros H.
  apply bind_Ok in H as (r' & m1 & H & Hr).
  unfold ret in Hr. inversion Hr; subst; clear Hr.
  apply bind_Ok in H as (s & m2 & Hs & H).
  unfold gets in Hs. inversion Hs; subst; clear Hs.
  destruct (_size m2 =? 0).
  - unfold ret in H. congruence.
  - apply bind_Ok in H as (t & m3 & Hh & H).
    apply hash_frame in Hh as ->.
    eapply get_probe_frame; eassumption.
Qed.

Lemma contains_key_frame fuel k (m : HashMap V) r m' :
  contains_key hash_function fuel k m = Ok (r, m') -> m' = m.
Proof.
  unfold contains_key, contains_key_traced. intros H.
  apply bind_Ok in H as (r' & m1 & H & Hr).
  unfold ret in Hr. inversion Hr; subst; clear Hr.
  apply bind_Ok in H as (s & m2 & Hs & H).
  unfold gets in Hs. inversion Hs; subst; clear Hs.
  destruct (_size m2 =? 0).
  - unfold ret in H. congruence.
  - apply bind_Ok in H as (t & m3 & Hh & H).
    apply hash_frame in Hh as ->.
    eapply contains_probe_frame; eassumption.
Qed.

(** *** The size counter and the shape of the table *)

Lemma bucket_get_Ok index (m : HashMap V) x m' :
  bucket_get index m = Ok (x, m') ->
  m' = m /\ 0 <= index /\ _buckets m !! Z.to_nat index = Some x.
Proof.
  munfold. unfold da_get. intros H.
  destruct (index <? 0) eqn:Hi; [discriminate|].
  destruct (_buckets m !! Z.to_nat index) eqn:Hl; [|discriminate].
  inversion H; subst. split; [reflexivity|]. split; [lia | congruence].
Qed.

Lemma bucket_set_Ok index x (m : HashMap V) u m' :
  bucket_set index x m = Ok (u, m') ->
  m' = mkHashMap (<[Z.to_nat index := x]> (_buckets m))
         (_capacity m) (_size m).
Proof.
  munfold. unfold da_set. intros H.
  destruct ((index <? 0) || (Z.of_nat (length (_buckets m)) <=? index));
    [discriminate|].
  simpl in H. congruence.
Qed.

Lemma advance_Ok t p (m : HashMap V) x m' :
  advance t p m = Ok (x, m') ->
  m' = m /\ _capacity m <> 0 /\
  x = (t + ((p + 1) ^ 2 - p ^ 2)) mod _capacity m.
Proof.
  munfold. unfold py_mod. intros H.
  destruct (_capacity m =? 0) eqn:Hc; [discriminate|].
  inversion H; subst. split; [reflexivity|]. split; [lia | reflexivity].
Qed.

Lemma hash_Ok k (m : HashMap V) x m' :
  _hash hash_function k m = Ok (x, m') ->
  m' = m /\ _capacity m <> 0 /\ x = hash_function k mod _capacity m.
Proof.
  munfold. unfold py_mod. intros H.
  destruct (_capacity m =? 0) eqn:Hc; [discriminate|].
  inversion H; subst. split; [reflexivity|]. split; [lia | reflexivity].
Qed.

Lemma count_live_insert (b : list (option (HashEntry V))) : forall i old new,
  b !! i = Some old ->
  count_live (<[i := new]> b) =
  count_live b - (if live old then 1 else 0) + (if live new then 1 else 0).
Proof.
  induction b as [|slot b IH]; intros i old new Hl.
  - destruct i; discriminate.
  - destruct i as [|i]; simpl in *.
    + inversion Hl; subst. lia.
    + rewrite (IH i old new Hl). lia.
Qed.

Lemma count_live_replicate n :
  count_live (replicate n (@None (HashEntry V))) = 0.
Proof.
  induction n as [|n IH]; simpl; [reflexivity|]. rewrite IH. reflexivity.
Qed.

Lemma count_live_nonneg (b : list (option (HashEntry V))) :
  0 <= count_live b.
Proof.
  induction b as [|slot b IH]; simpl; [lia|]. destruct (live slot); lia.
Qed.

(** What a run of the probe loop of [put] keeps and changes. *)
Lemma put_probe_inv fuel : forall k v t p (m : HashMap V) tr m',
  put_probe fuel k v t p m = Ok (tr, m') ->
  size_ok m ->
  size_ok m' /\
  length (_buckets m') = length (_buckets m) /\
  _capacity m' = _capacity m /\
  _size m <= _size m' <= _size m + 1.
Proof.
  induction fuel as [|fuel IH]; intros k v t p m tr m' H Hs; simpl in H.
  - discriminate.
  - apply bind_Ok in H as (slot & m1 & Hg & H).
    apply bucket_get_Ok in Hg as (-> & Ht & Hl).
    assert (Hins : forall m2 u,
      bucket_set t (Some (new_HashEntry k v)) m = Ok (u, m2) ->
      live slot = false ->
      forall tr0 m3,
      (s <- gets _size ;; set_size (s + 1) ;;; ret tr0) m2 = Ok (tr, m3) ->
      size_ok m3 /\ length (_buckets m3) = length (_buckets m) /\
      _capacity m3 = _capacity m /\ _size m <= _size m3 <= _size m + 1).
    { intros m2 u Hb Hlive tr0 m3 H3.
      apply bucket_set_Ok in Hb as ->.
      munfold. simpl in H3. inversion H3; subst; clear H3.
      unfold size_ok in *. simpl.
      rewrite (count_live_insert _ _ _ _ Hl), Hlive, length_insert. simpl.
      repeat split; lia. }
    destruct slot as [entry|].
    + destruct (is_tombstone entry) eqn:Hts.
      * apply bind_Ok in H as (u & m2 & Hb & H).
        eapply Hins; [exact Hb | simpl; rewrite Hts; reflexivity | exact H].
      * destruct (String.eqb (key entry) k) eqn:Hk.
        -- apply bind_Ok in H as (u & m2 & Hb & H).
           apply bucket_set_Ok in Hb as ->.
           unfold ret in H. inversion H; subst; clear H.
           unfold size_ok in *. simpl.
           rewrite (count_live_insert _ _ _ _ Hl), length_insert. simpl.
           rewrite Hts. simpl. repeat split; lia.
        -- apply bind_Ok in H as (next & m2 & Ha & H).
           apply advance_Ok in Ha as (-> & _ & _).
           apply bind_Ok in H as (visited & m3 & Hp & H).
           unfold ret in H. inversion H; subst; clear H.
           eapply IH; eassumption.
    + apply bind_Ok in H as (u & m2 & Hb & H).
      eapply Hins; [exact Hb | reflexivity | exact H].
Qed.

Lemma remove_probe_inv fuel : forall k t p (m : HashMap V) tr m',
  remove_probe fuel k t p m = Ok (tr, m') ->
  size_ok m ->
  size_ok m' /\
  length (_buckets m') = length (_buckets m) /\
  _capacity m' = _capacity m.
Proof.
  induction fuel as [|fuel IH]; intros k t p m tr m' H Hs; simpl in H.
  - discriminate.
  - apply bind_Ok in H as (slot & m1 & Hg & H).
    apply bucket_get_Ok in Hg as (-> & Ht & Hl).
    destruct slot as [curr|].
    + destruct (String.eqb (key curr) k && negb (is_tombstone curr)) eqn:Hc.
      * apply bind_Ok in H as (u & m2 & Hb & H).
        apply bucket_set_Ok in Hb as ->.
        munfold. simpl in H. inversion H; subst; clear H.
        apply andb_true_iff in Hc as [_ Hc].
        unfold size_ok in *. simpl.
        rewrite (count_live_insert _ _ _ _ Hl), length_insert. simpl.
        rewrite Hc. repeat split; lia.
      * apply bind_Ok in H as (next & m2 & Ha & H).
        apply advance_Ok in Ha as (-> & _ & _).
        apply bind_Ok in H as (visited & m3 & Hp & H).
        unfold ret in H. inversion H; subst; clear H.
        eapply IH; eassumption.
    + unfold ret in H. inversion H; subst. repeat split; assumption.
Qed.

Lemma migrate_inv (I : HashMap V -> Prop) put_f old_map :
  (forall k v m r m', I m -> put_f k v m = Ok (r, m') -> I m') ->
  forall l m n m', I m -> migrate put_f old_map l m = Ok (n, m') -> I m'.
Proof.
  intros Hput. induction l as [|index l IH]; intros m n m' Hi H; simpl in H.
  - unfold ret in H. congruence.
  - apply bind_Ok in H as (curr & m1 & Hd & H).
    assert (m1 = m) as ->.
    { unfold lift in Hd. break_hyp Hd; congruence. }
    apply bind_Ok in H as (n1 & m2 & H1 & H).
    apply bind_Ok in H as (n2 & m3 & H2 & H).
    unfold ret in H. inversion H; subst; clear H.
    eapply IH; [|exact H2].
    destruct curr as [entry|]; [|unfold ret in H1; congruence].
    destruct (negb (is_tombstone entry)); [|unfold ret in H1; congruence].
    apply bind_Ok in H1 as (r & m4 & Hp & H1).
    unfold ret in H1. inversion H1; subst; clear H1.
    eapply Hput; eassumption.
Qed.

Lemma put_resize_consistent fuel :
  (forall k v (m : HashMap V) r m',
     consistent m ->
     put hash_function fuel k v m = Ok (r, m') -> consistent m') /\
  (forall nc (m : HashMap V) n m',
     consistent m ->
     resize_table hash_function fuel nc m = Ok (n, m') -> consistent m').
Proof.
  induction fuel as [|fuel [IHput IHres]]; split.
  - intros; discriminate.
  - intros; discriminate.
  - intros k v m r m' Hc H. simpl in H.
    apply bind_Ok in H as (load & m1 & Hl & H).
    assert (m1 = m) as ->.
    { munfold. break_hyp Hl; congruence. }
    apply bind_Ok in H as (u & m2 & Hr & H).
    assert (Hc2 : consistent m2).
    { destruct (Qle_bool (1 # 2) load).
      - apply bind_Ok in Hr as (c & m3 & Hg & Hr).
        unfold gets in Hg. inversion Hg; subst; clear Hg.
        apply bind_Ok in Hr as (n & m4 & Hr & Hn).
        unfold ret in Hn. inversion Hn; subst; clear Hn.
        eapply IHres; eassumption.
      - unfold ret in Hr. congruence. }
    apply bind_Ok in H as (t & m3 & Hh & H).
    apply hash_Ok in Hh as (-> & _ & _).
    apply bind_Ok in H as (visited & m4 & H & Hv).
    unfold ret in Hv. inversion Hv; subst; clear Hv.
    destruct Hc2 as [Hs2 Hsh2].
    apply put_probe_inv in H as (Hs & Hlen & Hcap & _); [|exact Hs2].
    split; [exact Hs|]. unfold shape_ok in *. congruence.
  - intros nc m n m' Hc H. simpl in H.
    apply bind_Ok in H as (s & m1 & Hg & H).
    unfold gets in Hg. inversion Hg; subst; clear Hg.
    destruct (nc <? _size m1).
    { unfold ret in H. congruence. }
    apply bind_Ok in H as (old_map & m2 & Hg & H).
    unfold gets in Hg. inversion Hg; subst; clear Hg.
    apply bind_Ok in H as (old_capacity & m3 & Hg & H).
    unfold gets in Hg. inversion Hg; subst; clear Hg.
    apply bind_Ok in H as (p & m4 & Hp & H).
    assert (m4 = m3) as ->.
    { unfold lift in Hp. break_hyp Hp; congruence. }
    apply bind_Ok in H as (u1 & m5 & Hcap & H).
    apply bind_Ok in H as (c & m6 & Hg & H).
    unfold gets in Hg. inversion Hg; subst; clear Hg.
    apply bind_Ok in H as (u2 & m7 & Hb & H).
    unfold set_buckets in Hb. inversion Hb; subst; clear Hb.
    apply bind_Ok in H as (u3 & m8 & Hz & H).
    unfold set_size in Hz. inversion Hz; subst; clear Hz. simpl in H.
    eapply (migrate_inv consistent); [| |exact H].
    + intros k v m0 r m0' Hc0 Hput. eapply IHput; eassumption.
    + split.
      * unfold size_ok. simpl. unfold fresh_buckets.
        rewrite count_live_replicate. reflexivity.
      * unfold shape_ok. simpl. unfold fresh_buckets.
        apply length_replicate.
Qed.

Lemma reachable_consistent (m : HashMap V) :
  reachable hash_function m -> consistent m.
Proof.
  induction 1 as [fuel capacity m H
                 |fuel k v m tr m' _ IH H
                 |fuel k m r m' _ IH H
                 |fuel k m r m' _ IH H
                 |fuel k m tr m' _ IH H
                 |fuel nc m n m' _ IH H
                 |m m' _ IH H].
  - unfold HashMap_init in H.
    destruct (_next_prime fuel capacity) as [c| |]; try discriminate.
    simpl in H. inversion H; subst; clear H. split.
    + unfold size_ok. simpl. unfold fresh_buckets.
      rewrite count_live_replicate. reflexivity.
    + unfold shape_ok. simpl. apply length_replicate.
  - eapply (proj1 (put_resize_consistent fuel)); eassumption.
  - apply get_frame in H as ->. exact IH.
  - apply contains_key_frame in H as ->. exact IH.
  - unfold remove in H.
    apply bind_Ok in H as (t & m1 & Hh & H).
    apply hash_Ok in Hh as (-> & _ & _).
    destruct IH as [Hs Hsh].
    apply remove_probe_inv in H as (Hs' & Hlen & Hcap); [|exact Hs].
    split; [exact Hs'|]. unfold shape_ok in *. congruence.
  - eapply (proj2 (put_resize_consistent fuel)); eassumption.
  - munfold. inversion H; subst; clear H. split.
    + unfold size_ok. simpl. unfold fresh_buckets.
      rewrite count_live_replicate. reflexivity.
    + unfold shape_ok. simpl. apply length_replicate.
Qed.

(** *** The order in which the probe loops look at the slots *)

Lemma slot_at_next base c i :
  (slot_at base c i + ((Z.of_nat i + 1) ^ 2 - Z.of_nat i ^ 2)) mod c =
  slot_at base c (S i).
Proof.
  unfold slot_at. rewrite Zplus_mod_idemp_l. f_equal.
  rewrite Nat2Z.inj_succ. unfold Z.succ. ring.
Qed.

Lemma quadratic_slot_at k c i :
  quadratic_slot hash_function k c i = slot_at (hash_function k mod c) c i.
Proof. reflexivity. Qed.

Lemma slot_at_0 h c : slot_at (h mod c) c 0 = h mod c.
Proof.
  unfold slot_at. change (Z.of_nat 0 ^ 2) with 0.
  rewrite Z.add_0_r. apply Zmod_mod.
Qed.

Lemma put_probe_trace fuel : forall k v base i (m : HashMap V) tr m',
  put_probe fuel k v (slot_at base (_capacity m) i) (Z.of_nat i) m
    = Ok (tr, m') ->
  tr = map (slot_at base (_capacity m)) (seq i (length tr)).
Proof.
  induction fuel as [|fuel IH]; intros k v base i m tr m' H; simpl in H.
  - discriminate.
  - apply bind_Ok in H as (slot & m1 & Hg & H).
    apply bucket_get_Ok in Hg as (-> & _ & _).
    assert (Hone : forall (c : M V unit) tr0 m2,
      (c ;;; s <- gets _size ;; set_size (s + 1) ;;; ret tr0) m
        = Ok (tr, m2) -> tr = tr0).
    { intros c tr0 m2 Hc. apply bind_Ok in Hc as (u & m3 & _ & Hc).
      munfold. simpl in Hc. congruence. }
    destruct slot as [entry|].
    + destruct (is_tombstone entry).
      * apply Hone in H as ->. reflexivity.
      * destruct (String.eqb (key entry) k).
        -- apply bind_Ok in H as (u & m2 & _ & H).
           unfold ret in H. inversion H; subst. reflexivity.
        -- apply bind_Ok in H as (next & m2 & Ha & H).
           apply advance_Ok in Ha as (-> & _ & ->).
           apply bind_Ok in H as (visited & m3 & Hp & H).
           unfold ret in H. inversion H; subst; clear H.
           rewrite slot_at_next in Hp.
           replace (Z.of_nat i + 1) with (Z.of_nat (S i)) in Hp by lia.
           apply IH in Hp. simpl. f_equal. exact Hp.
    + apply Hone in H as ->. reflexivity.
Qed.

Lemma get_probe_trace fuel : forall k base i (m : HashMap V) tr r m',
  get_probe fuel k (slot_at base (_capacity m) i) (Z.of_nat i) m
    = Ok ((tr, r), m') ->
  tr = map (slot_at base (_capacity m)) (seq i (length tr)).
Proof.
  induction fuel as [|fuel IH]; intros k base i m tr r m' H; simpl in H.
  - discriminate.
  - apply bind_Ok in H as (slot & m1 & Hg & H).
    apply bucket_get_Ok in Hg as (-> & _ & _).
    destruct slot as [curr|].
    + destruct (String.eqb (key curr) k && negb (is_tombstone curr)).
      * unfold ret in H. inversion H; subst. reflexivity.
      * apply bind_Ok in H as (next & m2 & Ha & H).
        apply advance_Ok in Ha as (-> & _ & ->).
        apply bind_Ok in H as ([visited r'] & m3 & Hp & H).
        unfold ret in H. inversion H; subst; clear H.
        rewrite slot_at_next in Hp.
        replace (Z.of_nat i + 1) with (Z.of_nat (S i)) in Hp by lia.
        apply IH in Hp. simpl. f_equal. exact Hp.
    + unfold ret in H. inversion H; subst. reflexivity.
Qed.

Lemma contains_probe_trace fuel : forall k base i (m : HashMap V) tr r m',
  contains_probe fuel k (slot_at base (_capacity m) i) (Z.of_nat i) m
    = Ok ((tr, r), m') ->
  tr = map (slot_at base (_capacity m)) (seq i (length tr)).
Proof.
  induction fuel as [|fuel IH]; intros k base i m tr r m' H; simpl in H.
  - discriminate.
  - apply bind_Ok in H as (slot & m1 & Hg & H).
    apply bucket_get_Ok in Hg as (-> & _ & _).
    destruct slot as [curr|].
    + destruct (String.eqb (key curr) k && negb (is_tombstone curr)).
      * unfold ret in H. inversion H; subst. reflexivity.
      * apply bind_Ok in H as (next & m2 & Ha & H).
        apply advance_Ok in Ha as (-> & _ & ->).
        apply bind_Ok in H as ([visited r'] & m3 & Hp & H).
        unfold ret in H. inversion H; subst; clear H.
        rewrite slot_at_next in Hp.
        replace (Z.of_nat i + 1) with (Z.of_nat (S i)) in Hp by lia.
        apply IH in Hp. simpl. f_equal. exact Hp.
    + unfold ret in H. inversion H; subst. reflexivity.
Qed.

Lemma remove_probe_trace fuel : forall k base i (m : HashMap V) tr m',
  remove_probe fuel k (slot_at base (_capacity m) i) (Z.of_nat i) m
    = Ok (tr, m') ->
  tr = map (slot_at base (_capacity m)) (seq i (length tr)).
Proof.
  induction fuel as [|fuel IH]; intros k base i m tr m' H; simpl in H.
  - discriminate.
  - apply bind_Ok in H as (slot & m1 & Hg & H).
    apply bucket_get_Ok in Hg as (-> & _ & _).
    destruct slot as [curr|].
    + destruct (String.eqb (key curr) k && negb (is_tombstone curr)).
      * apply bind_Ok in H as (u & m2 & _ & H).
        munfold. simpl in H. inversion H; subst. reflexivity.
      * apply bind_Ok in H as (next & m2 & Ha & H).
        apply advance_Ok in Ha as (-> & _ & ->).
        apply bind_Ok in H as (visited & m3 & Hp & H).
        unfold ret in H. inversion H; subst; clear H.
        rewrite slot_at_next in Hp.
        replace (Z.of_nat i + 1) with (Z.of_nat (S i)) in Hp by lia.
        apply IH in Hp. simpl. f_equal. exact Hp.
    + unfold ret in H. inversion H; subst. reflexivity.
Qed.

Lemma put_probe_capacity fuel : forall k v t p (m : HashMap V) tr m',
  put_probe fuel k v t p m = Ok (tr, m') -> _capacity m' = _capacity m.
Proof.
  induction fuel as [|fuel IH]; intros k v t p m tr m' H; simpl in H.
  - discriminate.
  - apply bind_Ok in H as (slot & m1 & Hg & H).
    apply bucket_get_Ok in Hg as (-> & _ & _).
    assert (Hone : forall x tr0 m2,
      (bucket_set t x ;;; s <- gets _size ;; set_size (s + 1) ;;; ret tr0) m
        = Ok (tr, m2) -> _capacity m2 = _capacity m).
    { intros x tr0 m2 Hc. apply bind_Ok in Hc as (u & m3 & Hb & Hc).
      apply bucket_set_Ok in Hb as ->.
      munfold. simpl in Hc. inversion Hc; subst. reflexivity. }
    destruct slot as [entry|].
    + destruct (is_tombstone entry).
      * apply Hone in H. exact H.
      * destruct (String.eqb (key entry) k).
        -- apply bind_Ok in H as (u & m2 & Hb & H).
           apply bucket_set_Ok in Hb as ->.
           unfold ret in H. inversion H; subst. reflexivity.
        -- apply bind_Ok in H as (next & m2 & Ha & H).
           apply advance_Ok in Ha as (-> & _ & _).
           apply bind_Ok in H as (visited & m3 & Hp & H).
           unfold ret in H. inversion H; subst; clear H.
           eapply IH; eassumption.
    + apply Hone in H. exact H.
Qed.

(** *** Insertion below a load factor of one half *)

Lemma slot_at_range base c i : 0 < c -> 0 <= slot_at base c i < c.
Proof. intros Hc. unfold slot_at. apply Z.mod_pos_bound. exact Hc. Qed.

Lemma slot_at_distinct base c i j :
  Z.prime c -> (i < j)%nat -> Z.of_nat j <= c / 2 ->
  slot_at base c i <> slot_at base c j.
Proof.
  intros Hc Hij Hj Heq. unfold slot_at in Heq.
  pose proof (Z.prime_ge_2 c Hc) as Hc2.
  assert (Hhalf : 2 * (c / 2) <= c).
  { pose proof (Z.mul_div_le c 2 ltac:(lia)). lia. }
  assert (Hdiv : (c | (Z.of_nat j - Z.of_nat i) * (Z.of_nat j + Z.of_nat i))).
  { apply Z.mod_divide; [lia|].
    replace ((Z.of_nat j - Z.of_nat i) * (Z.of_nat j + Z.of_nat i))
      with ((base + Z.of_nat j ^ 2) - (base + Z.of_nat i ^ 2)) by ring.
    rewrite Zminus_mod, Heq, Z.sub_diag. reflexivity. }
  apply Z.divide_prime_mul in Hdiv; [|exact Hc].
  destruct Hdiv as [Hd|Hd]; apply Z.divide_pos_le in Hd; lia.
Qed.

Lemma live_indices_length (b : list (option (HashEntry V))) : forall off,
  Z.of_nat (length (live_indices off b)) = count_live b.
Proof.
  induction b as [|slot b IH]; intros off; simpl; [reflexivity|].
  rewrite length_app, Nat2Z.inj_add, IH. destruct (live slot); simpl; lia.
Qed.

Lemma live_indices_In (b : list (option (HashEntry V))) : forall off i slot,
  b !! i = Some slot -> live slot = true ->
  In (off + i)%nat (live_indices off b).
Proof.
  induction b as [|s b IH]; intros off i slot Hl Hlive.
  - destruct i; discriminate.
  - simpl. apply in_or_app. destruct i as [|i]; simpl in Hl.
    + inversion Hl; subst. rewrite Hlive. left. left. lia.
    + right. replace (off + S i)%nat with (S off + i)%nat by lia.
      eapply IH; eassumption.
Qed.

Lemma blocked_live k (slot : option (HashEntry V)) :
  blocked k slot = true -> live slot = true.
Proof.
  destruct slot as [entry|]; simpl; [|discriminate].
  intros H. apply andb_true_iff in H as [H _]. exact H.
Qed.

Lemma first_free (f : nat -> bool) n :
  (exists j, (j < n)%nat /\ f j = false) \/
  (forall j, (j < n)%nat -> f j = true).
Proof.
  induction n as [|n [(j & Hj & Hf)|Hall]].
  - right. intros j Hj. lia.
  - left. exists j. split; [lia|exact Hf].
  - destruct (f n) eqn:Hn.
    + right. intros j Hj. destruct (Nat.eq_dec j n) as [->|]; [exact Hn|].
      apply Hall. lia.
    + left. exists n. split; [lia|exact Hn].
Qed.

(** Under a load factor below one half, the first [capacity / 2 + 1]
    probes of any key meet a slot that does not block [put]. *)
Lemma free_slot_exists (m : HashMap V) k base :
  consistent m -> Z.prime (_capacity m) -> 2 * _size m < _capacity m ->
  exists j, Z.of_nat j <= _capacity m / 2 /\ blocked_at m k base j = false.
Proof.
  intros [Hs Hsh] Hc Hload.
  pose proof (Z.prime_ge_2 _ Hc) as Hc2.
  set (c := _capacity m) in *.
  set (n := S (Z.to_nat (c / 2))).
  assert (Hhalf : 0 <= c / 2) by (apply Z.div_pos; lia).
  destruct (first_free (blocked_at m k base) n) as [(j & Hj & Hf)|Hall].
  - exists j. split; [lia|exact Hf].
  - exfalso.
    set (idx := map (fun i => Z.to_nat (slot_at base c i)) (seq 0 n)).
    assert (Hnd : NoDup idx).
    { apply NoDup_fmap_2_strong; [|apply NoDup_seq].
      intros i j Hi Hj Heq.
      apply elem_of_seq in Hi. apply elem_of_seq in Hj.
      pose proof (slot_at_range base c i ltac:(lia)).
      pose proof (slot_at_range base c j ltac:(lia)).
      assert (Heq' : slot_at base c i = slot_at base c j) by lia.
      destruct (Nat.lt_total i j) as [Hlt|[He|Hlt]]; [|exact He|].
      - exfalso. apply (slot_at_distinct base c i j Hc Hlt); [lia|exact Heq'].
      - exfalso. apply (slot_at_distinct base c j i Hc Hlt); [lia|].
        symmetry. exact Heq'. }
    assert (Hincl : incl idx (live_indices 0 (_buckets m))).
    { intros x Hx. apply in_map_iff in Hx as (i & <- & Hi).
      apply in_seq in Hi. specialize (Hall i ltac:(lia)).
      unfold blocked_at in Hall. fold c in Hall.
      destruct (_buckets m !! Z.to_nat (slot_at base c i)) as [slot|] eqn:Hl;
        [|discriminate].
      apply blocked_live in Hall.
      apply (live_indices_In _ 0%nat _ slot Hl Hall). }
    apply NoDup_ListNoDup in Hnd.
    pose proof (NoDup_incl_length Hnd Hincl) as Hlen.
    unfold idx in Hlen. rewrite length_map, length_seq in Hlen.
    pose proof (live_indices_length (_buckets m) 0) as Hcount.
    unfold size_ok in Hs.
    assert (Hdiv : c < 2 * (c / 2) + 2).
    { pose proof (Z.mod_pos_bound c 2 ltac:(lia)).
      pose proof (Z.div_mod c 2 ltac:(lia)). lia. }
    subst n. lia.
Qed.

Lemma bind_run {A B} (c : M V A) (k : A -> M V B) m a m1 :
  c m = Ok (a, m1) -> bind c k m = k a m1.
Proof. intros H. unfold bind. rewrite H. reflexivity. Qed.

Lemma bucket_get_in_range (m : HashMap V) t :
  shape_ok m -> 0 <= t < _capacity m ->
  exists slot, bucket_get t m = Ok (slot, m) /\
               _buckets m !! Z.to_nat t = Some slot.
Proof.
  intros Hsh Ht. unfold shape_ok in Hsh.
  destruct (lookup_lt_is_Some_2 (_buckets m) (Z.to_nat t)) as [slot Hl];
    [lia|].
  exists slot. split; [|exact Hl].
  munfold. unfold da_get.
  destruct (t <? 0) eqn:E; [apply Z.ltb_lt in E; lia|].
  rewrite Hl. reflexivity.
Qed.

Lemma bucket_set_in_range (m : HashMap V) t x :
  shape_ok m -> 0 <= t < _capacity m ->
  bucket_set t x m =
  Ok (tt, mkHashMap (<[Z.to_nat t := x]> (_buckets m))
            (_capacity m) (_size m)).
Proof.
  intros Hsh Ht. unfold shape_ok in Hsh. munfold. unfold da_set.
  destruct ((t <? 0) || (Z.of_nat (length (_buckets m)) <=? t)) eqn:E.
  - apply orb_true_iff in E as [E|E];
      [apply Z.ltb_lt in E | apply Z.leb_le in E]; lia.
  - reflexivity.
Qed.

Lemma advance_run (m : HashMap V) t p :
  _capacity m <> 0 ->
  advance t p m = Ok ((t + ((p + 1) ^ 2 - p ^ 2)) mod _capacity m, m).
Proof.
  intros Hc. munfold. unfold py_mod.
  destruct (_capacity m =? 0) eqn:E; [apply Z.eqb_eq in E; lia|].
  reflexivity.
Qed.

Lemma hash_run (m : HashMap V) k :
  _capacity m <> 0 ->
  _hash hash_function k m = Ok (hash_function k mod _capacity m, m).
Proof.
  intros Hc. munfold. unfold py_mod.
  destruct (_capacity m =? 0) eqn:E; [apply Z.eqb_eq in E; lia|].
  reflexivity.
Qed.

(** The probe loop of [put] returns once a slot of its probe sequence does
    not block it. *)
Lemma put_probe_returns fuel : forall k v base i j (m : HashMap V),
  shape_ok m -> 0 < _capacity m ->
  (i <= j)%nat -> (j - i < fuel)%nat ->
  blocked_at m k base j = false ->
  exists tr m',
    put_probe fuel k v (slot_at base (_capacity m) i) (Z.of_nat i) m
      = Ok (tr, m').
Proof.
  induction fuel as [|fuel IH]; intros k v base i j m Hsh Hc Hij Hfuel Hj.
  - lia.
  - simpl.
    pose proof (slot_at_range base (_capacity m) i Hc) as Hr.
    destruct (bucket_get_in_range m _ Hsh Hr) as (slot & Hget & Hl).
    rewrite (bind_run _ _ _ _ _ Hget).
    assert (Hins : forall tr0 : list Z, exists (tr : list Z) m',
      (bucket_set (slot_at base (_capacity m) i) (Some (new_HashEntry k v)) ;;;
       s <- gets _size ;; set_size (s + 1) ;;; ret tr0) m = Ok (tr, m')).
    { intros tr0.
      rewrite (bind_run _ _ _ _ _ (bucket_set_in_range m _ _ Hsh Hr)).
      munfold. simpl. eauto. }
    destruct slot as [entry|]; [|apply Hins].
    destruct (is_tombstone entry) eqn:Hts; [apply Hins|].
    destruct (String.eqb (key entry) k) eqn:Hk.
    + rewrite (bind_run _ _ _ _ _ (bucket_set_in_range m _ _ Hsh Hr)).
      unfold ret. eauto.
    + assert (Hne : i <> j).
      { intros ->. unfold blocked_at in Hj. rewrite Hl in Hj.
        simpl in Hj. rewrite Hts, Hk in Hj. discriminate. }
      rewrite (bind_run _ _ _ _ _ (advance_run m _ _ ltac:(lia))).
      rewrite slot_at_next.
      replace (Z.of_nat i + 1) with (Z.of_nat (S i)) by lia.
      destruct (IH k v base (S i) j m Hsh Hc ltac:(lia) ltac:(lia) Hj)
        as (tr & m' & Hp).
      rewrite (bind_run _ _ _ _ _ Hp). unfold ret. eauto.
Qed.

Lemma table_load_run (m : HashMap V) :
  0 < _capacity m ->
  exists load, table_load m = Ok (load, m) /\
    Qle_bool (1 # 2) load = (_capacity m <=? 2 * _size m).
Proof.
  intros Hc. unfold table_load. munfold.
  destruct (_capacity m =? 0) eqn:E; [apply Z.eqb_eq in E; lia|].
  eexists. split; [reflexivity|].
  destruct (_capacity m) as [|p|p]; try lia.
  unfold Qle_bool, Qdiv, Qmult, Qinv, inject_Z. simpl.
  apply eq_iff_eq_true. rewrite !Z.leb_le. lia.
Qed.

(** [put] below a load factor of one half: no resize, and the probe loop
    returns. *)
Lemma put_below_half fuel k v (m : HashMap V) :
  consistent m -> Z.prime (_capacity m) -> 2 * _size m < _capacity m ->
  (Z.to_nat (_capacity m / 2) + 1 < fuel)%nat ->
  exists tr m',
    put hash_function fuel k v m = Ok ((0%nat, tr), m') /\
    consistent m' /\ _capacity m' = _capacity m /\
    _size m <= _size m' <= _size m + 1.
Proof.
  intros Hcons Hc Hload Hfuel.
  pose proof (Z.prime_ge_2 _ Hc) as Hc2.
  destruct fuel as [|fuel]; [lia|]. simpl.
  destruct (table_load_run m ltac:(lia)) as (load & Hl & Hcmp).
  rewrite (bind_run _ _ _ _ _ Hl), Hcmp.
  assert (E : (_capacity m <=? 2 * _size m) = false) by (apply Z.leb_gt; lia).
  rewrite E. unfold ret at 1. unfold bind at 1.
  rewrite (bind_run _ _ _ _ _ (hash_run m k ltac:(lia))).
  destruct (free_slot_exists m k (hash_function k mod _capacity m)
              Hcons Hc Hload) as (j & Hj & Hfree).
  destruct Hcons as [Hs Hsh].
  destruct (put_probe_returns fuel k v (hash_function k mod _capacity m)
              0 j m Hsh ltac:(lia) ltac:(lia) ltac:(lia) Hfree)
    as (tr & m' & Hp).
  rewrite slot_at_0 in Hp. change (Z.of_nat 0) with 0 in Hp.
  rewrite (bind_run _ _ _ _ _ Hp). unfold ret.
  exists tr, m'. split; [reflexivity|].
  destruct (put_probe_inv _ _ _ _ _ _ _ _ Hp Hs) as (Hs' & Hlen & Hcap & Hsz).
  split; [|split; [exact Hcap|exact Hsz]].
  split; [exact Hs'|]. unfold shape_ok in *. congruence.
Qed.

Lemma da_get_in_range {A} (da : list A) index :
  0 <= index < Z.of_nat (length da) ->
  exists x, da_get da index = Ok x /\ da !! Z.to_nat index = Some x.
Proof.
  intros Hi. unfold da_get.
  destruct (index <? 0) eqn:E; [apply Z.ltb_lt in E; lia|].
  destruct (lookup_lt_is_Some_2 da (Z.to_nat index)) as [x Hl]; [lia|].
  rewrite Hl. eauto.
Qed.

Lemma count_live_at_nonneg (b : list (option (HashEntry V))) l :
  0 <= count_live_at b l.
Proof.
  induction l as [|i l IH]; simpl; [lia|]. destruct (live_at b i); lia.
Qed.

Lemma count_live_at_range (b : list (option (HashEntry V))) : forall pre,
  count_live_at (pre ++ b)
    (map Z.of_nat (seq (length pre) (length b))) = count_live b.
Proof.
  induction b as [|slot b IH]; intros pre; simpl; [reflexivity|].
  unfold live_at at 1. rewrite Nat2Z.id, list_lookup_middle by reflexivity.
  f_equal.
  specialize (IH (pre ++ [slot])).
  rewrite <- app_assoc, length_app in IH. simpl in IH.
  rewrite Nat.add_1_r in IH. exact IH.
Qed.

(** The migration loop, while the load factor stays below one half: no
    re-insertion sets off a resize. *)
Lemma migrate_below_half fuel old c : forall l (m : HashMap V),
  Z.prime c -> (Z.to_nat (c / 2) + 1 < fuel)%nat ->
  Forall (fun index => 0 <= index < Z.of_nat (length old)) l ->
  consistent m -> _capacity m = c ->
  2 * (_size m + count_live_at old l) < c + 2 ->
  exists m',
    migrate (put hash_function fuel) old l m = Ok (0%nat, m') /\
    consistent m' /\ _capacity m' = c /\
    _size m' <= _size m + count_live_at old l.
Proof.
  intros l m Hc Hfuel. revert m.
  induction l as [|index l IH]; intros m Hl Hcons Hcap Hload; simpl.
  - exists m. unfold ret. repeat split; [apply Hcons..|exact Hcap|lia].
  - inversion Hl as [|? ? Hi Hl']; subst.
    destruct (da_get_in_range old index Hi) as (curr & Hg & Hlook).
    rewrite Hg. unfold lift at 1. unfold bind at 1.
    simpl in Hload. unfold live_at in Hload |- *.
    rewrite Hlook in Hload |- *.
    pose proof (count_live_at_nonneg old l) as Hnn.
    assert (Hskip : live curr = false ->
      exists m',
        (n' <- migrate (put hash_function fuel) old l ;; ret (0 + n')%nat) m
          = Ok (0%nat, m') /\ consistent m' /\ _capacity m' = _capacity m /\
        _size m' <= _size m + ((if live curr then 1 else 0)
                               + count_live_at old l)).
    { intros Hlive. rewrite Hlive in Hload |- *.
      destruct (IH m Hl' Hcons eq_refl ltac:(lia))
        as (m' & Hm & Hc' & Hcap' & Hsz').
      exists m'. rewrite (bind_run _ _ _ _ _ Hm). unfold ret.
      repeat split; [apply Hc'..|exact Hcap'|lia]. }
    destruct curr as [entry|].
    + destruct (is_tombstone entry) eqn:Hts; simpl.
      * unfold ret at 1. unfold bind at 1.
        replace 0 with (if live (Some entry) then 1 else 0) at 3
          by (simpl; rewrite Hts; reflexivity).
        apply Hskip. simpl. rewrite Hts. reflexivity.
      * simpl in Hload. rewrite Hts in Hload. simpl in Hload.
        destruct (put_below_half fuel (key entry) (value entry)
                    m Hcons Hc ltac:(lia) Hfuel)
          as (tr & m1 & Hput & Hcons1 & Hcap1 & Hsz1).
        rewrite (bind_run _ _ _ _ _ (bind_run _ _ _ _ _ Hput)).
        unfold ret at 1. simpl.
        destruct (IH m1 Hl' Hcons1 Hcap1 ltac:(lia))
          as (m' & Hm & Hc' & Hcap' & Hsz').
        exists m'. rewrite (bind_run _ _ _ _ _ Hm). unfold ret.
        rewrite Hcap', Hts. simpl. repeat split; [apply Hc'..|lia].
    + unfold ret at 1. unfold bind at 1. apply Hskip. reflexivity.
Qed.

Lemma range_in_bounds (b : list (option (HashEntry V))) c :
  length b = Z.to_nat c ->
  Forall (fun index => 0 <= index < Z.of_nat (length b)) (range c).
Proof.
  intros Hlen. apply List.Forall_forall. intros x Hx.
  unfold range in Hx. apply in_map_iff in Hx as (i & <- & Hi).
  apply in_seq in Hi. lia.
Qed.

Lemma count_live_at_all (b : list (option (HashEntry V))) c :
  length b = Z.to_nat c -> count_live_at b (range c) = count_live b.
Proof.
  intros Hlen. unfold range. rewrite <- Hlen.
  exact (count_live_at_range b []).
Qed.

(** [resize_table] when the new table stays below a load factor of one
    half during the migration. *)
Lemma resize_table_below_half (m : HashMap V) nc c :
  consistent m -> 2 <= nc -> _size m <= nc ->
  Z.prime c -> nc <= c -> (forall r, Z.prime r -> nc <= r -> c <= r) ->
  2 * (_size m - 1) < c ->
  exists fuel0, forall fuel, (fuel0 <= fuel)%nat ->
    exists m', resize_table hash_function fuel nc m = Ok (0%nat, m') /\
               _capacity m' = c /\ consistent m' /\ _size m' <= _size m.
Proof.
  intros Hcons Hnc Hsize Hc Hle Hmin Hload.
  destruct (next_prime_spec nc ltac:(lia))
    as (p & Hp & Hnp & Hp3 & Hpmin & fnp & Hrun).
  exists (S (Nat.max (Nat.max (Z.to_nat nc + 1) fnp) (Z.to_nat (c / 2) + 2))).
  intros [|fuel] Hfuel; [lia|].
  cbn [resize_table].
  unfold bind at 1, gets at 1.
  assert (E : (nc <? _size m) = false) by (apply Z.ltb_ge; lia).
  rewrite E.
  unfold bind at 1, gets at 1. unfold bind at 1, gets at 1.
  destruct (is_prime_spec fuel nc ltac:(lia) ltac:(lia)) as (b & Hb & Hiff).
  rewrite Hb. unfold bind at 1, lift at 1.
  assert (Hset : exists m1,
    (if negb b
     then c0 <- lift (_next_prime fuel nc) ;; set_capacity c0
     else set_capacity nc) m = Ok (tt, m1) /\
    m1 = mkHashMap (_buckets m) c (_size m)).
  { destruct b; simpl.
    - assert (c = nc).
      { pose proof (Hmin nc (proj1 Hiff eq_refl) ltac:(lia)). lia. }
      subst c. unfold set_capacity. eauto.
    - assert (Hnot : ~ Z.prime nc).
      { intros H. apply Hiff in H. discriminate. }
      assert (c = p).
      { assert (3 <= c).
        { destruct (Z.eq_dec c 2) as [->|]; [|pose proof (Z.prime_ge_2 c Hc); lia].
          assert (nc = 2) by lia. subst nc. contradiction. }
        pose proof (Hpmin c Hc Hle ltac:(lia)).
        pose proof (Hmin p Hp Hnp). lia. }
      subst c. rewrite (Hrun fuel ltac:(lia)).
      unfold bind, lift, set_capacity. eauto. }
  destruct Hset as (m1 & Hset & ->).
  rewrite (bind_run _ _ _ _ _ Hset).
  unfold bind at 1, gets at 1. cbn [_capacity].
  unfold bind at 1, set_buckets at 1. cbn [_capacity _size].
  unfold bind at 1, set_size at 1. cbn [_buckets _capacity].
  destruct Hcons as [Hs Hsh]. unfold size_ok in Hs. unfold shape_ok in Hsh.
  destruct (migrate_below_half fuel (_buckets m) c (range (_capacity m))
              (mkHashMap (fresh_buckets c) c 0) Hc ltac:(lia)
              (range_in_bounds _ _ Hsh))
    as (m' & Hm & Hcons' & Hcap' & Hsz').
  - split.
    + unfold size_ok. simpl. unfold fresh_buckets.
      rewrite count_live_replicate. reflexivity.
    + unfold shape_ok. simpl. apply length_replicate.
  - reflexivity.
  - cbn [_size]. rewrite (count_live_at_all _ _ Hsh). lia.
  - exists m'. cbn [_size] in Hsz'.
    rewrite (count_live_at_all _ _ Hsh) in Hsz'.
    repeat split; [exact Hm|exact Hcap'|apply Hcons'..|lia].
Qed.

(** *** Round trip: [put] then [get] *)

Lemma count_live_le_length (b : list (option (HashEntry V))) :
  count_live b <= Z.of_nat (length b).
Proof.
  induction b as [|slot b IH]; simpl; [lia|].
  destruct (live slot); lia.
Qed.

Lemma count_live_pos (b : list (option (HashEntry V))) : forall i slot,
  b !! i = Some slot -> live slot = true -> 1 <= count_live b.
Proof.
  induction b as [|s b IH]; intros i slot Hl Hlive.
  - destruct i; discriminate.
  - simpl. destruct i as [|i]; simpl in Hl.
    + inversion Hl; subst. rewrite Hlive.
      pose proof (count_live_nonneg b). lia.
    + pose proof (IH i slot Hl Hlive). destruct (live s); lia.
Qed.

(** Where the probe loop of [put] stops: at the first slot of the probe
    sequence that does not block it, which then holds the key with the new
    value. *)
Lemma put_probe_spec fuel : forall k v base i (m : HashMap V) tr m',
  put_probe fuel k v (slot_at base (_capacity m) i) (Z.of_nat i) m
    = Ok (tr, m') ->
  exists j e,
    (i <= j)%nat /\ (j - i < fuel)%nat /\
    (forall i', (i <= i' < j)%nat -> blocked_at m k base i' = true) /\
    blocked_at m k base j = false /\
    (Z.to_nat (slot_at base (_capacity m) j) < length (_buckets m))%nat /\
    _buckets m' =
      <[Z.to_nat (slot_at base (_capacity m) j) := Some e]> (_buckets m) /\
    _capacity m' = _capacity m /\
    String.eqb (key e) k = true /\ value e = v /\ is_tombstone e = false.
Proof.
  induction fuel as [|fuel IH]; intros k v base i m tr m' H; simpl in H.
  - discriminate.
  - apply bind_Ok in H as (slot & m1 & Hg & H).
    apply bucket_get_Ok in Hg as (-> & Ht & Hl).
    pose proof (lookup_lt_Some _ _ _ Hl) as Hlt.
    assert (Hins : forall m2 u tr0 m3,
      bucket_set (slot_at base (_capacity m) i) (Some (new_HashEntry k v)) m
        = Ok (u, m2) ->
      (s <- gets _size ;; set_size (s + 1) ;;; ret tr0) m2 = Ok (tr, m3) ->
      _buckets m3 = <[Z.to_nat (slot_at base (_capacity m) i)
                       := Some (new_HashEntry k v)]> (_buckets m) /\
      _capacity m3 = _capacity m).
    { intros m2 u tr0 m3 Hb H3. apply bucket_set_Ok in Hb as ->.
      munfold. simpl in H3. inversion H3; subst. auto. }
    assert (Hstop : blocked k slot = false ->
      forall e,
      _buckets m' = <[Z.to_nat (slot_at base (_capacity m) i) := Some e]>
                      (_buckets m) /\ _capacity m' = _capacity m ->
      String.eqb (key e) k = true -> value e = v -> is_tombstone e = false ->
      exists j e,
        (i <= j)%nat /\ (j - i < S fuel)%nat /\
        (forall i', (i <= i' < j)%nat -> blocked_at m k base i' = true) /\
        blocked_at m k base j = false /\
        (Z.to_nat (slot_at base (_capacity m) j) < length (_buckets m))%nat /\
        _buckets m' =
          <[Z.to_nat (slot_at base (_capacity m) j) := Some e]> (_buckets m) /\
        _capacity m' = _capacity m /\
        String.eqb (key e) k = true /\ value e = v /\ is_tombstone e = false).
    { intros Hfree e [Hb Hc] Hk Hv Hts. exists i, e.
      split; [lia|]. split; [lia|]. split; [intros; lia|].
      split; [unfold blocked_at; rewrite Hl; exact Hfree|].
      repeat (split; [assumption|]). assumption. }
    destruct slot as [entry|].
    + destruct (is_tombstone entry) eqn:Hts.
      * apply bind_Ok in H as (u & m2 & Hb & H).
        apply (Hstop ltac:(simpl; rewrite Hts; reflexivity)
                 (new_HashEntry k v) (Hins _ _ _ _ Hb H));
          [apply String.eqb_refl | reflexivity | reflexivity].
      * destruct (String.eqb (key entry) k) eqn:Hk.
        -- apply bind_Ok in H as (u & m2 & Hb & H).
           apply bucket_set_Ok in Hb as ->.
           unfold ret in H. inversion H; subst; clear H.
           eapply Hstop;
             [simpl; rewrite Hts, Hk; reflexivity | split; reflexivity
             | exact Hk | reflexivity | reflexivity].
        -- apply bind_Ok in H as (next & m2 & Ha & H).
           apply advance_Ok in Ha as (-> & _ & ->).
           apply bind_Ok in H as (visited & m3 & Hp & H).
           unfold ret in H. inversion H; subst; clear H.
           rewrite slot_at_next in Hp.
           replace (Z.of_nat i + 1) with (Z.of_nat (S i)) in Hp by lia.
           apply IH in Hp as (j & e & Hij & Hfuel & Hblocked & Hrest).
           exists j, e. split; [lia|]. split; [lia|]. split; [|exact Hrest].
           intros i' Hi'. destruct (Nat.eq_dec i' i) as [->|Hne].
           ++ unfold blocked_at. rewrite Hl. simpl. rewrite Hts, Hk.
              reflexivity.
           ++ apply Hblocked. lia.
    + apply bind_Ok in H as (u & m2 & Hb & H).
      apply (Hstop eq_refl (new_HashEntry k v) (Hins _ _ _ _ Hb H));
        [apply String.eqb_refl | reflexivity | reflexivity].
Qed.

(** The probe loop of [get] walks over entries that are tombstones or
    have another key and returns the value of the first live entry with
    the key. *)
Lemma get_probe_finds fuel : forall k base i j (m : HashMap V) e,
  0 < _capacity m -> (i <= j)%nat -> (j - i < fuel)%nat ->
  (forall i', (i <= i' < j)%nat -> exists curr,
     _buckets m !! Z.to_nat (slot_at base (_capacity m) i')
       = Some (Some curr) /\
     String.eqb (key curr) k && negb (is_tombstone curr) = false) ->
  _buckets m !! Z.to_nat (slot_at base (_capacity m) j) = Some (Some e) ->
  String.eqb (key e) k = true -> is_tombstone e = false ->
  exists tr,
    get_probe fuel k (slot_at base (_capacity m) i) (Z.of_nat i) m
      = Ok ((tr, Some (value e)), m).
Proof.
  induction fuel as [|fuel IH];
    intros k base i j m e Hc Hij Hfuel Hskip Hj Hk Hts; [lia|].
  simpl.
  pose proof (slot_at_range base (_capacity m) i Hc) as Hr.
  assert (Hget : forall curr,
    _buckets m !! Z.to_nat (slot_at base (_capacity m) i) = Some curr ->
    bucket_get (slot_at base (_capacity m) i) m = Ok (curr, m)).
  { intros curr Hl. munfold. unfold da_get.
    destruct (slot_at base (_capacity m) i <? 0) eqn:E;
      [apply Z.ltb_lt in E; lia|].
    rewrite Hl. reflexivity. }
  destruct (Nat.eq_dec i j) as [->|Hne].
  - rewrite (bind_run _ _ _ _ _ (Hget _ Hj)), Hk, Hts. simpl.
    unfold ret. eauto.
  - destruct (Hskip i ltac:(lia)) as (curr & Hl & Hcond).
    rewrite (bind_run _ _ _ _ _ (Hget _ Hl)), Hcond.
    rewrite (bind_run _ _ _ _ _ (advance_run m _ _ ltac:(lia))).
    rewrite slot_at_next.
    replace (Z.of_nat i + 1) with (Z.of_nat (S i)) by lia.
    destruct (IH k base (S i) j m e Hc ltac:(lia) ltac:(lia)) as (tr & Hp);
      [intros i' Hi'; apply Hskip; lia | exact Hj | exact Hk | exact Hts |].
    rewrite (bind_run _ _ _ _ _ Hp). unfold ret. simpl. eauto.
Qed.

(** After the probe loop of [put] has stored a key, [get] returns its
    value. *)
Lemma put_probe_then_get fuel k v (m : HashMap V) tr m' :
  size_ok m -> 0 < _capacity m ->
  put_probe fuel k v (hash_function k mod _capacity m) 0 m = Ok (tr, m') ->
  forall fuel', (fuel <= fuel')%nat ->
    get hash_function fuel' k m' = Ok (Some v, m').
Proof.
  intros Hs Hc Hp fuel' Hfuel.
  pose proof (put_probe_inv _ _ _ _ _ _ _ _ Hp Hs) as (Hs' & _ & _ & _).
  rewrite <- (slot_at_0 (hash_function k) (_capacity m)) in Hp.
  change 0 with (Z.of_nat 0) in Hp.
  apply put_probe_spec in Hp
    as (j & e & _ & Hj & Hblocked & Hfree & Hlt & Hb & Hcap & Hk & Hv & Hts).
  set (base := hash_function k mod _capacity m) in *.
  assert (Hlook : _buckets m' !! Z.to_nat (slot_at base (_capacity m') j)
                  = Some (Some e)).
  { rewrite Hcap, Hb. apply list_lookup_insert_eq. exact Hlt. }
  assert (Hsize : (_size m' =? 0) = false).
  { apply Z.eqb_neq. unfold size_ok in Hs'. rewrite Hs'.
    pose proof (count_live_pos _ _ _ Hlook) as Hpos.
    simpl in Hpos. rewrite Hts in Hpos. specialize (Hpos eq_refl). lia. }
  destruct (get_probe_finds fuel' k base 0 j m' e) as (tr' & Hget);
    [lia | lia | lia | | exact Hlook | exact Hk | exact Hts |].
  - intros i' Hi'. specialize (Hblocked i' ltac:(lia)).
    unfold blocked_at in Hblocked, Hfree.
    destruct (_buckets m !! Z.to_nat (slot_at base (_capacity m) i'))
      as [slot|] eqn:Hl; [|discriminate].
    destruct slot as [curr|]; [|discriminate].
    exists curr. split.
    + rewrite Hcap, Hb, list_lookup_insert_ne; [exact Hl|].
      intros Heq. rewrite Heq, Hl, Hblocked in Hfree. discriminate.
    + simpl in Hblocked. apply andb_true_iff in Hblocked as [Hlive Hkey].
      apply negb_true_iff in Hkey. rewrite Hkey. reflexivity.
  - unfold get, get_traced.
    unfold bind at 1. unfold bind at 1. unfold gets at 1. rewrite Hsize.
    rewrite (bind_run _ _ _ _ _ (hash_run m' k ltac:(lia))).
    rewrite Hcap in Hget |- *. subst base. rewrite slot_at_0 in Hget.
    change (Z.of_nat 0) with 0 in Hget.
    rewrite Hget, Hv. reflexivity.
Qed.

(** A run of [put] that returns ends with the probe loop, started on a
    consistent map. *)
Lemma put_inv fuel k v (m : HashMap V) r tr m' :
  consistent m ->
  put hash_function fuel k v m = Ok ((r, tr), m') ->
  exists fuel1 m1,
    fuel = S fuel1 /\ consistent m1 /\
    put_probe fuel1 k v (hash_function k mod _capacity m1) 0 m1
      = Ok (tr, m').
Proof.
  intros Hcons H. destruct fuel as [|fuel]; [discriminate|].
  simpl in H.
  apply bind_Ok in H as (load & m0 & Hl & H).
  assert (m0 = m) as ->.
  { munfold. break_hyp Hl; congruence. }
  apply bind_Ok in H as (n & m1 & Hr & H).
  assert (Hcons1 : consistent m1).
  { destruct (Qle_bool (1 # 2) load).
    - apply bind_Ok in Hr as (c & m2 & Hg & Hr).
      unfold gets in Hg. inversion Hg; subst; clear Hg.
      apply bind_Ok in Hr as (n' & m3 & Hr & Hn).
      unfold ret in Hn. inversion Hn; subst; clear Hn.
      eapply (proj2 (put_resize_consistent fuel)); eassumption.
    - unfold ret in Hr. congruence. }
  apply bind_Ok in H as (t & m2 & Hh & H).
  apply hash_Ok in Hh as (-> & _ & ->).
  apply bind_Ok in H as (visited & m3 & H & Hv).
  unfold ret in Hv. inversion Hv; subst; clear Hv.
  exists fuel, m1. auto.
Qed.

(** The probe loop of [put] only returns on a table that has slots. *)
Lemma put_probe_capacity_pos fuel k v t p (m : HashMap V) tr m' :
  shape_ok m -> put_probe fuel k v t p m = Ok (tr, m') -> 0 < _capacity m.
Proof.
  intros Hsh H. destruct fuel as [|fuel]; [discriminate|]. simpl in H.
  apply bind_Ok in H as (slot & m1 & Hg & _).
  apply bucket_get_Ok in Hg as (_ & _ & Hl).
  apply lookup_lt_Some in Hl. unfold shape_ok in Hsh. lia.
Qed.

Lemma put_get_returned fuel k v (m : HashMap V) r m' :
  consistent m ->
  put hash_function fuel k v m = Ok (r, m') ->
  forall fuel', (fuel <= fuel')%nat ->
    get hash_function fuel' k m' = Ok (Some v, m').
Proof.
  intros Hcons H fuel' Hfuel. destruct r as [n tr].
  apply put_inv in H as (fuel1 & m1 & -> & [Hs Hsh] & Hp); [|exact Hcons].
  pose proof (put_probe_capacity_pos _ _ _ _ _ _ _ _ Hsh Hp) as Hc.
  apply (put_probe_then_get fuel1 k v m1 tr m' Hs Hc Hp). lia.
Qed.

Lemma even_not_prime c : 2 <= c -> ~ Z.prime (2 * c).
Proof.
  intros Hc [_ Hp]. apply (Hp 2); [lia|]. exists c. ring.
Qed.

(** On a consistent map of prime capacity [put] returns. *)
Lemma put_returns k v (m : HashMap V) :
  consistent m -> Z.prime (_capacity m) ->
  exists fuel0, forall fuel, (fuel0 <= fuel)%nat ->
    exists r m', put hash_function fuel k v m = Ok (r, m') /\
                 consistent m' /\ Z.prime (_capacity m').
Proof.
  intros Hcons Hc.
  pose proof (Z.prime_ge_2 _ Hc) as Hc2.
  destruct (Z_lt_le_dec (2 * _size m) (_capacity m)) as [Hlow|Hhigh].
  - exists (Z.to_nat (_capacity m / 2) + 2)%nat. intros fuel Hfuel.
    destruct (put_below_half fuel k v m Hcons Hc Hlow
                ltac:(lia)) as (tr & m' & Hput & Hcons' & Hcap & _).
    exists (0%nat, tr), m'. rewrite Hcap. auto.
  - destruct (next_prime_spec (_capacity m * 2) ltac:(lia))
      as (p & Hp & Hle & _ & Hmin & _).
    assert (Hsize : _size m <= _capacity m).
    { destruct Hcons as [Hs Hsh]. unfold size_ok in Hs.
      unfold shape_ok in Hsh.
      pose proof (count_live_le_length (_buckets m)). lia. }
    assert (Hne : p <> 2 * _capacity m).
    { intros ->. exact (even_not_prime _ Hc2 Hp). }
    destruct (resize_table_below_half m (_capacity m * 2) p
                Hcons ltac:(lia) ltac:(lia) Hp Hle) as (fuel0 & Hrun).
    { intros r Hr Hge. apply Hmin; [exact Hr|exact Hge|].
      pose proof (Z.prime_ge_2 r Hr). lia. }
    { lia. }
    exists (S (Nat.max fuel0 (Z.to_nat (p / 2) + 1))).
    intros [|fuel] Hfuel; [lia|].
    destruct (Hrun fuel ltac:(lia)) as (m1 & Hres & Hcap1 & Hcons1 & Hsz1).
    simpl.
    destruct (table_load_run m ltac:(lia)) as (load & Hl & Hcmp).
    rewrite (bind_run _ _ _ _ _ Hl), Hcmp.
    assert (E : (_capacity m <=? 2 * _size m) = true)
      by (apply Z.leb_le; lia).
    rewrite E.
    assert (Hpre :
      (c <- gets _capacity ;;
       n <- resize_table hash_function fuel (c * 2) ;; ret (S n)) m
        = Ok (1%nat, m1)).
    { unfold bind at 1, gets at 1.
      rewrite (bind_run _ _ _ _ _ Hres). reflexivity. }
    rewrite (bind_run _ _ _ _ _ Hpre).
    rewrite (bind_run _ _ _ _ _ (hash_run m1 k ltac:(lia))).
    assert (Hc1 : Z.prime (_capacity m1)) by (rewrite Hcap1; exact Hp).
    assert (Hlow1 : 2 * _size m1 < _capacity m1) by lia.
    pose proof (Z.prime_ge_2 _ Hc1) as Hc12.
    destruct (free_slot_exists m1 k (hash_function k mod _capacity m1)
                Hcons1 Hc1 Hlow1) as (j & Hj & Hfree).
    assert (Hjf : (j - 0 < fuel)%nat) by (rewrite Hcap1 in Hj; lia).
    destruct (put_probe_returns fuel k v (hash_function k mod _capacity m1)
                0 j m1 (proj2 Hcons1) ltac:(lia) ltac:(lia) Hjf Hfree)
      as (tr & m' & Hprobe).
    rewrite slot_at_0 in Hprobe. change (Z.of_nat 0) with 0 in Hprobe.
    rewrite (bind_run _ _ _ _ _ Hprobe). unfold ret.
    exists (1%nat, tr), m'. split; [reflexivity|].
    destruct Hcons1 as [Hs1 Hsh1].
    destruct (put_probe_inv _ _ _ _ _ _ _ _ Hprobe Hs1)
      as (Hs' & Hlen & Hcap & _).
    rewrite Hcap. split; [|exact Hc1].
    split; [exact Hs'|]. unfold shape_ok in *. congruence.
Qed.

(** On a reachable map of prime capacity, [put(K, v)] returns and [get(K)]
    then returns [v]. *)
Lemma put_then_get (m : HashMap V) k v :
  reachable hash_function m -> Z.prime (_capacity m) ->
  exists fuel0, forall fuel, (fuel0 <= fuel)%nat ->
    exists r m',
      put hash_function fuel k v m = Ok (r, m') /\
      get hash_function fuel k m' = Ok (Some v, m').
Proof.
  intros Hreach Hc. apply reachable_consistent in Hreach.
  destruct (put_returns k v m Hreach Hc) as (fuel0 & Hrun).
  exists fuel0. intros fuel Hfuel.
  destruct (Hrun fuel Hfuel) as (r & m' & Hput & _).
  exists r, m'. split; [exact Hput|].
  exact (put_get_returned fuel k v m r m' Hreach Hput fuel (Nat.le_refl _)).
Qed.


(** *** Lookups that never return *)

(** The probe loops of [get], [contains_key] and [remove] move on at an
    entry that is a tombstone or has another key.  When every slot of the
    probe sequence holds such an entry, they use up any amount of fuel. *)
Lemma get_probe_diverges (m : HashMap V) k base :
  0 < _capacity m ->
  (forall i, exists curr,
     _buckets m !! Z.to_nat (slot_at base (_capacity m) i) = Some (Some curr)
     /\ String.eqb (key curr) k && negb (is_tombstone curr) = false) ->
  forall fuel i,
    get_probe fuel k (slot_at base (_capacity m) i) (Z.of_nat i) m = Timeout.
Proof.
  intros Hc Hfull. induction fuel as [|fuel IH]; intros i; [reflexivity|].
  simpl. destruct (Hfull i) as (curr & Hl & Hcond).
  pose proof (slot_at_range base (_capacity m) i Hc) as Hr.
  assert (Hget : bucket_get (slot_at base (_capacity m) i) m
                 = Ok (Some curr, m)).
  { munfold. unfold da_get.
    destruct (slot_at base (_capacity m) i <? 0) eqn:E;
      [apply Z.ltb_lt in E; lia|].
    rewrite Hl. reflexivity. }
  rewrite (bind_run _ _ _ _ _ Hget), Hcond.
  rewrite (bind_run _ _ _ _ _ (advance_run m _ _ ltac:(lia))).
  rewrite slot_at_next.
  replace (Z.of_nat i + 1) with (Z.of_nat (S i)) by lia.
  unfold bind. rewrite IH. reflexivity.
Qed.

Lemma contains_probe_diverges (m : HashMap V) k base :
  0 < _capacity m ->
  (forall i, exists curr,
     _buckets m !! Z.to_nat (slot_at base (_capacity m) i) = Some (Some curr)
     /\ String.eqb (key curr) k && negb (is_tombstone curr) = false) ->
  forall fuel i,
    contains_probe fuel k (slot_at base (_capacity m) i) (Z.of_nat i) m
      = Timeout.
Proof.
  intros Hc Hfull. induction fuel as [|fuel IH]; intros i; [reflexivity|].
  simpl. destruct (Hfull i) as (curr & Hl & Hcond).
  pose proof (slot_at_range base (_capacity m) i Hc) as Hr.
  assert (Hget : bucket_get (slot_at base (_capacity m) i) m
                 = Ok (Some curr, m)).
  { munfold. unfold da_get.
    destruct (slot_at base (_capacity m) i <? 0) eqn:E;
      [apply Z.ltb_lt in E; lia|].
    rewrite Hl. reflexivity. }
  rewrite (bind_run _ _ _ _ _ Hget), Hcond.
  rewrite (bind_run _ _ _ _ _ (advance_run m _ _ ltac:(lia))).
  rewrite slot_at_next.
  replace (Z.of_nat i + 1) with (Z.of_nat (S i)) by lia.
  unfold bind. rewrite IH. reflexivity.
Qed.

Lemma remove_probe_diverges (m : HashMap V) k base :
  0 < _capacity m ->
  (forall i, exists curr,
     _buckets m !! Z.to_nat (slot_at base (_capacity m) i) = Some (Some curr)
     /\ String.eqb (key curr) k && negb (is_tombstone curr) = false) ->
  forall fuel i,
    remove_probe fuel k (slot_at base (_capacity m) i) (Z.of_nat i) m
      = Timeout.
Proof.
  intros Hc Hfull. induction fuel as [|fuel IH]; intros i; [reflexivity|].
  simpl. destruct (Hfull i) as (curr & Hl & Hcond).
  pose proof (slot_at_range base (_capacity m) i Hc) as Hr.
  assert (Hget : bucket_get (slot_at base (_capacity m) i) m
                 = Ok (Some curr, m)).
  { munfold. unfold da_get.
    destruct (slot_at base (_capacity m) i <? 0) eqn:E;
      [apply Z.ltb_lt in E; lia|].
    rewrite Hl. reflexivity. }
  rewrite (bind_run _ _ _ _ _ Hget), Hcond.
  rewrite (bind_run _ _ _ _ _ (advance_run m _ _ ltac:(lia))).
  rewrite slot_at_next.
  replace (Z.of_nat i + 1) with (Z.of_nat (S i)) by lia.
  unfold bind. rewrite IH. reflexivity.
Qed.

(** ** The properties of the specification that hold for every map *)

(** C7, as amended: for every non-negative requested capacity the
    constructor returns, and [get_capacity()] is then the smallest prime
    that is at least the requested capacity and at least 3, which for a
    request of 3 or more is the smallest prime at least the request;
    requesting capacity 10 yields capacity 11. *)
Theorem init_capacity_smallest_odd_prime (capacity : Z) :
  0 <= capacity ->
  (exists p,
     Z.prime p /\ capacity <= p /\ 3 <= p /\
     (forall r, Z.prime r -> capacity <= r -> 3 <= r -> p <= r) /\
     exists fuel0, forall fuel, (fuel0 <= fuel)%nat ->
       exists m : HashMap V,
         HashMap_init fuel capacity = Ok m /\ get_capacity m = Ok (p, m)) /\
  (exists m : HashMap V,
     HashMap_init 10 10 = Ok m /\ get_capacity m = Ok (11, m)).
Proof.
  intros Hc. split.
  - destruct (next_prime_spec capacity Hc)
      as (p & Hp & Hcp & Hp3 & Hmin & fuel0 & Hrun).
    exists p. repeat (split; [assumption|]).
    exists fuel0. intros fuel Hfuel. unfold HashMap_init.
    rewrite (Hrun fuel Hfuel). simpl. eexists. split; reflexivity.
  - eexists. split; reflexivity.
Qed.

(** C4, as amended: let [c] be [new_capacity] if it is prime and the next
    prime above it otherwise, that is the smallest prime that is at least
    [new_capacity].  On a reachable map, when [new_capacity] is at least 2
    and at least the current size and twice (size - 1) is below [c],
    [resize_table(new_capacity)] returns, none of its re-insertions sets
    off a further automatic resize, and the resulting capacity is exactly
    [c]. *)
Theorem resize_table_capacity (m : HashMap V) (new_capacity c : Z) :
  reachable hash_function m ->
  2 <= new_capacity -> _size m <= new_capacity ->
  Z.prime c -> new_capacity <= c ->
  (forall r, Z.prime r -> new_capacity <= r -> c <= r) ->
  2 * (_size m - 1) < c ->
  (Z.prime new_capacity -> c = new_capacity) /\
  (~ Z.prime new_capacity -> new_capacity < c) /\
  exists fuel0, forall fuel, (fuel0 <= fuel)%nat ->
    exists m',
      resize_table hash_function fuel new_capacity m = Ok (0%nat, m') /\
      get_capacity m' = Ok (c, m').
Proof.
  intros Hreach Hnc Hsize Hc Hle Hmin Hload.
  split; [intros Hp; pose proof (Hmin _ Hp ltac:(lia)); lia|].
  split.
  { intros Hnp. destruct (Z.eq_dec new_capacity c) as [->|]; [|lia].
    contradiction. }
  apply reachable_consistent in Hreach.
  destruct (resize_table_below_half m new_capacity c
              Hreach Hnc Hsize Hc Hle Hmin Hload) as (fuel0 & Hrun).
  exists fuel0. intros fuel Hfuel.
  destruct (Hrun fuel Hfuel) as (m' & Hres & Hcap & _ & _).
  exists m'. split; [exact Hres|].
  unfold get_capacity, gets. rewrite Hcap. reflexivity.
Qed.

(** C9: on every reachable map, that is after construction and after every
    public operation that returns, the size counter equals the number of
    table slots holding an entry that is not a tombstone, and [get_size()]
    reports that count. *)
Theorem size_counts_live_slots (m : HashMap V) :
  reachable hash_function m ->
  _size m = count_live (_buckets m) /\
  get_size m = Ok (count_live (_buckets m), m).
Proof.
  intros Hreach. apply reachable_consistent in Hreach as [Hs _].
  unfold size_ok in Hs. split; [exact Hs|].
  unfold get_size, gets. rewrite Hs. reflexivity.
Qed.

(** C10: [get], [contains_key], [get_size], [get_capacity], [table_load],
    [empty_buckets] and [get_keys_and_values] return the map they were
    called on: table, size and capacity are unchanged. *)
Theorem observers_leave_map_unchanged
    (fuel : nat) (k : string) (m : HashMap V) :
  (forall r m', get hash_function fuel k m = Ok (r, m') -> m' = m) /\
  (forall r m', contains_key hash_function fuel k m = Ok (r, m') -> m' = m) /\
  (forall r m', get_size m = Ok (r, m') -> m' = m) /\
  (forall r m', get_capacity m = Ok (r, m') -> m' = m) /\
  (forall r m', table_load m = Ok (r, m') -> m' = m) /\
  (forall r m', empty_buckets m = Ok (r, m') -> m' = m) /\
  (forall r m', get_keys_and_values m = Ok (r, m') -> m' = m).
Proof.
  repeat split.
  - intros r m'. apply get_frame.
  - intros r m'. apply contains_key_frame.
  - intros r m' H. munfold. congruence.
  - intros r m' H. munfold. congruence.
  - intros r m' H. munfold. break_hyp H; congruence.
  - intros r m' H. munfold. congruence.
  - intros r m' H. unfold get_keys_and_values in H. munfold.
    break_hyp H; congruence.
Qed.

End Facts.

(** * Further properties of the code *)

Section Properties.

Local Arguments Z.pow : simpl never.
Local Arguments Z.modulo : simpl never.
Local Arguments Z.mul : simpl never.
Local Arguments Z.add : simpl never.
Local Arguments Z.sub : simpl never.
Local Arguments Z.of_nat : simpl never.
Local Arguments Z.to_nat : simpl never.

(** ** Answers of the prime helpers, whatever the fuel *)

Lemma is_prime_loop_mono fuel : forall fuel' factor n b,
  is_prime_loop fuel factor n = Ok b -> (fuel <= fuel')%nat ->
  is_prime_loop fuel' factor n = Ok b.
Proof.
  induction fuel as [|fuel IH]; intros fuel' factor n b H Hle; simpl in H.
  - discriminate.
  - destruct fuel' as [|fuel']; [lia|]. simpl.
    destruct (factor ^ 2 <=? n); [|exact H].
    destruct (n mod factor =? 0); [exact H|].
    apply IH; [exact H|lia].
Qed.

Lemma is_prime_sound fuel n b :
  _is_prime fuel n = Ok b -> 0 <= n -> (b = true <-> Z.prime n).
Proof.
  intros H Hn.
  destruct (is_prime_spec (Nat.max fuel (S (Z.to_nat n))) n Hn ltac:(lia))
    as (b' & Hb' & Hiff).
  assert (b = b') as ->; [|exact Hiff].
  unfold _is_prime in *.
  destruct ((n =? 2) || (n =? 3)); [congruence|].
  destruct ((n =? 1) || (n mod 2 =? 0)); [congruence|].
  apply (is_prime_loop_mono _ (Nat.max fuel (S (Z.to_nat n)))) in H; [|lia].
  congruence.
Qed.

Lemma next_prime_loop_sound fuel : forall start p,
  next_prime_loop fuel start = Ok p ->
  start <= p /\ (0 <= p -> Z.prime p) /\
  (start < 0 -> start mod 2 = 1 -> p = start).
Proof.
  induction fuel as [|fuel IH]; intros start p H; simpl in H.
  - discriminate.
  - destruct (_is_prime fuel start) as [b| |] eqn:Hb; try discriminate.
    simpl in H. destruct b.
    + inversion H; subst. split; [lia|]. split; [|reflexivity].
      intros Hp. exact (proj1 (is_prime_sound _ _ _ Hb Hp) eq_refl).
    + apply IH in H as (Hle & Hp & _). split; [lia|]. split; [exact Hp|].
      intros Hneg Hodd. exfalso. unfold _is_prime in Hb.
      destruct ((start =? 2) || (start =? 3)) eqn:E; [discriminate|].
      destruct ((start =? 1) || (start mod 2 =? 0)) eqn:E1.
      * apply orb_true_iff in E1 as [E1|E1]; apply Z.eqb_eq in E1; lia.
      * destruct fuel as [|fuel']; [discriminate|]. simpl in Hb.
        assert (E2 : (3 ^ 2 <=? start) = false) by (apply Z.leb_gt; lia).
        rewrite E2 in Hb. discriminate.
Qed.

Lemma next_prime_sound fuel c p :
  _next_prime fuel c = Ok p ->
  c <= p /\ (0 <= p -> Z.prime p) /\ (c < 0 -> p < 0).
Proof.
  unfold _next_prime. intros H.
  destruct (c mod 2 =? 0) eqn:E.
  - apply Z.eqb_eq in E.
    pose proof (next_prime_loop_sound _ _ _ H) as (Hle & Hp & Hneg).
    split; [lia|]. split; [exact Hp|]. intros Hc.
    assert (c <> -1) by (intros ->; discriminate).
    rewrite Hneg; [lia|lia|].
    rewrite <- Zplus_mod_idemp_l, E. reflexivity.
  - apply Z.eqb_neq in E.
    pose proof (next_prime_loop_sound _ _ _ H) as (Hle & Hp & Hneg).
    split; [lia|]. split; [exact Hp|]. intros Hc.
    rewrite Hneg; [lia|lia|].
    pose proof (Z.mod_pos_bound c 2 ltac:(lia)). lia.
Qed.

(** X1: [_is_prime] decides primality of the numbers from 0 on; a negative
    number it calls prime exactly when it is odd; and it returns on every
    input. *)
Theorem is_prime_decides (n : Z) :
  (forall fuel b,
     _is_prime fuel n = Ok b ->
     (0 <= n -> (b = true <-> Z.prime n)) /\
     (n < 0 -> b = Z.odd n)) /\
  (forall fuel, (Z.to_nat n < fuel)%nat -> exists b, _is_prime fuel n = Ok b).
Proof.
  split; [|intros fuel Hfuel; apply is_prime_returns; exact Hfuel].
  intros fuel b H. split; [intros Hn; exact (is_prime_sound fuel n b H Hn)|].
  intros Hn. unfold _is_prime in H.
  assert (E1 : (n =? 2) || (n =? 3) = false).
  { apply orb_false_iff. split; apply Z.eqb_neq; lia. }
  rewrite E1 in H.
  assert (E2 : (n =? 1) = false) by (apply Z.eqb_neq; lia).
  rewrite E2 in H. simpl in H.
  rewrite <- Z.negb_even. rewrite (Zmod_even n) in H.
  destruct (Z.even n); simpl in H.
  - injection H as <-. reflexivity.
  - destruct fuel as [|fuel]; [discriminate|]. simpl in H.
    assert (E3 : (3 ^ 2 <=? n) = false) by (apply Z.leb_gt; lia).
    rewrite E3 in H. injection H as <-. reflexivity.
Qed.

Lemma next_prime_negative fuel c :
  c < 0 -> (2 <= fuel)%nat ->
  _next_prime fuel c = Ok (if c mod 2 =? 0 then c + 1 else c).
Proof.
  intros Hc Hfuel. unfold _next_prime.
  set (s := if c mod 2 =? 0 then c + 1 else c).
  assert (Hs : s < 0 /\ s mod 2 = 1).
  { subst s. destruct (c mod 2 =? 0) eqn:E.
    - apply Z.eqb_eq in E. split.
      + assert (c <> -1) by (intros ->; discriminate). lia.
      + rewrite <- Zplus_mod_idemp_l, E. reflexivity.
    - apply Z.eqb_neq in E.
      pose proof (Z.mod_pos_bound c 2 ltac:(lia)). lia. }
  destruct Hs as [Hneg Hodd].
  destruct fuel as [|[|fuel]]; [lia|lia|]. simpl.
  unfold _is_prime.
  assert (E1 : (s =? 2) || (s =? 3) = false).
  { apply orb_false_iff. split; apply Z.eqb_neq; lia. }
  assert (E2 : (s =? 1) || (s mod 2 =? 0) = false).
  { apply orb_false_iff. split; apply Z.eqb_neq; lia. }
  assert (E3 : (3 ^ 2 <=? s) = false) by (apply Z.leb_gt; lia).
  rewrite E1, E2. simpl. rewrite E3. reflexivity.
Qed.

(** X2: [_next_prime]: an answer is at least the request and, when it is not
    negative, prime. For a request from 0 on the method returns the smallest
    prime that is at least the request and at least 3; a negative request
    comes back as it is when odd and plus one when even. *)
Theorem next_prime_contract (c : Z) :
  (forall fuel p,
     _next_prime fuel c = Ok p ->
     c <= p /\ (0 <= p -> Z.prime p) /\ (c < 0 -> p < 0)) /\
  (0 <= c ->
   exists p,
     Z.prime p /\ c <= p /\ 3 <= p /\
     (forall r, Z.prime r -> c <= r -> 3 <= r -> p <= r) /\
     exists fuel0, forall fuel, (fuel0 <= fuel)%nat ->
       _next_prime fuel c = Ok p) /\
  (c < 0 ->
   forall fuel, (2 <= fuel)%nat ->
     _next_prime fuel c = Ok (if c mod 2 =? 0 then c + 1 else c)).
Proof.
  split; [|split].
  - intros fuel p H. exact (next_prime_sound fuel c p H).
  - intros Hc. exact (next_prime_spec c Hc).
  - intros Hc fuel Hfuel. exact (next_prime_negative fuel c Hc Hfuel).
Qed.

Section Sizing.
Context {V : Type} (hash_function : string -> Z).

(** *** What every run of [put] and [resize_table] that returns keeps *)

Lemma lift_Ok {A} (r : result A) (m : HashMap V) a m' :
  lift r m = Ok (a, m') -> r = Ok a /\ m' = m.
Proof.
  unfold lift. destruct r; intros H; inversion H; subst. auto.
Qed.

Lemma da_get_Ok {A} (da : list A) index x :
  da_get da index = Ok x -> 0 <= index /\ da !! Z.to_nat index = Some x.
Proof.
  unfold da_get. destruct (index <? 0) eqn:E; [discriminate|].
  apply Z.ltb_ge in E.
  destruct (da !! Z.to_nat index); intros H; inversion H; subst. auto.
Qed.

Lemma table_load_Ok (m : HashMap V) load m' :
  table_load m = Ok (load, m') ->
  m' = m /\ _capacity m <> 0 /\
  (0 <= _size m -> Qle_bool (1 # 2) load = true ->
   0 < _capacity m <= 2 * _size m) /\
  (0 < _capacity m -> Qle_bool (1 # 2) load = false ->
   2 * _size m < _capacity m).
Proof.
  unfold table_load. munfold. intros H.
  destruct (_capacity m =? 0) eqn:E; [discriminate|].
  apply Z.eqb_neq in E. injection H as Hq Hm. subst m' load.
  split; [reflexivity|]. split; [exact E|].
  destruct (_capacity m) as [|p|p]; [contradiction| |];
    unfold Qle_bool, Qdiv, Qmult, Qinv, inject_Z; simpl;
    rewrite ?Z.leb_le, ?Z.leb_gt; split; intros; lia.
Qed.

Lemma size_le_capacity (m : HashMap V) :
  consistent m -> 0 <= _size m /\ _size m <= Z.max 0 (_capacity m).
Proof.
  intros [Hs Hsh]. unfold size_ok in Hs. unfold shape_ok in Hsh.
  pose proof (count_live_nonneg (_buckets m)).
  pose proof (count_live_le_length (_buckets m)). lia.
Qed.

Lemma fresh_sound c :
  (0 <= c -> Z.prime c) ->
  sound (mkHashMap (fresh_buckets c) c 0 : HashMap V).
Proof.
  intros Hc. split; [|split; [exact Hc | left; reflexivity]]. split.
  - unfold size_ok. simpl. unfold fresh_buckets.
    rewrite count_live_replicate. reflexivity.
  - unfold shape_ok. simpl. apply length_replicate.
Qed.

(** The migration loop, given what [put] keeps. *)
Lemma migrate_sound put_f old c : forall l (m : HashMap V) n m',
  (forall k v m r m', sound m -> put_f k v m = Ok (r, m') ->
     sound m' /\ _capacity m <= _capacity m' /\ _size m' <= _size m + 1) ->
  sound m -> c <= _capacity m ->
  migrate put_f old l m = Ok (n, m') ->
  sound m' /\ c <= _capacity m' /\
  _size m' <= _size m + count_live_at old l.
Proof.
  induction l as [|index l IH]; intros m n m' Hput Hm Hc H; simpl in H.
  - unfold ret in H. inversion H; subst. simpl.
    split; [exact Hm|split; lia].
  - apply bind_Ok in H as (curr & m1 & Hd & H).
    apply lift_Ok in Hd as [Hd ->]. apply da_get_Ok in Hd as [_ Hl].
    apply bind_Ok in H as (n1 & m2 & H1 & H).
    apply bind_Ok in H as (n2 & m3 & H2 & H).
    unfold ret in H. inversion H; subst; clear H.
    simpl. unfold live_at. rewrite Hl.
    pose proof (count_live_at_nonneg old l) as Hnn.
    destruct curr as [entry|]; simpl.
    + destruct (is_tombstone entry) eqn:Hts; simpl in *.
      * unfold ret in H1. inversion H1; subst; clear H1.
        destruct (IH _ _ _ Hput Hm Hc H2) as (Hs & Hcap & Hsz).
        split; [exact Hs|split; lia].
      * apply bind_Ok in H1 as (r & m4 & Hp & H1).
        unfold ret in H1. inversion H1; subst; clear H1.
        destruct (Hput _ _ _ _ _ Hm Hp) as (Hs1 & Hcap1 & Hsz1).
        destruct (IH _ _ _ Hput Hs1 ltac:(lia) H2) as (Hs & Hcap & Hsz).
        split; [exact Hs|split; lia].
    + unfold ret in H1. inversion H1; subst; clear H1.
      destruct (IH _ _ _ Hput Hm Hc H2) as (Hs & Hcap & Hsz).
      split; [exact Hs|split; lia].
Qed.

Lemma put_resize_sound fuel :
  (forall k v (m : HashMap V) r m',
     sound m -> put hash_function fuel k v m = Ok (r, m') ->
     sound m' /\ _capacity m <= _capacity m' /\ 0 < _capacity m /\
     _size m' <= _size m + 1) /\
  (forall nc (m : HashMap V) n m',
     sound m -> resize_table hash_function fuel nc m = Ok (n, m') ->
     (nc < _size m /\ m' = m /\ n = 0%nat) \/
     (_size m <= nc /\ sound m' /\ nc <= _capacity m' /\
      _size m' <= _size m)).
Proof.
  induction fuel as [|fuel [IHput IHres]]; split; try (intros; discriminate).
  - intros k v m r m' Hm H. simpl in H.
    destruct Hm as (Hcons & Hprime & Hload).
    pose proof (size_le_capacity m Hcons) as [Hs0 Hsc].
    apply bind_Ok in H as (load & m0 & Hl & H).
    apply table_load_Ok in Hl as (-> & Hc0 & Hhigh & Hlow).
    apply bind_Ok in H as (n & m1 & Hr & H).
    apply bind_Ok in H as (t & m2 & Hh & H).
    apply hash_Ok in Hh as (-> & _ & ->).
    apply bind_Ok in H as (visited & m3 & H & Hv).
    unfold ret in Hv. inversion Hv; subst; clear Hv.
    assert (Hpre : sound m1 /\ _capacity m <= _capacity m1 /\
                   0 < _capacity m /\ _size m1 <= _size m /\
                   2 * _size m1 < _capacity m1).
    { destruct (Qle_bool (1 # 2) load) eqn:Hq.
      - destruct (Hhigh Hs0 eq_refl) as [Hpos Hfull].
        apply bind_Ok in Hr as (c & m4 & Hg & Hr).
        unfold gets in Hg. injection Hg as <- <-.
        apply bind_Ok in Hr as (n' & m5 & Hr & Hn).
        unfold ret in Hn. injection Hn as <- ->.
        destruct (IHres _ _ _ _ (conj Hcons (conj Hprime Hload)) Hr)
          as [(Hlt & _)|(_ & Hs1 & Hcap1 & Hsz1)]; [lia|].
        split; [exact Hs1|]. split; [lia|]. split; [lia|]. split; [lia|].
        destruct Hs1 as (_ & Hprime1 & _).
        pose proof (Z.prime_ge_2 _ (Hprime ltac:(lia))) as Hc2.
        assert (_capacity m1 <> 2 * _capacity m).
        { intros Heq. apply (even_not_prime _ Hc2). rewrite <- Heq.
          apply Hprime1. lia. }
        lia.
      - unfold ret in Hr. inversion Hr; subst; clear Hr.
        pose proof (put_probe_capacity_pos _ _ _ _ _ _ _ _
                      (proj2 Hcons) H) as Hpos.
        split; [exact (conj Hcons (conj Hprime Hload))|].
        split; [lia|]. split; [lia|]. split; [lia|].
        apply Hlow; [exact Hpos|reflexivity]. }
    destruct Hpre as ((Hcons1 & Hprime1 & _) & Hcap1 & Hpos & Hsz1 & Hlow1).
    destruct Hcons1 as [Hsok1 Hsh1].
    destruct (put_probe_inv _ _ _ _ _ _ _ _ H Hsok1)
      as (Hsok' & Hlen & Hcap & Hsz).
    split; [|repeat split; lia].
    split; [split; [exact Hsok'|unfold shape_ok in *; congruence]|].
    split; [rewrite Hcap; exact Hprime1|]. right. lia.
  - intros nc m n m' Hm H. simpl in H.
    destruct Hm as (Hcons & Hprime & Hload).
    pose proof (size_le_capacity m Hcons) as [Hs0 Hsc].
    apply bind_Ok in H as (s & m0 & Hg & H).
    unfold gets in Hg. inversion Hg; subst; clear Hg.
    destruct (nc <? _size m0) eqn:Hlt.
    { apply Z.ltb_lt in Hlt. unfold ret in H. inversion H; subst. auto. }
    apply Z.ltb_ge in Hlt. right. split; [exact Hlt|].
    apply bind_Ok in H as (old_map & m2 & Hg & H).
    unfold gets in Hg. inversion Hg; subst; clear Hg.
    apply bind_Ok in H as (old_capacity & m3 & Hg & H).
    unfold gets in Hg. inversion Hg; subst; clear Hg.
    apply bind_Ok in H as (p & m4 & Hp & H).
    apply lift_Ok in Hp as [Hip ->].
    apply bind_Ok in H as (u1 & m5 & Hcap & H).
    assert (Hnew : exists c, m5 = mkHashMap (_buckets m3) c (_size m3) /\
                             nc <= c /\ (0 <= c -> Z.prime c)).
    { destruct p; simpl in Hcap.
      - unfold set_capacity in Hcap. inversion Hcap; subst.
        exists nc. split; [reflexivity|]. split; [lia|]. intros _.
        exact (proj1 (is_prime_sound _ _ _ Hip ltac:(lia)) eq_refl).
      - apply bind_Ok in Hcap as (c & m6 & Hn & Hcap).
        apply lift_Ok in Hn as [Hnp ->].
        unfold set_capacity in Hcap. inversion Hcap; subst.
        exists c. split; [reflexivity|].
        destruct (next_prime_sound _ _ _ Hnp) as (Hle & Hpc & _). auto. }
    destruct Hnew as (c & -> & Hle & Hpc).
    apply bind_Ok in H as (c' & m6 & Hg & H).
    unfold gets in Hg. simpl in Hg. injection Hg as <- <-.
    apply bind_Ok in H as (u2 & m7 & Hb & H).
    unfold set_buckets in Hb. injection Hb as <- <-.
    apply bind_Ok in H as (u3 & m8 & Hz & H).
    unfold set_size in Hz. injection Hz as <- <-. simpl in H.
    destruct (migrate_sound _ _ c _ _ _ _
                (fun k v m r m' Hs Hp =>
                   match IHput k v m r m' Hs Hp with
                   | conj a (conj b (conj _ d)) => conj a (conj b d)
                   end)
                (fresh_sound c Hpc) ltac:(simpl; lia) H)
      as (Hs' & Hcap' & Hsz').
    split; [exact Hs'|]. split; [lia|].
    simpl in Hsz'. destruct Hcons as [Hsok Hsh].
    rewrite (count_live_at_all _ _ Hsh) in Hsz'.
    unfold size_ok in Hsok. lia.
Qed.
End Sizing.

Section Invariants.
Context {V : Type} (hash_function : string -> Z).

(** What a run of the probe loop of [remove] does: nothing, or it turns
    one live entry of the key into a tombstone and takes one off the
    size. *)
Lemma remove_probe_spec fuel : forall k t p (m : HashMap V) tr m',
  remove_probe fuel k t p m = Ok (tr, m') ->
  m' = m \/
  exists index curr,
    _buckets m !! index = Some (Some curr) /\
    String.eqb (key curr) k = true /\ is_tombstone curr = false /\
    m' = mkHashMap
           (<[index := Some (mkHashEntry (key curr) (value curr) true)]>
              (_buckets m))
           (_capacity m) (_size m - 1).
Proof.
  induction fuel as [|fuel IH]; intros k t p m tr m' H; simpl in H.
  - discriminate.
  - apply bind_Ok in H as (slot & m1 & Hg & H).
    apply bucket_get_Ok in Hg as (-> & Ht & Hl).
    destruct slot as [curr|].
    + destruct (String.eqb (key curr) k && negb (is_tombstone curr)) eqn:Hc.
      * apply bind_Ok in H as (u & m2 & Hb & H).
        apply bucket_set_Ok in Hb as ->.
        munfold. simpl in H. injection H as <- <-.
        apply andb_true_iff in Hc as [Hk Hts].
        apply negb_true_iff in Hts.
        right. exists (Z.to_nat t), curr. auto.
      * apply bind_Ok in H as (next & m2 & Ha & H).
        apply advance_Ok in Ha as (-> & _ & _).
        apply bind_Ok in H as (visited & m3 & Hp & H).
        unfold ret in H. injection H as <- <-.
        eapply IH; eassumption.
    + unfold ret in H. injection H as <- <-. left. reflexivity.
Qed.

Lemma remove_Ok fuel k (m : HashMap V) tr m' :
  remove hash_function fuel k m = Ok (tr, m') ->
  m' = m \/
  exists index curr,
    _buckets m !! index = Some (Some curr) /\
    String.eqb (key curr) k = true /\ is_tombstone curr = false /\
    m' = mkHashMap
           (<[index := Some (mkHashEntry (key curr) (value curr) true)]>
              (_buckets m))
           (_capacity m) (_size m - 1).
Proof.
  unfold remove. intros H.
  apply bind_Ok in H as (t & m1 & Hh & H).
  apply hash_Ok in Hh as (-> & _ & _).
  eapply remove_probe_spec; eassumption.
Qed.

Lemma reachable_sound (m : HashMap V) :
  reachable hash_function m -> sound m.
Proof.
  induction 1 as [fuel capacity m H
                 |fuel k v m r m' Hr IH H
                 |fuel k m r m' Hr IH H
                 |fuel k m r m' Hr IH H
                 |fuel k m tr m' Hr IH H
                 |fuel nc m n m' Hr IH H
                 |m m' Hr IH H].
  - unfold HashMap_init in H.
    destruct (_next_prime fuel capacity) as [c| |] eqn:Hc; try discriminate.
    simpl in H. injection H as <-.
    apply fresh_sound. apply (next_prime_sound _ _ _ Hc).
  - apply (proj1 (put_resize_sound hash_function fuel) _ _ _ _ _ IH H).
  - apply get_frame in H as ->. exact IH.
  - apply contains_key_frame in H as ->. exact IH.
  - assert (Hcons' : consistent m').
    { apply (reachable_consistent hash_function).
      eapply reach_remove; eassumption. }
    destruct IH as (Hcons & Hprime & Hload).
    pose proof (size_le_capacity m' Hcons') as [Hs0 _].
    apply remove_Ok in H as [->|(index & curr & _ & _ & _ & ->)].
    + exact (conj Hcons (conj Hprime Hload)).
    + split; [exact Hcons'|]. simpl in *. split; [exact Hprime|]. lia.
  - destruct (proj2 (put_resize_sound hash_function fuel) _ _ _ _ IH H)
      as [(_ & -> & _)|(_ & Hs & _)]; [exact IH|exact Hs].
  - unfold clear in H. munfold. injection H as <-.
    apply fresh_sound. apply IH.
Qed.

(** ** Invariants of the reachable maps *)

(** X3: on every reachable map a capacity that is not negative is prime, and
    [get_capacity()] reports it. *)
Theorem capacity_is_prime (m : HashMap V) :
  reachable hash_function m -> 0 <= _capacity m ->
  Z.prime (_capacity m) /\ get_capacity m = Ok (_capacity m, m).
Proof.
  intros Hr Hc. apply reachable_sound in Hr as (_ & Hprime & _).
  split; [exact (Hprime Hc)|reflexivity].
Qed.

(** X4: a reachable map is never more than about half full: the size is
    between 0 and the capacity, and it is 0 or twice (size - 1) is below the
    capacity. *)
Theorem load_stays_below_half (m : HashMap V) :
  reachable hash_function m ->
  0 <= _size m <= Z.max 0 (_capacity m) /\
  (_size m = 0 \/ 2 * (_size m - 1) < _capacity m).
Proof.
  intros Hr. apply reachable_sound in Hr as (Hcons & _ & Hload).
  split; [apply size_le_capacity; exact Hcons|exact Hload].
Qed.

(** X5: a [put] that returns ran on a map with slots, did not shrink the
    capacity, added at most one to the size and left the map non-empty. *)
Theorem put_grows (fuel : nat) (k : string) (v : V) (m : HashMap V) r m' :
  reachable hash_function m ->
  put hash_function fuel k v m = Ok (r, m') ->
  0 < _capacity m <= _capacity m' /\ 1 <= _size m' <= _size m + 1.
Proof.
  intros Hr H.
  pose proof (reachable_consistent hash_function m Hr) as Hcons.
  assert (Hget : get hash_function fuel k m' = Ok (Some v, m'))
    by (eapply put_get_returned; [exact Hcons|exact H|lia]).
  apply reachable_sound in Hr.
  destruct (proj1 (put_resize_sound hash_function fuel) _ _ _ _ _ Hr H)
    as ((Hcons' & _) & Hcap & Hpos & Hsz).
  split; [lia|]. split; [|lia].
  pose proof (size_le_capacity m' Hcons') as [Hs0 _].
  destruct (Z.eq_dec (_size m') 0) as [E|]; [exfalso|lia].
  unfold get, get_traced, bind, gets in Hget. rewrite E in Hget.
  simpl in Hget. discriminate.
Qed.

(** X6: [resize_table]: a request below the size changes nothing; otherwise
    the new capacity is a prime that is at least the request, and the size
    does not grow. *)
Theorem resize_table_contract
    (fuel : nat) (new_capacity : Z) (m : HashMap V) n m' :
  reachable hash_function m ->
  resize_table hash_function fuel new_capacity m = Ok (n, m') ->
  (new_capacity < _size m /\ m' = m) \/
  (_size m <= new_capacity /\ new_capacity <= _capacity m' /\
   Z.prime (_capacity m') /\ _size m' <= _size m).
Proof.
  intros Hr H.
  pose proof (size_le_capacity m (reachable_consistent _ m Hr)) as [Hs0 _].
  apply reachable_sound in Hr.
  destruct (proj2 (put_resize_sound hash_function fuel) _ _ _ _ Hr H)
    as [(Hlt & -> & _)|(Hle & (_ & Hprime & _) & Hcap & Hsz)].
  - left. auto.
  - right. split; [exact Hle|]. split; [exact Hcap|].
    split; [apply Hprime; lia|exact Hsz].
Qed.

(** X7: [remove]: a run that returns leaves the map as it was or has turned
    one live entry of the key into a tombstone; capacity and table length
    stay, and the size drops by one exactly when an entry was found. *)
Theorem remove_effect (fuel : nat) (k : string) (m : HashMap V) tr m' :
  remove hash_function fuel k m = Ok (tr, m') ->
  _capacity m' = _capacity m /\
  length (_buckets m') = length (_buckets m) /\
  (m' = m \/
   (_size m' = _size m - 1 /\
    exists index curr,
      _buckets m !! index = Some (Some curr) /\
      key curr = k /\ is_tombstone curr = false /\
      _buckets m' =
        <[index := Some (mkHashEntry k (value curr) true)]> (_buckets m))).
Proof.
  intros H. apply remove_Ok in H as [->|(index & curr & Hl & Hk & Hts & ->)].
  - auto.
  - simpl. split; [reflexivity|]. split; [apply length_insert|].
    right. split; [reflexivity|]. exists index, curr.
    apply String.eqb_eq in Hk. subst k. auto.
Qed.
End Invariants.

Section Listing.
Context {V : Type} (hash_function : string -> Z).

(** *** [contains_key] and [get] *)

Lemma contains_probe_get_probe fuel : forall k t p (m : HashMap V),
  contains_probe fuel k t p m =
  match get_probe fuel k t p m with
  | Ok ((tr, r), m') => Ok ((tr, found r), m')
  | Raise e => Raise e
  | Timeout => Timeout
  end.
Proof.
  induction fuel as [|fuel IH]; intros k t p m; simpl; [reflexivity|].
  unfold bind.
  destruct (bucket_get t m) as [[slot m1]| |]; try reflexivity.
  destruct slot as [curr|]; [|reflexivity].
  destruct (String.eqb (key curr) k && negb (is_tombstone curr));
    [reflexivity|].
  destruct (advance t p m1) as [[next m2]| |]; try reflexivity.
  rewrite IH.
  destruct (get_probe fuel k next (p + 1) m2) as [[[tr r] m3]| |];
    reflexivity.
Qed.

Lemma contains_key_traced_get_traced fuel k (m : HashMap V) :
  contains_key_traced hash_function fuel k m =
  match get_traced hash_function fuel k m with
  | Ok ((tr, r), m') => Ok ((tr, found r), m')
  | Raise e => Raise e
  | Timeout => Timeout
  end.
Proof.
  unfold contains_key_traced, get_traced.
  unfold bind, gets.
  destruct (_size m =? 0); [reflexivity|].
  destruct (_hash hash_function k m) as [[t m1]| |]; try reflexivity.
  apply contains_probe_get_probe.
Qed.

Lemma contains_key_get fuel k (m : HashMap V) :
  contains_key hash_function fuel k m =
  match get hash_function fuel k m with
  | Ok (r, m') => Ok (found r, m')
  | Raise e => Raise e
  | Timeout => Timeout
  end.
Proof.
  unfold contains_key, get, bind.
  rewrite contains_key_traced_get_traced.
  destruct (get_traced hash_function fuel k m) as [[[tr r] m']| |];
    reflexivity.
Qed.

(** X8: [contains_key(k)] is [True] exactly when [get(k)] finds an entry:
    the two calls return, raise or run on together, and they look at the
    same slots. *)
Theorem contains_key_agrees_with_get
    (fuel : nat) (k : string) (m : HashMap V) :
  contains_key hash_function fuel k m =
  match get hash_function fuel k m with
  | Ok (r, m') => Ok (found r, m')
  | Raise e => Raise e
  | Timeout => Timeout
  end /\
  contains_key_traced hash_function fuel k m =
  match get_traced hash_function fuel k m with
  | Ok ((tr, r), m') => Ok ((tr, found r), m')
  | Raise e => Raise e
  | Timeout => Timeout
  end.
Proof.
  split; [apply contains_key_get|apply contains_key_traced_get_traced].
Qed.

(** *** What [get_keys_and_values] lists *)

Lemma collect_range (b : list (option (HashEntry V))) : forall pre,
  collect (pre ++ b) (map Z.of_nat (seq (length pre) (length b)))
    = Ok (live_pairs b).
Proof.
  induction b as [|slot b IH]; intros pre; simpl; [reflexivity|].
  unfold da_get.
  assert (E : (Z.of_nat (length pre) <? 0) = false)
    by (apply Z.ltb_ge; lia).
  rewrite E, Nat2Z.id, list_lookup_middle by reflexivity. simpl.
  specialize (IH (pre ++ [slot])).
  rewrite <- app_assoc, length_app in IH. simpl in IH.
  rewrite Nat.add_1_r in IH. rewrite IH. simpl.
  destruct slot as [entry|]; [|reflexivity].
  destruct (negb (is_tombstone entry)); reflexivity.
Qed.

Lemma live_pairs_length (b : list (option (HashEntry V))) :
  Z.of_nat (length (live_pairs b)) = count_live b.
Proof.
  induction b as [|slot b IH]; simpl; [reflexivity|].
  destruct slot as [entry|]; simpl; [|lia].
  destruct (negb (is_tombstone entry)); simpl; lia.
Qed.

Lemma live_pairs_In (b : list (option (HashEntry V))) k v :
  In (k, v) (live_pairs b) <->
  exists index entry,
    b !! index = Some (Some entry) /\ is_tombstone entry = false /\
    key entry = k /\ value entry = v.
Proof.
  induction b as [|slot b IH]; simpl.
  - split; [intros []|intros (index & entry & H & _)].
    destruct index; discriminate.
  - split.
    + intros H.
      assert (Hrest : In (k, v) (live_pairs b) ->
        exists index entry,
          (slot :: b) !! index = Some (Some entry) /\
          is_tombstone entry = false /\ key entry = k /\ value entry = v).
      { intros Hin. apply IH in Hin as (index & entry & Hl & Hrest).
        exists (S index), entry. auto. }
      destruct slot as [entry|]; [|auto].
      destruct (is_tombstone entry) eqn:Hts; simpl in H; [auto|].
      destruct H as [H|H]; [|auto].
      injection H as <- <-. exists 0%nat, entry. auto.
    + intros (index & entry & Hl & Hts & Hk & Hv).
      destruct index as [|index]; simpl in Hl.
      * injection Hl as ->. rewrite Hts. simpl. left. congruence.
      * assert (Hin : In (k, v) (live_pairs b))
          by (apply IH; exists index, entry; auto).
        destruct slot as [e|]; [|exact Hin].
        destruct (negb (is_tombstone e)); [right|]; exact Hin.
Qed.

Lemma get_keys_and_values_run (m : HashMap V) :
  shape_ok m ->
  get_keys_and_values m = Ok (live_pairs (_buckets m), m).
Proof.
  intros Hsh. unfold get_keys_and_values, bind, gets, lift, range.
  unfold shape_ok in Hsh. rewrite <- Hsh.
  pose proof (collect_range (_buckets m) []) as Hc. simpl in Hc.
  rewrite Hc. reflexivity.
Qed.

(** X9: on a reachable map [get_keys_and_values()] returns: it lists the
    live entries in slot order, [get_size()] many of them, and the map stays
    as it is. *)
Theorem export_lists_live_entries (m : HashMap V) :
  reachable hash_function m ->
  get_keys_and_values m = Ok (live_pairs (_buckets m), m) /\
  get_size m = Ok (Z.of_nat (length (live_pairs (_buckets m))), m).
Proof.
  intros Hr. apply reachable_consistent in Hr as [Hs Hsh].
  split; [apply get_keys_and_values_run; exact Hsh|].
  unfold get_size, gets. rewrite live_pairs_length. unfold size_ok in Hs.
  rewrite Hs. reflexivity.
Qed.
End Listing.

Section Chains.
Context {V : Type} (hash_function : string -> Z).

(** *** No entry is cut off from its probe sequence *)

(** A property of maps that an empty table has and the probe loop of
    [put] keeps is kept by [put] and [resize_table]. *)
Lemma put_resize_preserve (I : HashMap V -> Prop) :
  (forall fuel k v m tr m',
     I m ->
     put_probe fuel k v (hash_function k mod _capacity m) 0 m = Ok (tr, m') ->
     I m') ->
  (forall c, I (mkHashMap (fresh_buckets c) c 0)) ->
  forall fuel,
    (forall k v m r m',
       I m -> put hash_function fuel k v m = Ok (r, m') -> I m') /\
    (forall nc m n m',
       I m -> resize_table hash_function fuel nc m = Ok (n, m') -> I m').
Proof.
  intros Hprobe Hfresh.
  induction fuel as [|fuel [IHput IHres]]; split; try (intros; discriminate).
  - intros k v m r m' Hm H. simpl in H.
    apply bind_Ok in H as (load & m0 & Hl & H).
    apply table_load_Ok in Hl as (-> & _).
    apply bind_Ok in H as (n & m1 & Hr & H).
    assert (Hm1 : I m1).
    { destruct (Qle_bool (1 # 2) load).
      - apply bind_Ok in Hr as (c & m4 & Hg & Hr).
        unfold gets in Hg. injection Hg as <- <-.
        apply bind_Ok in Hr as (n' & m5 & Hr & Hn).
        unfold ret in Hn. injection Hn as <- ->.
        eapply IHres; eassumption.
      - unfold ret in Hr. injection Hr as <- <-. exact Hm. }
    apply bind_Ok in H as (t & m2 & Hh & H).
    apply hash_Ok in Hh as (-> & _ & ->).
    apply bind_Ok in H as (visited & m3 & H & Hv).
    unfold ret in Hv. injection Hv as <- <-.
    eapply Hprobe; eassumption.
  - intros nc m n m' Hm H. simpl in H.
    apply bind_Ok in H as (s & m0 & Hg & H).
    unfold gets in Hg. injection Hg as <- <-.
    destruct (nc <? _size m).
    { unfold ret in H. injection H as <- <-. exact Hm. }
    apply bind_Ok in H as (old_map & m2 & Hg & H).
    unfold gets in Hg. injection Hg as <- <-.
    apply bind_Ok in H as (old_capacity & m3 & Hg & H).
    unfold gets in Hg. injection Hg as <- <-.
    apply bind_Ok in H as (p & m4 & Hp & H).
    apply lift_Ok in Hp as [_ ->].
    apply bind_Ok in H as (u1 & m5 & Hcap & H).
    apply bind_Ok in H as (c' & m6 & Hg & H).
    unfold gets in Hg. injection Hg as <- <-.
    apply bind_Ok in H as (u2 & m7 & Hb & H).
    unfold set_buckets in Hb. injection Hb as <- <-.
    apply bind_Ok in H as (u3 & m8 & Hz & H).
    unfold set_size in Hz. injection Hz as <- <-. simpl in H.
    eapply (migrate_inv I); [|apply Hfresh|exact H].
    intros k v m0 r m0' Hm0 Hput. eapply IHput; eassumption.
Qed.

Lemma insert_keeps_entries (b : list (option (HashEntry V))) index e x :
  (index < length b)%nat ->
  (exists e', b !! x = Some (Some e')) ->
  exists e', <[index := Some e]> b !! x = Some (Some e').
Proof.
  intros Hlt [e' Hl]. destruct (Nat.eq_dec index x) as [->|Hne].
  - exists e. apply list_lookup_insert_eq. exact Hlt.
  - exists e'. rewrite list_lookup_insert_ne by exact Hne. exact Hl.
Qed.

Lemma put_probe_chain fuel k v (m : HashMap V) tr m' :
  chain_ok hash_function m ->
  put_probe fuel k v (hash_function k mod _capacity m) 0 m = Ok (tr, m') ->
  chain_ok hash_function m'.
Proof.
  intros Hchain Hp.
  rewrite <- (slot_at_0 (hash_function k) (_capacity m)) in Hp.
  change 0 with (Z.of_nat 0) in Hp.
  apply put_probe_spec in Hp
    as (j & e & _ & _ & Hblocked & _ & Hlt & Hb & Hcap & Hk & _ & _).
  apply String.eqb_eq in Hk.
  intros index entry Hl. rewrite Hcap. rewrite Hb in Hl |- *.
  destruct (Nat.eq_dec
              (Z.to_nat (slot_at (hash_function k mod _capacity m)
                           (_capacity m) j)) index) as [Heq|Hne].
  - rewrite Heq in Hl. rewrite list_lookup_insert_eq in Hl by lia.
    injection Hl as <-. rewrite Hk. exists j. split; [exact Heq|].
    intros i Hi. apply insert_keeps_entries; [exact Hlt|].
    specialize (Hblocked i ltac:(lia)). unfold blocked_at in Hblocked.
    unfold quadratic_slot.
    destruct (_buckets m !! Z.to_nat
                (slot_at (hash_function k mod _capacity m) (_capacity m) i))
      as [[e'|]|]; try discriminate. eauto.
  - rewrite list_lookup_insert_ne in Hl by exact Hne.
    destruct (Hchain index entry Hl) as (j0 & Hj0 & Hbefore).
    exists j0. split; [exact Hj0|].
    intros i Hi. apply insert_keeps_entries; [exact Hlt|].
    apply Hbefore. exact Hi.
Qed.

Lemma fresh_chain c :
  chain_ok hash_function (mkHashMap (fresh_buckets c) c 0 : HashMap V).
Proof.
  intros index entry Hl. simpl in Hl. unfold fresh_buckets in Hl.
  apply lookup_replicate in Hl as [Hl _]. discriminate.
Qed.

Lemma reachable_chain (m : HashMap V) :
  reachable hash_function m -> chain_ok hash_function m.
Proof.
  induction 1 as [fuel capacity m H
                 |fuel k v m r m' Hr IH H
                 |fuel k m r m' Hr IH H
                 |fuel k m r m' Hr IH H
                 |fuel k m tr m' Hr IH H
                 |fuel nc m n m' Hr IH H
                 |m m' Hr IH H].
  - unfold HashMap_init in H.
    destruct (_next_prime fuel capacity) as [c| |]; try discriminate.
    simpl in H. injection H as <-. apply fresh_chain.
  - eapply (proj1 (put_resize_preserve _ put_probe_chain fresh_chain fuel));
      eassumption.
  - apply get_frame in H as ->. exact IH.
  - apply contains_key_frame in H as ->. exact IH.
  - apply remove_Ok in H as [->|(index & curr & Hl & _ & _ & ->)];
      [exact IH|].
    pose proof (lookup_lt_Some _ _ _ Hl) as Hlt.
    intros index0 entry Hl0. simpl in Hl0 |- *.
    assert (Hkey : exists entry0,
      _buckets m !! index0 = Some (Some entry0) /\ key entry0 = key entry).
    { destruct (Nat.eq_dec index index0) as [->|Hne].
      - rewrite list_lookup_insert_eq in Hl0 by exact Hlt.
        injection Hl0 as <-. exists curr. auto.
      - rewrite list_lookup_insert_ne in Hl0 by exact Hne. eauto. }
    destruct Hkey as (entry0 & Hl1 & <-).
    destruct (IH index0 entry0 Hl1) as (j0 & Hj0 & Hbefore).
    exists j0. split; [exact Hj0|].
    intros i Hi. apply insert_keeps_entries; [exact Hlt|].
    apply Hbefore. exact Hi.
  - eapply (proj2 (put_resize_preserve _ put_probe_chain fresh_chain fuel));
      eassumption.
  - unfold clear in H. munfold. injection H as <-. apply fresh_chain.
Qed.

(** The probe loop of [contains_key] answers [True] when a live entry of
    the key lies on the probe sequence with no empty slot before it. *)
Lemma contains_probe_reaches fuel : forall k base i j (m : HashMap V) e,
  0 < _capacity m -> (i <= j)%nat -> (j - i < fuel)%nat ->
  (forall i', (i <= i' < j)%nat -> exists e',
     _buckets m !! Z.to_nat (slot_at base (_capacity m) i')
       = Some (Some e')) ->
  _buckets m !! Z.to_nat (slot_at base (_capacity m) j) = Some (Some e) ->
  String.eqb (key e) k = true -> is_tombstone e = false ->
  exists tr,
    contains_probe fuel k (slot_at base (_capacity m) i) (Z.of_nat i) m
      = Ok ((tr, true), m).
Proof.
  induction fuel as [|fuel IH];
    intros k base i j m e Hc Hij Hfuel Hskip Hj Hk Hts; [lia|].
  simpl.
  pose proof (slot_at_range base (_capacity m) i Hc) as Hr.
  assert (Hget : forall curr,
    _buckets m !! Z.to_nat (slot_at base (_capacity m) i) = Some curr ->
    bucket_get (slot_at base (_capacity m) i) m = Ok (curr, m)).
  { intros curr Hl. munfold. unfold da_get.
    destruct (slot_at base (_capacity m) i <? 0) eqn:E;
      [apply Z.ltb_lt in E; lia|].
    rewrite Hl. reflexivity. }
  destruct (Nat.eq_dec i j) as [->|Hne].
  - rewrite (bind_run _ _ _ _ _ (Hget _ Hj)), Hk, Hts. simpl.
    unfold ret. eauto.
  - destruct (Hskip i ltac:(lia)) as (curr & Hl).
    rewrite (bind_run _ _ _ _ _ (Hget _ Hl)).
    destruct (String.eqb (key curr) k && negb (is_tombstone curr));
      [unfold ret; eauto|].
    rewrite (bind_run _ _ _ _ _ (advance_run m _ _ ltac:(lia))).
    rewrite slot_at_next.
    replace (Z.of_nat i + 1) with (Z.of_nat (S i)) by lia.
    destruct (IH k base (S i) j m e Hc ltac:(lia) ltac:(lia)) as (tr & Hp);
      [intros i' Hi'; apply Hskip; lia | exact Hj | exact Hk | exact Hts |].
    rewrite (bind_run _ _ _ _ _ Hp). unfold ret. simpl. eauto.
Qed.

Lemma get_probe_Some fuel : forall k t p (m : HashMap V) tr v m',
  get_probe fuel k t p m = Ok ((tr, Some v), m') ->
  exists index entry,
    _buckets m !! index = Some (Some entry) /\ is_tombstone entry = false /\
    key entry = k /\ value entry = v.
Proof.
  induction fuel as [|fuel IH]; intros k t p m tr v m' H; simpl in H.
  - discriminate.
  - apply bind_Ok in H as (slot & m1 & Hg & H).
    apply bucket_get_Ok in Hg as (-> & _ & Hl).
    destruct slot as [curr|]; [|unfold ret in H; discriminate].
    destruct (String.eqb (key curr) k && negb (is_tombstone curr)) eqn:Hc.
    + unfold ret in H. injection H as <- <- <-.
      apply andb_true_iff in Hc as [Hk Hts].
      apply String.eqb_eq in Hk. apply negb_true_iff in Hts.
      exists (Z.to_nat t), curr. auto.
    + apply bind_Ok in H as (next & m2 & Ha & H).
      apply advance_Ok in Ha as (-> & _ & _).
      apply bind_Ok in H as ([visited r] & m3 & Hp & H).
      unfold ret in H. simpl in H. injection H as <- -> <-.
      eapply IH; eassumption.
Qed.

Lemma get_Some_listed fuel k (m : HashMap V) v m' :
  get hash_function fuel k m = Ok (Some v, m') ->
  In (k, v) (live_pairs (_buckets m)).
Proof.
  unfold get, get_traced. intros H.
  apply bind_Ok in H as ([tr r] & m1 & H & Hr).
  unfold ret in Hr. simpl in Hr. injection Hr as -> <-.
  apply bind_Ok in H as (s & m2 & Hs & H).
  unfold gets in Hs. injection Hs as <- <-.
  destruct (_size m =? 0); [unfold ret in H; discriminate|].
  apply bind_Ok in H as (t & m3 & Hh & H).
  apply hash_Ok in Hh as (-> & _ & _).
  apply live_pairs_In. eapply get_probe_Some. exact H.
Qed.

Lemma listed_key_found (m : HashMap V) (k : string) (v : V) :
  reachable hash_function m ->
  In (k, v) (live_pairs (_buckets m)) ->
  exists fuel0, forall fuel, (fuel0 <= fuel)%nat ->
    contains_key hash_function fuel k m = Ok (true, m) /\
    exists v', get hash_function fuel k m = Ok (Some v', m) /\
               In (k, v') (live_pairs (_buckets m)).
Proof.
  intros Hr Hin.
  pose proof (reachable_consistent _ m Hr) as [Hs Hsh].
  pose proof (reachable_chain m Hr) as Hchain.
  apply live_pairs_In in Hin as (index & entry & Hl & Hts & <- & <-).
  destruct (Hchain index entry Hl) as (j & Hj & Hbefore).
  assert (Hc : 0 < _capacity m).
  { apply lookup_lt_Some in Hl. unfold shape_ok in Hsh. lia. }
  assert (Hsize : (_size m =? 0) = false).
  { apply Z.eqb_neq. unfold size_ok in Hs. rewrite Hs.
    pose proof (count_live_pos _ _ _ Hl) as Hpos. simpl in Hpos.
    rewrite Hts in Hpos. specialize (Hpos eq_refl). lia. }
  exists (S j). intros fuel Hfuel.
  assert (Hcontains : contains_key hash_function fuel (key entry) m
                      = Ok (true, m)).
  { unfold quadratic_slot in Hj, Hbefore.
    destruct (contains_probe_reaches fuel (key entry)
                (hash_function (key entry) mod _capacity m) 0 j m entry)
      as (tr & Hp); [lia|lia|lia| | | | |].
    - intros i' Hi'. apply Hbefore. lia.
    - rewrite Hj. exact Hl.
    - apply String.eqb_refl.
    - exact Hts.
    - rewrite slot_at_0 in Hp. change (Z.of_nat 0) with 0 in Hp.
      unfold contains_key, contains_key_traced.
      unfold bind at 1. unfold bind at 1. unfold gets at 1. rewrite Hsize.
      rewrite (bind_run _ _ _ _ _ (hash_run hash_function m _ ltac:(lia))).
      rewrite Hp. reflexivity. }
  split; [exact Hcontains|].
  rewrite contains_key_get in Hcontains.
  destruct (get hash_function fuel (key entry) m) as [[r m']| |] eqn:Hget;
    try discriminate.
  destruct r as [v'|]; [|discriminate].
  injection Hcontains as ->. exists v'. split; [reflexivity|].
  exact (get_Some_listed _ _ _ _ _ Hget).
Qed.

(** X10: lookups agree with the export. A value that [get(k)] returns is
    listed with [k] by [get_keys_and_values()]; and on a reachable map every
    key that [get_keys_and_values()] lists is found: with enough fuel
    [contains_key] answers [True] and [get] returns a value listed with that
    key, so a lookup of a key that is in the map never runs on. *)
Theorem get_agrees_with_export (m : HashMap V) (k : string) :
  reachable hash_function m ->
  (forall fuel v m',
     get hash_function fuel k m = Ok (Some v, m') ->
     In (k, v) (live_pairs (_buckets m))) /\
  (forall v,
     In (k, v) (live_pairs (_buckets m)) ->
     exists fuel0, forall fuel, (fuel0 <= fuel)%nat ->
       contains_key hash_function fuel k m = Ok (true, m) /\
       exists v', get hash_function fuel k m = Ok (Some v', m) /\
                  In (k, v') (live_pairs (_buckets m))).
Proof.
  intros Hr. split.
  - intros fuel v m' Hget. exact (get_Some_listed _ _ _ _ _ Hget).
  - intros v Hin. exact (listed_key_found m k v Hr Hin).
Qed.
End Chains.

Section RoundTrips.
Context {V : Type} (hash_function : string -> Z).

(** *** Insert and look up *)

(** X11: round trip: whenever [put(k, v)] returns, [get(k)] returns [v] and
    [contains_key(k)] answers [True]; and on a reachable map whose capacity
    is not negative [put(k, v)] does return. *)
Theorem put_get_round_trip (m : HashMap V) (k : string) (v : V) :
  reachable hash_function m ->
  (forall fuel r m',
     put hash_function fuel k v m = Ok (r, m') ->
     forall fuel', (fuel <= fuel')%nat ->
       get hash_function fuel' k m' = Ok (Some v, m') /\
       contains_key hash_function fuel' k m' = Ok (true, m')) /\
  (0 <= _capacity m ->
   exists fuel0, forall fuel, (fuel0 <= fuel)%nat ->
     exists r m', put hash_function fuel k v m = Ok (r, m')).
Proof.
  intros Hr. split.
  - intros fuel r m' Hput fuel' Hfuel.
    pose proof (put_get_returned hash_function fuel k v m r m'
                  (reachable_consistent _ m Hr) Hput fuel' Hfuel) as Hget.
    split; [exact Hget|].
    rewrite contains_key_get, Hget. reflexivity.
  - intros Hc.
    pose proof (reachable_sound hash_function m Hr) as (_ & Hp & _).
    specialize (Hp Hc).
    destruct (put_returns hash_function k v m
                (reachable_consistent _ m Hr) Hp) as (fuel0 & Hrun).
    exists fuel0. intros fuel Hfuel.
    destruct (Hrun fuel Hfuel) as (r & m' & Hput & _). eauto.
Qed.

(** A [put] that set off no resize ran its probe loop on the map as it
    was. *)
Lemma put_inv_no_resize fuel k v (m : HashMap V) tr m' :
  put hash_function fuel k v m = Ok ((0%nat, tr), m') ->
  exists fuel1,
    fuel = S fuel1 /\
    put_probe fuel1 k v (hash_function k mod _capacity m) 0 m = Ok (tr, m').
Proof.
  intros H. destruct fuel as [|fuel]; [discriminate|]. simpl in H.
  apply bind_Ok in H as (load & m0 & Hl & H).
  apply table_load_Ok in Hl as (-> & _).
  apply bind_Ok in H as (n & m1 & Hr & H).
  apply bind_Ok in H as (t & m2 & Hh & H).
  apply hash_Ok in Hh as (-> & _ & ->).
  apply bind_Ok in H as (visited & m3 & H & Hv).
  unfold ret in Hv. injection Hv as -> <- <-.
  destruct (Qle_bool (1 # 2) load).
  - apply bind_Ok in Hr as (c & m4 & _ & Hr).
    apply bind_Ok in Hr as (n' & m5 & _ & Hn).
    unfold ret in Hn. discriminate.
  - unfold ret in Hr. injection Hr as <-. eauto.
Qed.

(** X12: inserting a key again right after inserting it, when the second
    [put] sets off no resize, overwrites in place: size and capacity stay
    and [get] returns the second value. *)
Theorem put_again_overwrites
    (m : HashMap V) (k : string) (v1 v2 : V) fuel1 r1 m1 fuel2 tr2 m2 :
  reachable hash_function m ->
  put hash_function fuel1 k v1 m = Ok (r1, m1) ->
  put hash_function fuel2 k v2 m1 = Ok ((0%nat, tr2), m2) ->
  _size m2 = _size m1 /\ _capacity m2 = _capacity m1 /\
  length (_buckets m2) = length (_buckets m1) /\
  get hash_function fuel2 k m2 = Ok (Some v2, m2).
Proof.
  intros Hr H1 H2.
  assert (Hr1 : reachable hash_function m1)
    by (eapply reach_put; eassumption).
  pose proof (reachable_consistent _ m1 Hr1) as [Hs1 Hsh1].
  assert (Hget : get hash_function fuel2 k m2 = Ok (Some v2, m2)).
  { eapply put_get_returned; [exact (conj Hs1 Hsh1)|exact H2|lia]. }
  destruct r1 as [n1 tr1].
  apply put_inv in H1 as (f1 & m0 & -> & [Hs0 Hsh0] & Hp1);
    [|exact (reachable_consistent _ m Hr)].
  apply put_inv_no_resize in H2 as (f2 & -> & Hp2).
  pose proof (put_probe_inv _ _ _ _ _ _ _ _ Hp2 Hs1)
    as (Hs2 & Hlen2 & Hcap2 & _).
  split; [|split; [exact Hcap2|split; [exact Hlen2|exact Hget]]].
  rewrite <- (slot_at_0 (hash_function k) (_capacity m0)) in Hp1.
  change 0 with (Z.of_nat 0) in Hp1.
  apply put_probe_spec in Hp1
    as (j & e & _ & _ & Hblocked & Hfree & Hlt & Hb & Hcap & Hk & _ & Hts).
  rewrite <- (slot_at_0 (hash_function k) (_capacity m1)) in Hp2.
  change 0 with (Z.of_nat 0) in Hp2.
  apply put_probe_spec in Hp2
    as (j2 & e2 & _ & _ & Hblocked2 & Hfree2 & Hlt2 & Hb2 & _ & _ & _ & Hts2).
  rewrite Hcap in *.
  set (base := hash_function k mod _capacity m0) in *.
  set (c := _capacity m0) in *.
  assert (Hat_j : _buckets m1 !! Z.to_nat (slot_at base c j) = Some (Some e)).
  { rewrite Hb. apply list_lookup_insert_eq. exact Hlt. }
  assert (Hbefore : forall i, (i < j)%nat -> blocked_at m1 k base i = true).
  { intros i Hi. specialize (Hblocked i ltac:(lia)).
    unfold blocked_at in *. rewrite Hcap. fold c in Hblocked, Hfree |- *.
    rewrite Hb, list_lookup_insert_ne; [exact Hblocked|].
    intros Heq. rewrite Heq, Hblocked in Hfree. discriminate. }
  assert (Hj2 : j2 = j).
  { destruct (Nat.lt_total j2 j) as [Hlt'|[Heq|Hgt]]; [|exact Heq|].
    - rewrite (Hbefore j2 Hlt') in Hfree2. discriminate.
    - specialize (Hblocked2 j ltac:(lia)). unfold blocked_at in Hblocked2.
      rewrite Hcap in Hblocked2. fold c in Hblocked2.
      rewrite Hat_j in Hblocked2. simpl in Hblocked2.
      rewrite Hk, andb_false_r in Hblocked2. discriminate. }
  subst j2. unfold size_ok in Hs1, Hs2. rewrite Hs1, Hs2, Hb2.
  rewrite (count_live_insert _ _ _ _ Hat_j). simpl. rewrite Hts, Hts2.
  simpl. lia.
Qed.

(** *** Removing and looking up *)

Lemma remove_probe_get_probe fuel : forall k t p (m : HashMap V) tr r m1,
  get_probe fuel k t p m = Ok ((tr, r), m1) ->
  match r with
  | None => remove_probe fuel k t p m = Ok (tr, m)
  | Some _ =>
      exists m', remove_probe fuel k t p m = Ok (tr, m') /\
                 _size m' = _size m - 1
  end.
Proof.
  induction fuel as [|fuel IH]; intros k t p m tr r m1 H; simpl in H;
    [discriminate|].
  apply bind_Ok in H as (slot & m0 & Hg & H).
  pose proof Hg as Hg'. apply bucket_get_Ok in Hg' as (-> & Ht & Hl).
  simpl. rewrite (bind_run _ _ _ _ _ Hg).
  destruct slot as [curr|].
  - destruct (String.eqb (key curr) k && negb (is_tombstone curr)).
    + unfold ret in H. injection H as <- <- <-.
      munfold. unfold da_set.
      assert (E : (t <? 0) || (Z.of_nat (length (_buckets m)) <=? t) = false).
      { apply lookup_lt_Some in Hl. apply orb_false_iff.
        split; [apply Z.ltb_ge|apply Z.leb_gt]; lia. }
      rewrite E. simpl. eexists. split; reflexivity.
    + apply bind_Ok in H as (next & m2 & Ha & H).
      rewrite (bind_run _ _ _ _ _ Ha).
      apply advance_Ok in Ha as (-> & _ & _).
      apply bind_Ok in H as ([tr0 r0] & m3 & Hrec & H).
      unfold ret in H. simpl in H. injection H as <- <- <-.
      specialize (IH _ _ _ _ _ _ _ Hrec). destruct r0 as [v|].
      * destruct IH as (m' & Hrem & Hsz).
        rewrite (bind_run _ _ _ _ _ Hrem). eexists.
        split; [reflexivity|exact Hsz].
      * rewrite (bind_run _ _ _ _ _ IH). reflexivity.
  - unfold ret in H. injection H as <- <- <-. reflexivity.
Qed.

(** X13: [remove] after [get]: when [get(k)] answered absent, a [remove(k)]
    that returns has changed nothing; when [get(k)] found a value,
    [remove(k)] returns and takes one off the size. *)
Theorem remove_follows_get (fuel : nat) (k : string) (m : HashMap V) :
  reachable hash_function m ->
  (forall m1 tr m',
     get hash_function fuel k m = Ok (None, m1) ->
     remove hash_function fuel k m = Ok (tr, m') -> m' = m) /\
  (forall v m1,
     get hash_function fuel k m = Ok (Some v, m1) ->
     exists tr m',
       remove hash_function fuel k m = Ok (tr, m') /\
       _size m' = _size m - 1 /\ _capacity m' = _capacity m).
Proof.
  intros Hr. pose proof (reachable_consistent _ m Hr) as [Hs Hsh].
  assert (Hrel : forall r m1,
    get hash_function fuel k m = Ok (r, m1) ->
    _size m = 0 /\ r = None \/
    exists tr m2,
      _hash hash_function k m = Ok (hash_function k mod _capacity m, m) /\
      get_probe fuel k (hash_function k mod _capacity m) 0 m
        = Ok ((tr, r), m2)).
  { intros r m1 H. unfold get, get_traced in H.
    apply bind_Ok in H as ([tr r0] & m2 & H & Hret).
    unfold ret in Hret. simpl in Hret. injection Hret as <- <-.
    apply bind_Ok in H as (s & m3 & Hsz & H).
    unfold gets in Hsz. injection Hsz as <- <-.
    destruct (_size m =? 0) eqn:E.
    - left. apply Z.eqb_eq in E. unfold ret in H. injection H as <- <- <-.
      split; [exact E|reflexivity].
    - right. apply bind_Ok in H as (t & m4 & Hh & H).
      pose proof Hh as Hh'. apply hash_Ok in Hh' as (-> & _ & ->).
      eauto. }
  split.
  - intros m1 tr m' Hget Hrem.
    destruct (Hrel _ _ Hget) as [[Hz _]|(tr0 & m2 & Hh & Hp)].
    + apply remove_Ok in Hrem as [->|(index & curr & Hl & _ & Hts & _)];
        [reflexivity|exfalso].
      unfold size_ok in Hs.
      pose proof (count_live_pos _ _ _ Hl) as Hpos. simpl in Hpos.
      rewrite Hts in Hpos. specialize (Hpos eq_refl). lia.
    + apply remove_probe_get_probe in Hp. unfold remove in Hrem.
      rewrite (bind_run _ _ _ _ _ Hh), Hp in Hrem. congruence.
  - intros v m1 Hget.
    destruct (Hrel _ _ Hget) as [[_ Hn]|(tr0 & m2 & Hh & Hp)];
      [discriminate|].
    apply remove_probe_get_probe in Hp as (m' & Hrem & Hsz).
    exists tr0, m'. unfold remove. rewrite (bind_run _ _ _ _ _ Hh).
    split; [exact Hrem|]. split; [exact Hsz|].
    apply remove_probe_inv in Hrem as (_ & _ & Hcap); [exact Hcap|exact Hs].
Qed.

(** *** [clear] *)

Lemma live_pairs_replicate n :
  live_pairs (replicate n (@None (HashEntry V))) = [].
Proof. induction n as [|n IH]; simpl; [reflexivity|exact IH]. Qed.

(** X14: [clear] returns on every map and keeps the capacity; afterwards the
    size is 0, [empty_buckets()] equals the capacity, every [get] answers
    absent, every [contains_key] answers [False] and [get_keys_and_values()]
    is empty. *)
Theorem clear_empties_map (m : HashMap V) :
  exists m',
    clear m = Ok (tt, m') /\
    get_capacity m' = Ok (_capacity m, m') /\
    get_size m' = Ok (0, m') /\
    empty_buckets m' = Ok (_capacity m, m') /\
    get_keys_and_values m' = Ok ([], m') /\
    forall fuel k,
      get hash_function fuel k m' = Ok (None, m') /\
      contains_key hash_function fuel k m' = Ok (false, m').
Proof.
  eexists. split; [reflexivity|].
  split; [reflexivity|]. split; [reflexivity|].
  split; [unfold empty_buckets, bind, gets, ret; simpl; f_equal; f_equal; lia|].
  split.
  - rewrite get_keys_and_values_run by (apply length_replicate).
    simpl. unfold fresh_buckets. rewrite live_pairs_replicate. reflexivity.
  - intros fuel k. split; reflexivity.
Qed.

(** *** A negative requested capacity *)

(** X15: a negative requested capacity is not refused: the constructor
    returns a map with a negative capacity and a table without slots, on
    which [empty_buckets()] is that negative number, [put] and [remove]
    raise [DynamicArrayException] and lookups answer absent. *)
Theorem negative_capacity_map (capacity : Z) :
  capacity < 0 ->
  exists m : HashMap V,
    (forall fuel, (2 <= fuel)%nat -> HashMap_init fuel capacity = Ok m) /\
    capacity <= _capacity m < 0 /\ _buckets m = [] /\ _size m = 0 /\
    empty_buckets m = Ok (_capacity m, m) /\
    forall fuel k,
      (2 <= fuel)%nat ->
      (forall v, put hash_function fuel k v m = Raise DynamicArrayException) /\
      remove hash_function fuel k m = Raise DynamicArrayException /\
      get hash_function fuel k m = Ok (None, m) /\
      contains_key hash_function fuel k m = Ok (false, m).
Proof.
  intros Hc.
  set (c := if capacity mod 2 =? 0 then capacity + 1 else capacity).
  assert (Hcn : capacity <= c < 0).
  { subst c. destruct (capacity mod 2 =? 0) eqn:E; [|lia].
    apply Z.eqb_eq in E.
    assert (capacity <> -1) by (intros ->; discriminate). lia. }
  assert (Hfresh : fresh_buckets c = (@nil (option (HashEntry V)))).
  { unfold fresh_buckets. replace (Z.to_nat c) with 0%nat by lia.
    reflexivity. }
  exists (mkHashMap [] c 0). split.
  - intros fuel Hfuel. unfold HashMap_init.
    rewrite (next_prime_negative fuel capacity Hc Hfuel). fold c. simpl.
    rewrite Hfresh. reflexivity.
  - split; [exact Hcn|]. split; [reflexivity|]. split; [reflexivity|].
    split; [unfold empty_buckets, bind, gets, ret; simpl; f_equal; f_equal;
            lia|].
    intros fuel k Hfuel.
    assert (Hraise : forall t : Z,
      bucket_get t (mkHashMap [] c 0 : HashMap V)
        = Raise DynamicArrayException).
    { intros t. munfold. simpl. unfold da_get.
      destruct (t <? 0); reflexivity. }
    assert (Hhash :
      _hash hash_function k (mkHashMap [] c 0 : HashMap V)
        = Ok (hash_function k mod c, mkHashMap [] c 0)).
    { apply (hash_run hash_function (mkHashMap [] c 0) k). simpl. lia. }
    split; [|split; [|split; reflexivity]].
    + intros v. destruct fuel as [|[|fuel]]; [lia|lia|].
      assert (Hl : exists load,
        table_load (mkHashMap [] c 0 : HashMap V)
          = Ok (load, mkHashMap [] c 0) /\
        Qle_bool (1 # 2) load = false).
      { destruct (table_load (mkHashMap [] c 0 : HashMap V))
          as [[load m0]| |] eqn:Hl.
        - apply table_load_Ok in Hl as (-> & _ & Hhigh & _).
          exists load. split; [reflexivity|].
          destruct (Qle_bool (1 # 2) load); [|reflexivity].
          simpl in Hhigh. specialize (Hhigh ltac:(lia) eq_refl). lia.
        - unfold table_load in Hl. munfold. simpl in Hl.
          destruct (c =? 0) eqn:E; [apply Z.eqb_eq in E; lia|discriminate].
        - unfold table_load in Hl. munfold. simpl in Hl.
          destruct (c =? 0); discriminate. }
      destruct Hl as (load & Hl & Hq).
      change (put hash_function (S (S fuel)) k v) with
        (load <- table_load ;;
         resizes <- (if Qle_bool (1 # 2) load
                     then c <- gets _capacity ;;
                          n <- resize_table hash_function (S fuel) (c * 2) ;;
                          ret (S n)
                     else ret 0%nat) ;;
         target_bucket <- _hash hash_function k ;;
         visited <- put_probe (S fuel) k v target_bucket 0 ;;
         ret (resizes, visited)).
      rewrite (bind_run _ _ _ _ _ Hl), Hq.
      unfold bind at 1. unfold ret at 1.
      rewrite (bind_run _ _ _ _ _ Hhash).
      unfold bind at 1. simpl. unfold bind at 1. rewrite Hraise. reflexivity.
    + destruct fuel as [|fuel]; [lia|]. unfold remove.
      rewrite (bind_run _ _ _ _ _ Hhash). simpl.
      unfold bind at 1. rewrite Hraise. reflexivity.
Qed.
End RoundTrips.

Section Probing.
Context {V : Type} (hash_function : string -> Z).

(** *** How far [put] probes *)

(** The probe loop of [put] runs on a table that is less than half full
    and has a prime capacity. *)
Lemma put_inv_half fuel k v (m : HashMap V) n tr m' :
  sound m ->
  put hash_function fuel k v m = Ok ((n, tr), m') ->
  exists fuel1 m1,
    fuel = S fuel1 /\ consistent m1 /\ Z.prime (_capacity m1) /\
    2 * _size m1 < _capacity m1 /\
    put_probe fuel1 k v (hash_function k mod _capacity m1) 0 m1
      = Ok (tr, m').
Proof.
  intros Hm H. destruct fuel as [|fuel]; [discriminate|]. simpl in H.
  pose proof Hm as (Hcons & Hprime & Hload).
  pose proof (size_le_capacity m Hcons) as [Hs0 Hsc].
  apply bind_Ok in H as (load & m0 & Hl & H).
  apply table_load_Ok in Hl as (-> & Hc0 & Hhigh & Hlow).
  apply bind_Ok in H as (r & m1 & Hr & H).
  apply bind_Ok in H as (t & m2 & Hh & H).
  apply hash_Ok in Hh as (-> & _ & ->).
  apply bind_Ok in H as (visited & m3 & H & Hv).
  unfold ret in Hv. injection Hv as <- <- <-.
  exists fuel, m1. split; [reflexivity|].
  assert (Hpos : 0 < _capacity m1).
  { destruct fuel as [|f]; [discriminate|]. simpl in H.
    apply bind_Ok in H as (slot & m4 & Hg & _).
    apply bucket_get_Ok in Hg as (_ & Hge & Hl).
    apply lookup_lt_Some in Hl.
    assert (Hsh1 : shape_ok m1).
    { destruct (Qle_bool (1 # 2) load).
      - apply bind_Ok in Hr as (c & m5 & Hg & Hr).
        unfold gets in Hg. injection Hg as <- <-.
        apply bind_Ok in Hr as (n' & m6 & Hr & Hn).
        unfold ret in Hn. injection Hn as <- ->.
        destruct (proj2 (put_resize_sound hash_function (S f)) _ _ _ _ Hm Hr)
          as [(_ & -> & _)|(_ & ((_ & Hsh) & _) & _)];
          [exact (proj2 Hcons)|exact Hsh].
      - unfold ret in Hr. injection Hr as <- <-. exact (proj2 Hcons). }
    unfold shape_ok in Hsh1. lia. }
  destruct (Qle_bool (1 # 2) load) eqn:Hq.
  - specialize (Hhigh Hs0 eq_refl).
    apply bind_Ok in Hr as (c & m5 & Hg & Hr).
    unfold gets in Hg. injection Hg as <- <-.
    apply bind_Ok in Hr as (n' & m6 & Hr & Hn).
    unfold ret in Hn. injection Hn as <- ->.
    pose proof (Z.prime_ge_2 _ (Hprime ltac:(lia))) as Hc2.
    destruct (proj2 (put_resize_sound hash_function fuel) _ _ _ _ Hm Hr)
      as [(Hlt & _ & _)|(_ & (Hcons1 & Hprime1 & _) & Hcap & Hsz)]; [lia|].
    split; [exact Hcons1|]. split; [apply Hprime1; lia|]. split; [|exact H].
    assert (Hne : _capacity m1 <> _capacity m * 2).
    { intros Heq. specialize (Hprime1 ltac:(lia)). rewrite Heq in Hprime1.
      rewrite Z.mul_comm in Hprime1.
      exact (even_not_prime _ Hc2 Hprime1). }
    lia.
  - unfold ret in Hr. injection Hr as <- <-.
    split; [exact Hcons|]. split; [apply Hprime; lia|].
    split; [apply Hlow; [lia|reflexivity]|exact H].
Qed.

(** Every slot the probe loop of [put] looked at, but the last, blocked
    it. *)
Lemma put_probe_length fuel : forall k v base i (m : HashMap V) tr m',
  put_probe fuel k v (slot_at base (_capacity m) i) (Z.of_nat i) m
    = Ok (tr, m') ->
  (1 <= length tr)%nat /\
  forall i', (i <= i' < i + length tr - 1)%nat ->
             blocked_at m k base i' = true.
Proof.
  induction fuel as [|fuel IH]; intros k v base i m tr m' H; simpl in H.
  - discriminate.
  - apply bind_Ok in H as (slot & m1 & Hg & H).
    apply bucket_get_Ok in Hg as (-> & Ht & Hl).
    assert (Hone : forall (c : M V unit) tr0 m2,
      (c ;;; s <- gets _size ;; set_size (s + 1) ;;; ret tr0) m
        = Ok (tr, m2) -> tr = tr0).
    { intros c tr0 m2 Hc.
      apply bind_Ok in Hc as (u & m3 & _ & Hc).
      apply bind_Ok in Hc as (s & m4 & _ & Hc).
      apply bind_Ok in Hc as (u' & m5 & _ & Hc).
      unfold ret in Hc. congruence. }
    destruct slot as [entry|].
    + destruct (is_tombstone entry) eqn:Hts.
      * apply Hone in H. subst tr. simpl. split; [lia|]. intros; lia.
      * destruct (String.eqb (key entry) k) eqn:Hk.
        -- apply bind_Ok in H as (u & m3 & _ & H).
           unfold ret in H. injection H as <- <-. simpl.
           split; [lia|]. intros; lia.
        -- apply bind_Ok in H as (next & m2 & Ha & H).
           apply advance_Ok in Ha as (-> & _ & ->).
           apply bind_Ok in H as (visited & m3 & Hp & H).
           unfold ret in H. injection H as <- <-.
           rewrite slot_at_next in Hp.
           replace (Z.of_nat i + 1) with (Z.of_nat (S i)) in Hp by lia.
           apply IH in Hp as (Hlen & Hb). simpl length.
           split; [lia|]. intros i' Hi'.
           destruct (Nat.eq_dec i' i) as [->|Hne].
           ++ unfold blocked_at. rewrite Hl. simpl. rewrite Hts, Hk.
              reflexivity.
           ++ apply Hb. lia.
    + apply Hone in H. subst tr. simpl. split; [lia|]. intros; lia.
Qed.

(** X16: a [put] that returns on a reachable map looked at no more than half
    the capacity plus one slots, each of them once. *)
Theorem put_probes_at_most_half
    (fuel : nat) (k : string) (v : V) (m : HashMap V) n tr m' :
  reachable hash_function m ->
  put hash_function fuel k v m = Ok ((n, tr), m') ->
  1 <= Z.of_nat (length tr) <= _capacity m' / 2 + 1 /\
  tr = quadratic_sequence hash_function k (_capacity m') (length tr) /\
  NoDup tr.
Proof.
  intros Hr H. apply reachable_sound in Hr.
  apply put_inv_half in H as (fuel1 & m1 & -> & Hcons & Hprime & Hload & Hp);
    [|exact Hr].
  pose proof (Z.prime_ge_2 _ Hprime) as Hc2.
  rewrite <- (slot_at_0 (hash_function k) (_capacity m1)) in Hp.
  change 0 with (Z.of_nat 0) in Hp.
  pose proof (put_probe_trace _ _ _ _ _ _ _ _ Hp) as Htr.
  pose proof (put_probe_capacity _ _ _ _ _ _ _ _ Hp) as Hcap.
  pose proof (put_probe_length _ _ _ _ _ _ _ _ Hp) as (Hlen & Hblocked).
  destruct (free_slot_exists m1 k (hash_function k mod _capacity m1)
              Hcons Hprime Hload) as (j & Hj & Hfree).
  assert (Hbound : (length tr - 1 <= j)%nat).
  { destruct (le_lt_dec (length tr - 1) j) as [Hle|Hlt]; [exact Hle|].
    rewrite Hblocked in Hfree by lia. discriminate. }
  rewrite Hcap. split; [lia|]. split; [exact Htr|].
  rewrite Htr. apply NoDup_fmap_2_strong; [|apply NoDup_seq].
  intros a b Ha Hb Heq.
  apply elem_of_seq in Ha. apply elem_of_seq in Hb.
  destruct (Nat.lt_total a b) as [Hlt|[He|Hlt]]; [|exact He|]; exfalso.
  - apply (slot_at_distinct (hash_function k mod _capacity m1)
             (_capacity m1) a b Hprime Hlt); [lia|exact Heq].
  - apply (slot_at_distinct (hash_function k mod _capacity m1)
             (_capacity m1) b a Hprime Hlt); [lia|symmetry; exact Heq].
Qed.
End Probing.

Section Counting.
Context {V : Type} (hash_function : string -> Z).

(** *** Inserting a key that is not in the map *)

(** When the probe loop of [get] answers absent it has reached an empty
    slot without passing a live entry of the key. *)
Lemma get_probe_None fuel : forall k base i (m : HashMap V) tr m',
  get_probe fuel k (slot_at base (_capacity m) i) (Z.of_nat i) m
    = Ok ((tr, None), m') ->
  exists j,
    (i <= j)%nat /\
    _buckets m !! Z.to_nat (slot_at base (_capacity m) j) = Some None /\
    forall i', (i <= i' < j)%nat ->
      exists e,
        _buckets m !! Z.to_nat (slot_at base (_capacity m) i')
          = Some (Some e) /\
        String.eqb (key e) k && negb (is_tombstone e) = false.
Proof.
  induction fuel as [|fuel IH]; intros k base i m tr m' H; simpl in H.
  - discriminate.
  - apply bind_Ok in H as (slot & m1 & Hg & H).
    apply bucket_get_Ok in Hg as (-> & Ht & Hl).
    destruct slot as [curr|].
    + destruct (String.eqb (key curr) k && negb (is_tombstone curr)) eqn:Hc;
        [unfold ret in H; discriminate|].
      apply bind_Ok in H as (next & m2 & Ha & H).
      apply advance_Ok in Ha as (-> & _ & ->).
      apply bind_Ok in H as ([visited r] & m3 & Hp & H).
      unfold ret in H. simpl in H. injection H as <- -> <-.
      rewrite slot_at_next in Hp.
      replace (Z.of_nat i + 1) with (Z.of_nat (S i)) in Hp by lia.
      apply IH in Hp as (j & Hij & Hj & Hbefore).
      exists j. split; [lia|]. split; [exact Hj|].
      intros i' Hi'. destruct (Nat.eq_dec i' i) as [->|Hne].
      * exists curr. split; [exact Hl|exact Hc].
      * apply Hbefore. lia.
    + exists i. split; [lia|]. split; [exact Hl|]. intros; lia.
Qed.

(** X17: inserting a key that [get] reports absent, when the [put] sets off
    no resize, adds exactly one to the size, keeps the capacity and fills
    one slot that held no live entry. *)
Theorem put_new_key_adds_one
    (m : HashMap V) (k : string) (v : V) fuel m1 fuel' tr m' :
  reachable hash_function m ->
  get hash_function fuel k m = Ok (None, m1) ->
  put hash_function fuel' k v m = Ok ((0%nat, tr), m') ->
  _size m' = _size m + 1 /\ _capacity m' = _capacity m /\
  exists index old,
    _buckets m !! index = Some old /\ live old = false /\
    _buckets m' = <[index := Some (new_HashEntry k v)]> (_buckets m).
Proof.
  intros Hr Hget Hput.
  pose proof (reachable_consistent _ m Hr) as [Hs Hsh].
  apply put_inv_no_resize in Hput as (f & -> & Hp).
  pose proof (put_probe_inv _ _ _ _ _ _ _ _ Hp Hs) as (Hs' & _ & Hcap & _).
  rewrite <- (slot_at_0 (hash_function k) (_capacity m)) in Hp.
  change 0 with (Z.of_nat 0) in Hp.
  pose proof Hp as Hp'.
  apply put_probe_spec in Hp
    as (j & e & _ & _ & Hblocked & Hfree & Hlt & Hb & _ & Hk & Hv & Hts).
  set (base := hash_function k mod _capacity m) in *.
  destruct (lookup_lt_is_Some_2 _ _ Hlt) as [old Hold].
  assert (Hdead : live old = false).
  { unfold get, get_traced in Hget.
    apply bind_Ok in Hget as ([tr0 r] & m2 & Hget & Hret).
    unfold ret in Hret. simpl in Hret. injection Hret as -> <-.
    apply bind_Ok in Hget as (s & m3 & Hsz & Hget).
    unfold gets in Hsz. injection Hsz as <- <-.
    destruct (_size m =? 0) eqn:E.
    - apply Z.eqb_eq in E. unfold size_ok in Hs.
      destruct (live old) eqn:Hlive; [|reflexivity].
      pose proof (count_live_pos _ _ _ Hold Hlive). lia.
    - apply bind_Ok in Hget as (t & m4 & Hh & Hget).
      apply hash_Ok in Hh as (-> & _ & ->).
      rewrite <- (slot_at_0 (hash_function k) (_capacity m)) in Hget.
      fold base in Hget. change 0 with (Z.of_nat 0) in Hget.
      apply get_probe_None in Hget as (je & _ & Hje & Hbefore).
      destruct (le_lt_dec j je) as [Hle|Hgt].
      + destruct (Nat.eq_dec j je) as [->|Hne].
        * rewrite Hje in Hold. injection Hold as <-. reflexivity.
        * destruct (Hbefore j ltac:(lia)) as (e0 & He0 & Hc0).
          rewrite He0 in Hold. injection Hold as <-.
          unfold blocked_at in Hfree. rewrite He0 in Hfree.
          simpl in Hfree |- *.
          destruct (is_tombstone e0); [reflexivity|].
          destruct (String.eqb (key e0) k); discriminate.
      + specialize (Hblocked je ltac:(lia)). unfold blocked_at in Hblocked.
        rewrite Hje in Hblocked. discriminate. }
  assert (He : e = new_HashEntry k v).
  { destruct e as [ke ve te]. simpl in *. apply String.eqb_eq in Hk.
    subst. reflexivity. }
  subst e. split; [|split; [exact Hcap|eauto]].
  unfold size_ok in Hs, Hs'. rewrite Hs, Hs', Hb.
  rewrite (count_live_insert _ _ _ _ Hold), Hdead. simpl. lia.
Qed.

(** *** [empty_buckets] and [table_load] *)

Lemma count_live_dead (b : list (option (HashEntry V))) :
  count_live b
    + Z.of_nat (length (List.filter (fun slot => negb (live slot)) b))
  = Z.of_nat (length b).
Proof.
  induction b as [|slot b IH]; simpl; [reflexivity|].
  destruct (live slot); simpl length; lia.
Qed.

(** X18: on a reachable map with slots [empty_buckets()] counts the slots
    that hold no live entry: the slots never used and the tombstones. *)
Theorem empty_buckets_counts_dead_slots (m : HashMap V) :
  reachable hash_function m -> 0 <= _capacity m ->
  empty_buckets m
    = Ok (Z.of_nat (length (List.filter (fun slot => negb (live slot))
                              (_buckets m))), m).
Proof.
  intros Hr Hc. apply reachable_consistent in Hr as [Hs Hsh].
  unfold size_ok in Hs. unfold shape_ok in Hsh.
  pose proof (count_live_dead (_buckets m)) as Hd.
  unfold empty_buckets, bind, gets, ret. f_equal. f_equal. lia.
Qed.

(** X19: on a reachable map [table_load()] never divides by zero, and the
    load factor it returns lies between 0 and 2/3. *)
Theorem table_load_in_range (m : HashMap V) :
  reachable hash_function m ->
  _capacity m <> 0 /\
  exists load,
    table_load m = Ok (load, m) /\
    (load == inject_Z (_size m) / inject_Z (_capacity m))%Q /\
    (0 <= load)%Q /\ (load <= 2 # 3)%Q.
Proof.
  intros Hr. pose proof (reachable_sound hash_function m Hr)
    as (Hcons & Hprime & Hload).
  pose proof (size_le_capacity m Hcons) as [Hs0 Hsc].
  assert (Hc : _capacity m <> 0).
  { intros E. specialize (Hprime ltac:(lia)).
    apply Z.prime_ge_2 in Hprime. lia. }
  split; [exact Hc|].
  exists (inject_Z (_size m) / inject_Z (_capacity m))%Q.
  split.
  - unfold table_load, bind, gets, ret.
    destruct (_capacity m =? 0) eqn:E; [apply Z.eqb_eq in E; lia|].
    reflexivity.
  - split; [reflexivity|].
    destruct (_capacity m) as [|p|p] eqn:Ecap; [lia| |].
    + assert (Hp2 : 2 <= Z.pos p)
        by (apply Z.prime_ge_2; apply Hprime; lia).
      unfold Qle, Qdiv, Qmult, Qinv, inject_Z. simpl. split; lia.
    + assert (Hz : _size m = 0) by lia. rewrite Hz.
      unfold Qle, Qdiv, Qmult, Qinv, inject_Z. simpl. split; lia.
Qed.
End Counting.

Section IterationFacts.
Context {V : Type} (hash_function : string -> Z).

Lemma next_run (m : HashMap V) : forall todo seen fuel,
  _buckets m = seen ++ todo ->
  (length todo < fuel)%nat ->
  __next__ fuel (mkHashMapIter m (Z.of_nat (length seen)))
    = Ok (next_live m (length seen) todo).
Proof.
  induction todo as [|slot todo IH]; intros seen fuel Hb Hfuel;
    (destruct fuel as [|fuel]; [simpl in Hfuel; lia|]); simpl.
  - rewrite Hb, length_app. simpl.
    destruct (Z.of_nat (length seen) <? Z.of_nat (length seen + 0)) eqn:E;
      [apply Z.ltb_lt in E; lia|reflexivity].
  - rewrite Hb, length_app. simpl length.
    destruct (Z.of_nat (length seen)
                <? Z.of_nat (length seen + S (length todo))) eqn:E;
      [|apply Z.ltb_ge in E; lia].
    unfold da_get.
    destruct (Z.of_nat (length seen) <? 0) eqn:E0;
      [apply Z.ltb_lt in E0; lia|].
    rewrite Nat2Z.id, list_lookup_middle by reflexivity. simpl.
    assert (Hnext :
      __next__ fuel (mkHashMapIter m (Z.of_nat (length seen) + 1))
        = Ok (next_live m (S (length seen)) todo)).
    { specialize (IH (seen ++ [slot]) fuel).
      rewrite length_app in IH. simpl length in IH.
      replace (length seen + 1)%nat with (S (length seen)) in IH by lia.
      replace (Z.of_nat (S (length seen))) with (Z.of_nat (length seen) + 1)
        in IH by lia.
      apply IH; [rewrite <- app_assoc; exact Hb|simpl in Hfuel; lia]. }
    destruct slot as [entry|]; [|exact Hnext].
    destruct (negb (is_tombstone entry)); [reflexivity|exact Hnext].
Qed.

Lemma for_each_run (m : HashMap V) : forall todo seen fuel,
  _buckets m = seen ++ todo ->
  (length todo + 2 <= fuel)%nat ->
  for_each fuel (mkHashMapIter m (Z.of_nat (length seen)))
    = Ok (live_entries todo,
          mkHashMapIter m (Z.of_nat (length (_buckets m)))).
Proof.
  induction todo as [|slot todo IH]; intros seen fuel Hb Hfuel;
    (destruct fuel as [|fuel]; [simpl in Hfuel; lia|]).
  - simpl. rewrite (next_run m [] seen fuel Hb) by (simpl in *; lia).
    simpl. rewrite Hb, app_nil_r. reflexivity.
  - assert (Hb' : _buckets m = (seen ++ [slot]) ++ todo)
      by (rewrite <- app_assoc; exact Hb).
    assert (Hlen : Z.of_nat (length (seen ++ [slot]))
                   = Z.of_nat (length seen) + 1)
      by (rewrite length_app; simpl; lia).
    assert (Hskip : live slot = false ->
      for_each (S fuel) (mkHashMapIter m (Z.of_nat (length seen)))
        = Ok (live_entries todo,
              mkHashMapIter m (Z.of_nat (length (_buckets m))))).
    { intros Hdead.
      rewrite <- (IH (seen ++ [slot]) (S fuel) Hb') by (simpl in *; lia).
      simpl.
      rewrite (next_run m (slot :: todo) seen fuel Hb) by (simpl in *; lia).
      rewrite (next_run m todo (seen ++ [slot]) fuel Hb')
        by (simpl in *; lia).
      replace (length (seen ++ [slot])) with (S (length seen))
        by (rewrite length_app; simpl; lia).
      simpl next_live. destruct slot as [entry|]; [|reflexivity].
      simpl in Hdead. rewrite Hdead. reflexivity. }
    destruct slot as [entry|]; [|apply Hskip; reflexivity].
    destruct (negb (is_tombstone entry)) eqn:Hlive;
      [|simpl live_entries; rewrite Hlive; apply Hskip; exact Hlive].
    simpl.
    rewrite (next_run m (Some entry :: todo) seen fuel Hb)
      by (simpl in *; lia).
    simpl. rewrite Hlive. simpl. rewrite <- Hlen.
    rewrite (IH (seen ++ [Some entry]) fuel Hb') by (simpl in *; lia).
    reflexivity.
Qed.

Lemma live_entries_pairs (b : list (option (HashEntry V))) :
  map (fun entry => (key entry, value entry)) (live_entries b)
    = live_pairs b.
Proof.
  induction b as [|[entry|] b IH]; simpl; [reflexivity| |exact IH].
  destruct (negb (is_tombstone entry)); simpl; [rewrite IH|]; auto.
Qed.

Lemma live_entries_length (b : list (option (HashEntry V))) :
  Z.of_nat (length (live_entries b)) = count_live b.
Proof.
  induction b as [|[entry|] b IH]; simpl; [reflexivity| |lia].
  destruct (negb (is_tombstone entry)); simpl length; lia.
Qed.

(** X20: one call of [__next__] that returns leaves the map as it is. When
    it yields, the entry is live and is the first live one at or behind the
    cursor, and the cursor then stands right behind it; when it raises
    [StopIteration] no live entry is left at or behind the cursor, which
    then stands at the end of the table (or where it was, if that is
    further). *)
Theorem next_contract (fuel : nat) (it : HashMapIter V) r it' :
  0 <= _index it ->
  __next__ fuel it = Ok (r, it') ->
  _map it' = _map it /\
  match r with
  | Yield entry =>
      _index it < _index it' <= Z.of_nat (length (_buckets (_map it))) /\
      _buckets (_map it) !! Z.to_nat (_index it' - 1) = Some (Some entry) /\
      is_tombstone entry = false /\
      forall j, _index it <= j < _index it' - 1 ->
                live_at (_buckets (_map it)) j = false
  | StopIteration =>
      _index it'
        = Z.max (_index it) (Z.of_nat (length (_buckets (_map it)))) /\
      forall j, _index it <= j -> live_at (_buckets (_map it)) j = false
  end.
Proof.
  revert it. induction fuel as [|fuel IH]; intros it Hi H; simpl in H;
    [discriminate|].
  destruct it as [m i]. simpl in *.
  destruct (i <? Z.of_nat (length (_buckets m))) eqn:E.
  - apply Z.ltb_lt in E. unfold da_get in H.
    destruct (i <? 0) eqn:E0; [apply Z.ltb_lt in E0; lia|].
    destruct (_buckets m !! Z.to_nat i) as [slot|] eqn:Hl;
      [|discriminate]. simpl in H.
    assert (Hrec : live slot = false ->
      __next__ fuel (mkHashMapIter m (i + 1)) = Ok (r, it') ->
      _map it' = m /\
      match r with
      | Yield entry =>
          i < _index it' <= Z.of_nat (length (_buckets m)) /\
          _buckets m !! Z.to_nat (_index it' - 1) = Some (Some entry) /\
          is_tombstone entry = false /\
          forall j, i <= j < _index it' - 1 ->
                    live_at (_buckets m) j = false
      | StopIteration =>
          _index it' = Z.max i (Z.of_nat (length (_buckets m))) /\
          forall j, i <= j -> live_at (_buckets m) j = false
      end).
    { intros Hdead Hn.
      apply IH in Hn as (Hm & Hr); [|simpl; lia]. simpl in *.
      split; [exact Hm|].
      assert (Hat : live_at (_buckets m) i = false)
        by (unfold live_at; rewrite Hl; exact Hdead).
      destruct r as [entry|].
      - destruct Hr as (Hr1 & Hr2 & Hr3 & Hr4).
        split; [lia|]. split; [exact Hr2|]. split; [exact Hr3|].
        intros j Hj. destruct (Z.eq_dec j i) as [->|Hne];
          [exact Hat|apply Hr4; lia].
      - destruct Hr as [Hr1 Hr2]. split; [lia|].
        intros j Hj. destruct (Z.eq_dec j i) as [->|Hne];
          [exact Hat|apply Hr2; lia]. }
    destruct slot as [entry|]; [|apply Hrec; [reflexivity|exact H]].
    destruct (negb (is_tombstone entry)) eqn:Hlive;
      [|apply Hrec; [exact Hlive|exact H]].
    injection H as <- <-. simpl. split; [reflexivity|].
    replace (i + 1 - 1) with i by lia.
    split; [lia|]. split; [exact Hl|].
    split; [destruct (is_tombstone entry); [discriminate|reflexivity]|].
    intros j Hj. lia.
  - apply Z.ltb_ge in E. injection H as <- <-. simpl.
    split; [reflexivity|]. split; [lia|].
    intros j Hj. unfold live_at.
    rewrite (proj2 (lookup_ge_None (_buckets m) (Z.to_nat j)));
      [reflexivity|lia].
Qed.

(** X21: iterating over a map, with enough fuel for the length of its table,
    yields its live entries in slot order and leaves the map as it is: the
    same keys and values, in the same order, as [get_keys_and_values()]
    lists on a reachable map, [get_size()] of them; once exhausted,
    [__next__] keeps raising [StopIteration]. *)
Theorem iteration_yields_live_entries (m : HashMap V) (fuel : nat) :
  (length (_buckets m) + 2 <= fuel)%nat ->
  let done := mkHashMapIter m (Z.of_nat (length (_buckets m))) in
  for_each fuel (__iter__ m) = Ok (live_entries (_buckets m), done) /\
  __next__ fuel done = Ok (StopIteration, done) /\
  (reachable hash_function m ->
   get_keys_and_values m
     = Ok (map (fun entry => (key entry, value entry))
             (live_entries (_buckets m)), m) /\
   get_size m = Ok (Z.of_nat (length (live_entries (_buckets m))), m)).
Proof.
  intros Hfuel done. split; [|split].
  - apply (for_each_run m (_buckets m) [] fuel); [reflexivity|exact Hfuel].
  - destruct fuel as [|fuel]; [lia|]. simpl.
    rewrite Z.ltb_irrefl. reflexivity.
  - intros Hr.
    pose proof (reachable_consistent _ m Hr) as [Hs Hsh].
    rewrite live_entries_pairs.
    split; [apply get_keys_and_values_run; exact Hsh|].
    rewrite live_entries_length. unfold size_ok in Hs. rewrite <- Hs.
    reflexivity.
Qed.
End IterationFacts.

Section Keys.
Context {V : Type} (hash_function : string -> Z).

(** *** No key is lost *)

Lemma holds_key_listed (b : list (option (HashEntry V))) k :
  holds_key b k <-> exists v, In (k, v) (live_pairs b).
Proof.
  split.
  - intros (index & entry & Hl & Hts & Hk). exists (value entry).
    apply live_pairs_In. exists index, entry. auto.
  - intros (v & Hin).
    apply live_pairs_In in Hin as (index & entry & Hl & Hts & Hk & _).
    exists index, entry. auto.
Qed.

(** The probe loop of [put] leaves the key it was given in the table and
    takes no other key out. *)
Lemma put_probe_keys fuel k v (m : HashMap V) tr m' :
  put_probe fuel k v (hash_function k mod _capacity m) 0 m = Ok (tr, m') ->
  holds_key (_buckets m') k /\
  forall k0, holds_key (_buckets m) k0 -> holds_key (_buckets m') k0.
Proof.
  intros Hp.
  rewrite <- (slot_at_0 (hash_function k) (_capacity m)) in Hp.
  change 0 with (Z.of_nat 0) in Hp.
  apply put_probe_spec in Hp
    as (j & e & _ & _ & _ & Hfree & Hlt & Hb & _ & Hk & _ & Hts).
  apply String.eqb_eq in Hk.
  set (s := Z.to_nat (slot_at (hash_function k mod _capacity m)
                        (_capacity m) j)) in *.
  split.
  - exists s, e. rewrite Hb. split; [|auto].
    apply list_lookup_insert_eq. exact Hlt.
  - intros k0 (index & entry & Hl & Hts0 & Hk0).
    destruct (Nat.eq_dec index s) as [->|Hne].
    + exists s, e. rewrite Hb.
      split; [apply list_lookup_insert_eq; exact Hlt|].
      split; [exact Hts|].
      unfold blocked_at in Hfree. fold s in Hfree. rewrite Hl in Hfree.
      simpl in Hfree. rewrite Hts0 in Hfree. simpl in Hfree.
      apply negb_false_iff in Hfree. apply String.eqb_eq in Hfree.
      congruence.
    + exists index, entry. rewrite Hb.
      rewrite list_lookup_insert_ne by (intros E; apply Hne; auto).
      auto.
Qed.

Lemma migrate_keys put_f (old : list (option (HashEntry V))) :
  (forall k v (m : HashMap V) r m',
     consistent m -> put_f k v m = Ok (r, m') ->
     consistent m' /\ holds_key (_buckets m') k /\
     forall k0, holds_key (_buckets m) k0 -> holds_key (_buckets m') k0) ->
  forall l (m : HashMap V) n m',
    consistent m -> migrate put_f old l m = Ok (n, m') ->
    (forall k0, holds_key (_buckets m) k0 -> holds_key (_buckets m') k0) /\
    (forall index entry,
       In index l -> old !! Z.to_nat index = Some (Some entry) ->
       is_tombstone entry = false -> holds_key (_buckets m') (key entry)).
Proof.
  intros Hput. induction l as [|index l IH]; intros m n m' Hm H; simpl in H.
  - unfold ret in H. injection H as _ <-. split; [auto|]. intros ? ? [].
  - apply bind_Ok in H as (curr & m1 & Hd & H).
    apply lift_Ok in Hd as [Hd ->]. apply da_get_Ok in Hd as [_ Hl].
    apply bind_Ok in H as (n1 & m2 & H1 & H).
    apply bind_Ok in H as (n2 & m3 & H2 & H).
    unfold ret in H. injection H as _ <-.
    assert (Hstep : consistent m2 /\
      (forall k0, holds_key (_buckets m) k0 -> holds_key (_buckets m2) k0) /\
      (forall entry, curr = Some entry -> is_tombstone entry = false ->
                     holds_key (_buckets m2) (key entry))).
    { destruct curr as [entry|].
      - destruct (negb (is_tombstone entry)) eqn:Hlive.
        + apply bind_Ok in H1 as (r & m4 & Hp & Hr).
          unfold ret in Hr. injection Hr as _ <-.
          destruct (Hput _ _ _ _ _ Hm Hp) as (Hc & Hk & Hincl).
          split; [exact Hc|]. split; [exact Hincl|].
          intros entry' [= <-] _. exact Hk.
        + unfold ret in H1. injection H1 as _ <-.
          split; [exact Hm|]. split; [auto|].
          intros entry' [= <-] Hts. rewrite Hts in Hlive. discriminate.
      - unfold ret in H1. injection H1 as _ <-.
        split; [exact Hm|]. split; [auto|]. intros ? [=]. }
    destruct Hstep as (Hm2 & Hincl & Hcurr).
    destruct (IH _ _ _ Hm2 H2) as (Hincl' & Hrest).
    split; [auto|].
    intros index' entry [<-|Hin] Hl' Hts.
    + apply Hincl'. apply Hcurr; [congruence|exact Hts].
    + eapply Hrest; eassumption.
Qed.

Lemma put_resize_keys fuel :
  (forall k v (m : HashMap V) r m',
     consistent m -> put hash_function fuel k v m = Ok (r, m') ->
     consistent m' /\ holds_key (_buckets m') k /\
     forall k0, holds_key (_buckets m) k0 -> holds_key (_buckets m') k0) /\
  (forall nc (m : HashMap V) n m',
     consistent m -> resize_table hash_function fuel nc m = Ok (n, m') ->
     forall k0, holds_key (_buckets m) k0 -> holds_key (_buckets m') k0).
Proof.
  induction fuel as [|fuel [IHput IHres]]; split; try (intros; discriminate).
  - intros k v m r m' Hm H.
    split; [exact (proj1 (put_resize_consistent hash_function (S fuel))
                     _ _ _ _ _ Hm H)|].
    simpl in H.
    apply bind_Ok in H as (load & m0 & Hl & H).
    apply table_load_Ok in Hl as (-> & _).
    apply bind_Ok in H as (n & m1 & Hr & H).
    apply bind_Ok in H as (t & m2 & Hh & H).
    apply hash_Ok in Hh as (-> & _ & ->).
    apply bind_Ok in H as (visited & m3 & H & Hv).
    unfold ret in Hv. injection Hv as _ <-.
    apply put_probe_keys in H as [Hk Hincl].
    split; [exact Hk|]. intros k0 Hk0. apply Hincl.
    destruct (Qle_bool (1 # 2) load).
    + apply bind_Ok in Hr as (c & m4 & Hg & Hr).
      unfold gets in Hg. injection Hg as <- <-.
      apply bind_Ok in Hr as (n' & m5 & Hr & Hn).
      unfold ret in Hn. injection Hn as _ ->.
      exact (IHres _ _ _ _ Hm Hr k0 Hk0).
    + unfold ret in Hr. injection Hr as _ <-. exact Hk0.
  - intros nc m n m' Hm H k0 Hk0. simpl in H.
    apply bind_Ok in H as (s & m0 & Hg & H).
    unfold gets in Hg. injection Hg as <- <-.
    destruct (nc <? _size m).
    { unfold ret in H. injection H as _ <-. exact Hk0. }
    apply bind_Ok in H as (old_map & m2 & Hg & H).
    unfold gets in Hg. injection Hg as <- <-.
    apply bind_Ok in H as (old_capacity & m3 & Hg & H).
    unfold gets in Hg. injection Hg as <- <-.
    apply bind_Ok in H as (p & m4 & Hp & H).
    apply lift_Ok in Hp as [_ ->].
    apply bind_Ok in H as (u1 & m5 & Hcap & H).
    assert (Hnew : exists c, m5 = mkHashMap (_buckets m) c (_size m)).
    { destruct p; simpl in Hcap.
      - unfold set_capacity in Hcap. injection Hcap as _ <-. eauto.
      - apply bind_Ok in Hcap as (c & m6 & Hn & Hcap).
        apply lift_Ok in Hn as [_ ->].
        unfold set_capacity in Hcap. injection Hcap as _ <-. eauto. }
    destruct Hnew as (c & ->).
    apply bind_Ok in H as (c' & m6 & Hg & H).
    unfold gets in Hg. simpl in Hg. injection Hg as <- <-.
    apply bind_Ok in H as (u2 & m7 & Hb & H).
    unfold set_buckets in Hb. injection Hb as _ <-.
    apply bind_Ok in H as (u3 & m8 & Hz & H).
    unfold set_size in Hz. injection Hz as _ <-. simpl in H.
    apply (migrate_keys _ _ IHput) in H as [_ Hall].
    + destruct Hk0 as (index & entry & Hl & Hts & <-).
      apply (Hall (Z.of_nat index) entry);
        [|rewrite Nat2Z.id; exact Hl|exact Hts].
      unfold range. apply in_map. apply in_seq.
      apply lookup_lt_Some in Hl. destruct Hm as [_ Hsh].
      unfold shape_ok in Hsh. lia.
    + split; [unfold size_ok|unfold shape_ok]; simpl; unfold fresh_buckets.
      * rewrite count_live_replicate. reflexivity.
      * apply length_replicate.
Qed.

(** X22: [put] and [resize_table] lose no key. On a reachable map, after a
    [put(k, v)] or a [resize_table] that returns, every key that
    [get_keys_and_values()] listed before is still listed, with some value,
    and is found by [contains_key]; so is [k] after the [put]. *)
Theorem put_and_resize_keep_keys (m : HashMap V) :
  reachable hash_function m ->
  (forall fuel k v r m',
     put hash_function fuel k v m = Ok (r, m') ->
     forall k0,
       k0 = k \/ (exists v0, In (k0, v0) (live_pairs (_buckets m))) ->
       (exists v', In (k0, v') (live_pairs (_buckets m'))) /\
       exists fuel0, forall fuel', (fuel0 <= fuel')%nat ->
         contains_key hash_function fuel' k0 m' = Ok (true, m')) /\
  (forall fuel new_capacity n m',
     resize_table hash_function fuel new_capacity m = Ok (n, m') ->
     forall k0,
       (exists v0, In (k0, v0) (live_pairs (_buckets m))) ->
       (exists v', In (k0, v') (live_pairs (_buckets m'))) /\
       exists fuel0, forall fuel', (fuel0 <= fuel')%nat ->
         contains_key hash_function fuel' k0 m' = Ok (true, m')).
Proof.
  intros Hr.
  pose proof (reachable_consistent _ m Hr) as Hm.
  assert (Hkept : forall (m' : HashMap V) k0,
    reachable hash_function m' -> holds_key (_buckets m') k0 ->
    (exists v', In (k0, v') (live_pairs (_buckets m'))) /\
    exists fuel0, forall fuel', (fuel0 <= fuel')%nat ->
      contains_key hash_function fuel' k0 m' = Ok (true, m')).
  { intros m' k0 Hr' Hk. apply holds_key_listed in Hk as (v' & Hin).
    split; [eauto|].
    destruct (listed_key_found hash_function m' k0 v' Hr' Hin)
      as (fuel0 & Hrun).
    exists fuel0. intros fuel Hfuel. exact (proj1 (Hrun fuel Hfuel)). }
  split.
  - intros fuel k v r m' H k0 Hk0.
    assert (Hr' : reachable hash_function m')
      by (eapply reach_put; eassumption).
    destruct (proj1 (put_resize_keys fuel) _ _ _ _ _ Hm H)
      as (_ & Hk & Hincl).
    apply Hkept; [exact Hr'|].
    destruct Hk0 as [->|Hin]; [exact Hk|].
    apply Hincl. apply holds_key_listed. exact Hin.
  - intros fuel nc n m' H k0 Hin.
    assert (Hr' : reachable hash_function m')
      by (eapply reach_resize_table; eassumption).
    apply Hkept; [exact Hr'|].
    apply (proj2 (put_resize_keys fuel) _ _ _ _ Hm H).
    apply holds_key_listed. exact Hin.
Qed.

(** *** Other keys are left alone *)

(** X23: a [put(k, v)] that sets off no resize and a [remove(k)] list every
    other key with the values it had before, no more and no fewer. *)
Theorem other_keys_untouched (k : string) (m m' : HashMap V) :
  (forall fuel v tr,
     put hash_function fuel k v m = Ok ((0%nat, tr), m') ->
     forall k0 v0, k0 <> k ->
       (In (k0, v0) (live_pairs (_buckets m)) <->
        In (k0, v0) (live_pairs (_buckets m')))) /\
  (forall fuel tr,
     remove hash_function fuel k m = Ok (tr, m') ->
     forall k0 v0, k0 <> k ->
       (In (k0, v0) (live_pairs (_buckets m)) <->
        In (k0, v0) (live_pairs (_buckets m')))).
Proof.
  assert (Hframe : forall index (slot : option (HashEntry V)),
    (index < length (_buckets m))%nat ->
    _buckets m' = <[index := slot]> (_buckets m) ->
    (forall old, _buckets m !! index = Some (Some old) ->
                 is_tombstone old = false -> key old = k) ->
    (forall e, slot = Some e -> is_tombstone e = false -> key e = k) ->
    forall k0 v0, k0 <> k ->
      (In (k0, v0) (live_pairs (_buckets m)) <->
       In (k0, v0) (live_pairs (_buckets m')))).
  { intros index slot Hlt Hb Hold Hnew k0 v0 Hne.
    rewrite !live_pairs_In. rewrite Hb.
    split; intros (i & entry & Hl & Hts & Hk & Hv); exists i, entry.
    - destruct (Nat.eq_dec index i) as [->|Hi].
      + exfalso. apply Hne. rewrite <- Hk. exact (Hold _ Hl Hts).
      + rewrite list_lookup_insert_ne by exact Hi. auto.
    - destruct (Nat.eq_dec index i) as [->|Hi].
      + exfalso. rewrite list_lookup_insert_eq in Hl by exact Hlt.
        injection Hl as Hl. apply Hne. rewrite <- Hk.
        exact (Hnew _ Hl Hts).
      + rewrite list_lookup_insert_ne in Hl by exact Hi. auto. }
  split.
  - intros fuel v tr H.
    apply put_inv_no_resize in H as (f & -> & Hp).
    rewrite <- (slot_at_0 (hash_function k) (_capacity m)) in Hp.
    change 0 with (Z.of_nat 0) in Hp.
    apply put_probe_spec in Hp
      as (j & e & _ & _ & _ & Hfree & Hlt & Hb & _ & Hk & _ & Hts).
    apply (Hframe _ _ Hlt Hb).
    + intros old Hl Hts0. unfold blocked_at in Hfree. rewrite Hl in Hfree.
      simpl in Hfree. rewrite Hts0 in Hfree. simpl in Hfree.
      apply negb_false_iff in Hfree. apply String.eqb_eq. exact Hfree.
    + intros e' [= <-] _. apply String.eqb_eq. exact Hk.
  - intros fuel tr H.
    apply remove_Ok in H as [->|(index & curr & Hl & Hk & Hts & ->)];
      [intros; reflexivity|].
    simpl. apply (Hframe index _ (lookup_lt_Some _ _ _ Hl) eq_refl).
    + intros old Hl' _. rewrite Hl in Hl'. injection Hl' as <-.
      apply String.eqb_eq. exact Hk.
    + intros e [= <-]. simpl. discriminate.
Qed.
End Keys.

(** ** No exceptions *)

Lemma is_prime_loop_no_raise fuel : forall factor n e,
  is_prime_loop fuel factor n <> Raise e.
Proof.
  induction fuel as [|fuel IH]; intros factor n e; simpl; [discriminate|].
  destruct (factor ^ 2 <=? n); [|discriminate].
  destruct (n mod factor =? 0); [discriminate|apply IH].
Qed.

Lemma is_prime_no_raise fuel n e : _is_prime fuel n <> Raise e.
Proof.
  unfold _is_prime.
  destruct ((n =? 2) || (n =? 3)); [discriminate|].
  destruct ((n =? 1) || (n mod 2 =? 0)); [discriminate|].
  apply is_prime_loop_no_raise.
Qed.

Lemma next_prime_loop_no_raise fuel : forall c e,
  next_prime_loop fuel c <> Raise e.
Proof.
  induction fuel as [|fuel IH]; intros c e; simpl; [discriminate|].
  pose proof (is_prime_no_raise fuel c) as Hp.
  destruct (_is_prime fuel c) as [p| |]; simpl;
    [|intros _; exact (Hp _ eq_refl)|discriminate].
  destruct p; [discriminate|apply IH].
Qed.

Lemma next_prime_no_raise fuel c e : _next_prime fuel c <> Raise e.
Proof. unfold _next_prime. apply next_prime_loop_no_raise. Qed.

Section NoExceptions.
Context {V : Type} (hash_function : string -> Z).

Lemma bind_Raise {A B} (c : M V A) (k : A -> M V B) m e :
  bind c k m = Raise e ->
  c m = Raise e \/ exists a m1, c m = Ok (a, m1) /\ k a m1 = Raise e.
Proof.
  unfold bind. destruct (c m) as [[a m1]| |]; intros H.
  - right. exists a, m1. split; [reflexivity|exact H].
  - left. injection H as ->. reflexivity.
  - discriminate.
Qed.

Lemma get_probe_no_raise fuel : forall k t p (m : HashMap V) e,
  shape_ok m -> 0 <= t < _capacity m ->
  get_probe fuel k t p m <> Raise e.
Proof.
  induction fuel as [|fuel IH]; intros k t p m e Hsh Ht H; simpl in H;
    [discriminate|].
  destruct (bucket_get_in_range m t Hsh Ht) as (slot & Hg & _).
  rewrite (bind_run _ _ _ _ _ Hg) in H.
  destruct slot as [curr|]; [|discriminate].
  destruct (String.eqb (key curr) k && negb (is_tombstone curr));
    [discriminate|].
  rewrite (bind_run _ _ _ _ _ (advance_run m t p ltac:(lia))) in H.
  apply bind_Raise in H as [H|(r & m1 & _ & H)]; [|discriminate].
  revert H. apply IH; [exact Hsh|]. apply Z.mod_pos_bound. lia.
Qed.

Lemma remove_probe_no_raise fuel : forall k t p (m : HashMap V) e,
  shape_ok m -> 0 <= t < _capacity m ->
  remove_probe fuel k t p m <> Raise e.
Proof.
  induction fuel as [|fuel IH]; intros k t p m e Hsh Ht H; simpl in H;
    [discriminate|].
  destruct (bucket_get_in_range m t Hsh Ht) as (slot & Hg & _).
  rewrite (bind_run _ _ _ _ _ Hg) in H.
  destruct slot as [curr|]; [|discriminate].
  destruct (String.eqb (key curr) k && negb (is_tombstone curr)).
  - rewrite (bind_run _ _ _ _ _ (bucket_set_in_range m t _ Hsh Ht)) in H.
    discriminate.
  - rewrite (bind_run _ _ _ _ _ (advance_run m t p ltac:(lia))) in H.
    apply bind_Raise in H as [H|(r & m1 & _ & H)]; [|discriminate].
    revert H. apply IH; [exact Hsh|]. apply Z.mod_pos_bound. lia.
Qed.

Lemma put_probe_no_raise fuel : forall k v t p (m : HashMap V) e,
  shape_ok m -> 0 <= t < _capacity m ->
  put_probe fuel k v t p m <> Raise e.
Proof.
  induction fuel as [|fuel IH]; intros k v t p m e Hsh Ht H; simpl in H;
    [discriminate|].
  destruct (bucket_get_in_range m t Hsh Ht) as (slot & Hg & _).
  rewrite (bind_run _ _ _ _ _ Hg) in H.
  destruct slot as [entry|].
  - destruct (is_tombstone entry).
    + rewrite (bind_run _ _ _ _ _ (bucket_set_in_range m t _ Hsh Ht)) in H.
      discriminate.
    + destruct (String.eqb (key entry) k).
      * rewrite (bind_run _ _ _ _ _ (bucket_set_in_range m t _ Hsh Ht)) in H.
        discriminate.
      * rewrite (bind_run _ _ _ _ _ (advance_run m t p ltac:(lia))) in H.
        apply bind_Raise in H as [H|(r & m1 & _ & H)]; [|discriminate].
        revert H. apply IH; [exact Hsh|]. apply Z.mod_pos_bound. lia.
  - rewrite (bind_run _ _ _ _ _ (bucket_set_in_range m t _ Hsh Ht)) in H.
    discriminate.
Qed.

Lemma migrate_no_raise put_f (old : list (option (HashEntry V))) :
  forall l (m : HashMap V) e,
  (forall k v m e, sound m -> 0 < _capacity m -> put_f k v m <> Raise e) ->
  (forall k v m r m', sound m -> put_f k v m = Ok (r, m') ->
     sound m' /\ _capacity m <= _capacity m') ->
  Forall (fun index => 0 <= index < Z.of_nat (length old)) l ->
  sound m -> 0 < _capacity m ->
  migrate put_f old l m <> Raise e.
Proof.
  induction l as [|index l IH]; intros m e Hno Hkeep Hl Hm Hc H; simpl in H;
    [discriminate|].
  inversion Hl as [|? ? Hi Hl']; subst.
  destruct (da_get_in_range old index Hi) as (curr & Hd & _).
  unfold bind at 1 in H. unfold lift at 1 in H. rewrite Hd in H.
  apply bind_Raise in H as [H|(n & m1 & H1 & H)].
  - destruct curr as [entry|]; [|discriminate].
    destruct (negb (is_tombstone entry)); [|discriminate].
    apply bind_Raise in H as [H|(r & m1 & _ & H)]; [|discriminate].
    exact (Hno _ _ _ _ Hm Hc H).
  - assert (Hm1 : sound m1 /\ 0 < _capacity m1).
    { destruct curr as [entry|];
        [|unfold ret in H1; injection H1 as <- <-; auto].
      destruct (negb (is_tombstone entry));
        [|unfold ret in H1; injection H1 as <- <-; auto].
      apply bind_Ok in H1 as (r & m2 & Hp & Hr).
      unfold ret in Hr. injection Hr as <- <-.
      destruct (Hkeep _ _ _ _ _ Hm Hp) as [Hs Hcap]. split; [exact Hs|lia]. }
    destruct Hm1 as [Hm1 Hc1].
    apply bind_Raise in H as [H|(n' & m2 & _ & H)]; [|discriminate].
    exact (IH m1 e Hno Hkeep Hl' Hm1 Hc1 H).
Qed.

Lemma put_resize_no_raise fuel :
  (forall k v (m : HashMap V) e,
     sound m -> 0 < _capacity m ->
     put hash_function fuel k v m <> Raise e) /\
  (forall nc (m : HashMap V) e,
     sound m -> 0 < _capacity m ->
     resize_table hash_function fuel nc m <> Raise e).
Proof.
  induction fuel as [|fuel [IHput IHres]]; split; try (intros; discriminate).
  - intros k v m e Hm Hc H. simpl in H.
    destruct (table_load_run m Hc) as (load & Hl & _).
    rewrite (bind_run _ _ _ _ _ Hl) in H.
    apply bind_Raise in H as [H|(n & m1 & Hr & H)].
    + destruct (Qle_bool (1 # 2) load); [|discriminate].
      unfold bind at 1 in H. unfold gets at 1 in H.
      apply bind_Raise in H as [H|(n & m1 & _ & H)]; [|discriminate].
      exact (IHres _ _ _ Hm Hc H).
    + assert (Hm1 : sound m1 /\ 0 < _capacity m1).
      { destruct (Qle_bool (1 # 2) load).
        - apply bind_Ok in Hr as (c & m2 & Hg & Hr).
          unfold gets in Hg. injection Hg as <- <-.
          apply bind_Ok in Hr as (n' & m3 & Hr & Hn).
          unfold ret in Hn. injection Hn as <- ->.
          destruct (proj2 (put_resize_sound hash_function fuel) _ _ _ _ Hm Hr)
            as [(_ & -> & _)|(_ & Hs & Hcap & _)]; [auto|].
          split; [exact Hs|lia].
        - unfold ret in Hr. injection Hr as <- <-. auto. }
      destruct Hm1 as [((_ & Hsh1) & _) Hc1].
      rewrite (bind_run _ _ _ _ _ (hash_run hash_function m1 k ltac:(lia)))
        in H.
      apply bind_Raise in H as [H|(tr & m2 & _ & H)]; [|discriminate].
      revert H. apply put_probe_no_raise; [exact Hsh1|].
      apply Z.mod_pos_bound. exact Hc1.
  - intros nc m e Hm Hc H. simpl in H.
    pose proof Hm as (Hcons & _).
    pose proof (size_le_capacity m Hcons) as [Hs0 _].
    unfold bind at 1 in H. unfold gets at 1 in H.
    destruct (nc <? _size m) eqn:Hlt; [discriminate|].
    apply Z.ltb_ge in Hlt.
    unfold bind at 1 in H. unfold gets at 1 in H.
    unfold bind at 1 in H. unfold gets at 1 in H.
    apply bind_Raise in H as [H|(p & m1 & Hp & H)].
    { unfold lift in H. pose proof (is_prime_no_raise fuel nc) as Hno.
      destruct (_is_prime fuel nc); [discriminate| |discriminate].
      injection H as ->. exact (Hno _ eq_refl). }
    apply lift_Ok in Hp as [Hip ->].
    apply bind_Raise in H as [H|(u & m2 & Hcap & H)].
    { destruct p; simpl in H; [discriminate|].
      apply bind_Raise in H as [H|(c & m2 & _ & H)]; [|discriminate].
      unfold lift in H. pose proof (next_prime_no_raise fuel nc) as Hno.
      destruct (_next_prime fuel nc); [discriminate| |discriminate].
      injection H as ->. exact (Hno _ eq_refl). }
    assert (Hnew : exists c, m2 = mkHashMap (_buckets m) c (_size m) /\
                             nc <= c /\ (0 <= c -> Z.prime c)).
    { destruct p; simpl in Hcap.
      - unfold set_capacity in Hcap. injection Hcap as _ <-.
        exists nc. split; [reflexivity|]. split; [lia|]. intros _.
        exact (proj1 (is_prime_sound _ _ _ Hip ltac:(lia)) eq_refl).
      - apply bind_Ok in Hcap as (c & m3 & Hn & Hcap).
        apply lift_Ok in Hn as [Hnp ->].
        unfold set_capacity in Hcap. injection Hcap as _ <-.
        exists c. split; [reflexivity|].
        destruct (next_prime_sound _ _ _ Hnp) as (Hle & Hpc & _). auto. }
    destruct Hnew as (c & -> & Hle & Hpc).
    unfold bind at 1 in H. unfold gets at 1 in H. simpl in H.
    unfold bind at 1 in H. unfold set_buckets at 1 in H. simpl in H.
    unfold bind at 1 in H. unfold set_size at 1 in H. simpl in H.
    revert H. apply migrate_no_raise.
    + exact IHput.
    + intros k0 v0 m0 r0 m0' Hs0' Hp0.
      destruct (proj1 (put_resize_sound hash_function fuel) _ _ _ _ _ Hs0' Hp0)
        as (Ha & Hb & _). auto.
    + apply range_in_bounds. exact (proj2 Hcons).
    + apply fresh_sound. exact Hpc.
    + simpl. pose proof (Z.prime_ge_2 _ (Hpc ltac:(lia))). lia.
Qed.

Lemma next_no_raise fuel : forall (it : HashMapIter V) e,
  0 <= _index it -> __next__ fuel it <> Raise e.
Proof.
  induction fuel as [|fuel IH]; intros [m i] e Hi; simpl in *;
    [discriminate|].
  destruct (i <? Z.of_nat (length (_buckets m))) eqn:E; [|discriminate].
  apply Z.ltb_lt in E.
  destruct (da_get_in_range (_buckets m) i ltac:(lia)) as (val & -> & _).
  simpl.
  destruct val as [entry|]; [|apply IH; simpl; lia].
  destruct (negb (is_tombstone entry)); [discriminate|apply IH; simpl; lia].
Qed.

(** X24: on a reachable map whose capacity is not negative no operation
    raises an exception: whatever the fuel, [put], [get], [contains_key],
    [remove], [resize_table] and [__next__] return or are still running. *)
Theorem operations_never_raise (m : HashMap V) (e : exn) :
  reachable hash_function m -> 0 <= _capacity m ->
  forall fuel k,
    (forall v, put hash_function fuel k v m <> Raise e) /\
    get hash_function fuel k m <> Raise e /\
    contains_key hash_function fuel k m <> Raise e /\
    remove hash_function fuel k m <> Raise e /\
    (forall new_capacity,
       resize_table hash_function fuel new_capacity m <> Raise e) /\
    (forall index,
       0 <= index -> __next__ fuel (mkHashMapIter m index) <> Raise e).
Proof.
  intros Hr Hc fuel k.
  pose proof (reachable_sound hash_function m Hr) as Hm.
  pose proof Hm as ((_ & Hsh) & Hprime & _).
  pose proof (Z.prime_ge_2 _ (Hprime Hc)) as Hc2.
  assert (Hget : get hash_function fuel k m <> Raise e).
  { intros H. unfold get in H.
    apply bind_Raise in H as [H|(r & m1 & _ & H)]; [|discriminate].
    unfold get_traced in H. unfold bind at 1 in H. unfold gets at 1 in H.
    destruct (_size m =? 0); [discriminate|].
    rewrite (bind_run _ _ _ _ _ (hash_run hash_function m k ltac:(lia)))
      in H.
    revert H. apply get_probe_no_raise; [exact Hsh|].
    apply Z.mod_pos_bound. lia. }
  split; [|split; [exact Hget|split; [|split; [|split]]]].
  - intros v. apply (proj1 (put_resize_no_raise fuel)); [exact Hm|lia].
  - rewrite contains_key_get.
    destruct (get hash_function fuel k m) as [[r m1]| |];
      [discriminate| |discriminate].
    intros H. apply Hget. injection H as ->. reflexivity.
  - intros H. unfold remove in H.
    rewrite (bind_run _ _ _ _ _ (hash_run hash_function m k ltac:(lia)))
      in H.
    revert H. apply remove_probe_no_raise; [exact Hsh|].
    apply Z.mod_pos_bound. lia.
  - intros nc. apply (proj2 (put_resize_no_raise fuel)); [exact Hm|lia].
  - intros index Hi. apply next_no_raise. exact Hi.
Qed.
End NoExceptions.

(** ** The slots the probe loops look at *)

Section ProbeSequence.
Context {V : Type} (hash_function : string -> Z).







(** *** Where the probe loops stop *)









End ProbeSequence.

End Properties.

(** ** The test inputs are reachable *)

Local Open Scope string_scope.

Lemma two_keys_reachable : reachable len two_keys.
Proof.
  eapply (reach_put _ len 10 "d" 2
            (mkHashMap [None; entry "a" 1; None] 3 1) _ two_keys);
    [|vm_compute; reflexivity].
  eapply (reach_put _ len 10 "a" 1 (mkHashMap [None; None; None] 3 0));
    [|vm_compute; reflexivity].
  apply (reach_init _ len 10 3). vm_compute. reflexivity.
Qed.

Lemma stuck_map_reachable : reachable len stuck_map.
Proof.
  eapply (reach_remove _ len 10 "d" two_keys _ stuck_map);
    [exact two_keys_reachable | vm_compute; reflexivity].
Qed.

Lemma one_key_reachable : reachable len one_key.
Proof.
  eapply (reach_remove _ len 10 "a" two_keys _ one_key);
    [exact two_keys_reachable | vm_compute; reflexivity].
Qed.

Lemma dup_map_reachable : reachable len dup_map.
Proof.
  eapply (reach_put _ len 10 "d" 3 one_key _ dup_map);
    [exact one_key_reachable | vm_compute; reflexivity].
Qed.

Lemma five_keys_reachable : reachable len five_keys.
Proof.
  eapply (reach_put _ len 10 "abcde" 5
    (mkHashMap [None; entry "a" 1; entry "ab" 2; entry "abc" 3;
                entry "abcd" 4; None; None; None; None; None; None] 11 4)
    _ five_keys); [|vm_compute; reflexivity].
  eapply (reach_put _ len 10 "abcd" 4
    (mkHashMap [None; entry "a" 1; entry "ab" 2; entry "abc" 3;
                None; None; None; None; None; None; None] 11 3));
    [|vm_compute; reflexivity].
  eapply (reach_put _ len 10 "abc" 3
    (mkHashMap [None; entry "a" 1; entry "ab" 2; None;
                None; None; None; None; None; None; None] 11 2));
    [|vm_compute; reflexivity].
  eapply (reach_put _ len 10 "ab" 2
    (mkHashMap [None; entry "a" 1; None; None;
                None; None; None; None; None; None; None] 11 1));
    [|vm_compute; reflexivity].
  eapply (reach_put _ len 10 "a" 1
    (mkHashMap [None; None; None; None;
                None; None; None; None; None; None; None] 11 0));
    [|vm_compute; reflexivity].
  apply (reach_init _ len 10 10). vm_compute. reflexivity.
Qed.

(** A number [_is_prime] accepts is prime. *)
Lemma is_prime_true_prime n :
  0 <= n -> _is_prime (S (Z.to_nat n)) n = Ok true -> Z.prime n.
Proof.
  intros Hn H.
  destruct (is_prime_spec (S (Z.to_nat n)) n Hn ltac:(lia)) as (b & Hb & Hiff).
  apply Hiff. congruence.
Qed.

(** In [stuck_map] every probe of the key "d" lands on slot 1 or 2. *)
Lemma stuck_slots i : slot_at 1 3 i = 1 \/ slot_at 1 3 i = 2.
Proof.
  unfold slot_at. rewrite Z.pow_2_r, Zplus_mod, Zmult_mod.
  pose proof (Z.mod_pos_bound (Z.of_nat i) 3 ltac:(lia)) as Hb.
  assert (Hc : Z.of_nat i mod 3 = 0 \/ Z.of_nat i mod 3 = 1 \/
               Z.of_nat i mod 3 = 2) by lia.
  destruct Hc as [->|[->| ->]]; vm_compute; auto.
Qed.

Lemma stuck_map_full i :
  exists curr,
    _buckets stuck_map !! Z.to_nat (slot_at 1 (_capacity stuck_map) i)
      = Some (Some curr) /\
    String.eqb (key curr) "d" && negb (is_tombstone curr) = false.
Proof.
  change (_capacity stuck_map) with 3.
  destruct (stuck_slots i) as [->| ->]; eexists; split; reflexivity.
Qed.

(** ** Where the code departs from the specification *)

(** C1: on the reachable map [dup_map], where the key "d" is live,
    [remove("d")] returns and yet [get("d")] then answers 2 and
    [contains_key("d")] answers [True]: [put] had claimed a tombstone
    without looking further along the probe sequence, so the key had two
    live entries and [remove] turned only the first into a tombstone. *)
Theorem remove_leaves_stale_entry :
  reachable len dup_map /\
  contains_key len 10 "d" dup_map = Ok (true, dup_map) /\
  remove len 10 "d" dup_map = Ok ([1], dup_removed) /\
  get len 10 "d" dup_removed = Ok (Some 2, dup_removed) /\
  contains_key len 10 "d" dup_removed = Ok (true, dup_removed).
Proof.
  split; [exact dup_map_reachable|].
  repeat split; vm_compute; reflexivity.
Qed.

(** C2: on the reachable map [one_key], which holds the single live key
    "d", [put("d", 3)] raises [get_size()] from 1 to 2 although the
    key was already in the map; afterwards two live entries carry the one
    key. *)
Theorem put_existing_key_grows_size :
  reachable len one_key /\
  contains_key len 10 "d" one_key = Ok (true, one_key) /\
  get_size one_key = Ok (1, one_key) /\
  put len 10 "d" 3 one_key = Ok ((0%nat, [1]), dup_map) /\
  get_size dup_map = Ok (2, dup_map) /\
  get_keys_and_values dup_map = Ok ([("d", 3); ("d", 2)], dup_map) /\
  distinct_keys [("d", 3); ("d", 2)] = 1%nat.
Proof.
  split; [exact one_key_reachable|].
  repeat split; vm_compute; reflexivity.
Qed.

(** C3: on the reachable map [dup_map], [get_keys_and_values()] reports
    the pairs ("d", 3) and ("d", 2) before [resize_table(7)] and only
    ("d", 2) after it, and [get("d")] changes from 3 to 2. *)
Theorem resize_table_loses_pair :
  reachable len dup_map /\
  get_keys_and_values dup_map = Ok ([("d", 3); ("d", 2)], dup_map) /\
  get len 10 "d" dup_map = Ok (Some 3, dup_map) /\
  (exists m',
     resize_table len 20 7 dup_map = Ok (0%nat, m') /\
     get_keys_and_values m' = Ok ([("d", 2)], m') /\
     get len 10 "d" m' = Ok (Some 2, m')) /\
  In ("d", 3) [("d", 3); ("d", 2)] /\ ~ In ("d", 3) [("d", 2)].
Proof.
  split; [exact dup_map_reachable|].
  split; [vm_compute; reflexivity|].
  split; [vm_compute; reflexivity|].
  split; [|split].
  - eexists. split; [vm_compute; reflexivity|].
    split; vm_compute; reflexivity.
  - left. reflexivity.
  - intros [H|[]]. inversion H.
Qed.

(** C4, the claim as stated fails: on the reachable map [five_keys], of
    capacity 11 and size 5, [resize_table(5)] has a prime argument that is
    not below the size, yet one of its re-insertions sets off an automatic
    resize and the resulting capacity is 11, not 5. *)
Lemma resize_table_regrows :
  reachable len five_keys /\
  _size five_keys <= 5 /\
  Z.prime 5 /\
  exists m',
    resize_table len 20 5 five_keys = Ok (1%nat, m') /\
    get_capacity m' = Ok (11, m').
Proof.
  split; [exact five_keys_reachable|].
  split; [simpl; lia|].
  split; [apply is_prime_true_prime; [lia | vm_compute; reflexivity]|].
  eexists. split; vm_compute; reflexivity.
Qed.

(** C5: on the reachable map [stuck_map], of capacity 3 and size 1, the
    probe sequence of the key "d" only ever meets slot 1, a live entry
    of another key, and slot 2, a tombstone; [get], [contains_key] and
    [remove] answer [Timeout] whatever the fuel: they never return. *)
Theorem lookups_never_return :
  reachable len stuck_map /\
  (forall fuel, get len fuel "d" stuck_map = Timeout) /\
  (forall fuel, contains_key len fuel "d" stuck_map = Timeout) /\
  (forall fuel, remove len fuel "d" stuck_map = Timeout).
Proof.
  split; [exact stuck_map_reachable|].
  assert (Hc : 0 < _capacity stuck_map) by (simpl; lia).
  repeat split; intros fuel.
  - pose proof (get_probe_diverges stuck_map "d" 1 Hc stuck_map_full
                  fuel 0%nat) as H.
    change (get_probe fuel "d" 1 0 stuck_map = Timeout) in H.
    unfold get, get_traced, _hash, bind, gets, lift, py_mod, len. simpl.
    change (Z.of_nat 1 mod 3) with 1. rewrite H. reflexivity.
  - pose proof (contains_probe_diverges stuck_map "d" 1 Hc stuck_map_full
                  fuel 0%nat) as H.
    change (contains_probe fuel "d" 1 0 stuck_map = Timeout) in H.
    unfold contains_key, contains_key_traced, _hash, bind, gets, lift, py_mod,
      len. simpl. change (Z.of_nat 1 mod 3) with 1. rewrite H. reflexivity.
  - pose proof (remove_probe_diverges stuck_map "d" 1 Hc stuck_map_full
                  fuel 0%nat) as H.
    change (remove_probe fuel "d" 1 0 stuck_map = Timeout) in H.
    unfold remove, _hash, bind, gets, lift, py_mod, len. simpl.
    change (Z.of_nat 1 mod 3) with 1. exact H.
Qed.

(** C6: on the reachable map [dup_map], one call of [remove("d")]
    leaves size 1 and [get("d")] = 2, and a second call changes both:
    size 0 and [get("d")] absent. *)
Theorem second_remove_changes_map :
  reachable len dup_map /\
  remove len 10 "d" dup_map = Ok ([1], dup_removed) /\
  remove len 10 "d" dup_removed = Ok ([1; 2], dup_removed_twice) /\
  get_size dup_removed = Ok (1, dup_removed) /\
  get_size dup_removed_twice = Ok (0, dup_removed_twice) /\
  get len 10 "d" dup_removed = Ok (Some 2, dup_removed) /\
  get len 10 "d" dup_removed_twice = Ok (None, dup_removed_twice).
Proof.
  split; [exact dup_map_reachable|].
  repeat split; vm_compute; reflexivity.
Qed.

(** C7, the claim as stated fails: 2 is prime, yet requesting capacity 2
    yields capacity 3. *)
Lemma init_capacity_2_yields_3 :
  Z.prime 2 /\
  exists m : HashMap Z,
    HashMap_init 10 2 = Ok m /\ get_capacity m = Ok (3, m).
Proof.
  split; [exact Z.prime_2|].
  eexists. split; reflexivity.
Qed.

(** ** The general properties at concrete inputs *)

(** Requesting capacity 10. *)
Lemma init_capacity_smallest_odd_prime_witness :
  0 <= 10 /\
  exists m : HashMap Z,
    HashMap_init 10 10 = Ok m /\ get_capacity m = Ok (11, m).
Proof.
  split; [lia|].
  apply (init_capacity_smallest_odd_prime (V := Z) 10). lia.
Defined.

(** [resize_table(11)] on [five_keys]: 11 is prime and twice (5 - 1) is
    below it. *)
Lemma resize_table_capacity_witness :
  exists fuel0, forall fuel, (fuel0 <= fuel)%nat ->
    exists m',
      resize_table len fuel 11 five_keys = Ok (0%nat, m') /\
      get_capacity m' = Ok (11, m').
Proof.
  apply (resize_table_capacity len five_keys 11 11).
  - exact five_keys_reachable.
  - lia.
  - simpl. lia.
  - apply is_prime_true_prime; [lia | vm_compute; reflexivity].
  - lia.
  - intros r _ Hr. exact Hr.
  - simpl. lia.
Defined.


(** The size counter of [dup_map]. *)
Lemma size_counts_live_slots_witness :
  reachable len dup_map /\
  _size dup_map = count_live (_buckets dup_map) /\
  get_size dup_map = Ok (count_live (_buckets dup_map), dup_map).
Proof.
  split; [exact dup_map_reachable|].
  apply (size_counts_live_slots len dup_map). exact dup_map_reachable.
Defined.

(** The observers on [one_key], where [get] and [contains_key] probe past
    the tombstone in slot 1. *)
Lemma observers_leave_map_unchanged_witness :
  (get len 10 "d" one_key = Ok (Some 2, one_key) /\ one_key = one_key) /\
  (contains_key len 10 "d" one_key = Ok (true, one_key) /\
   one_key = one_key) /\
  (exists r m', get_size one_key = Ok (r, m') /\ m' = one_key) /\
  (exists r m', get_capacity one_key = Ok (r, m') /\ m' = one_key) /\
  (exists r m', table_load one_key = Ok (r, m') /\ m' = one_key) /\
  (exists r m', empty_buckets one_key = Ok (r, m') /\ m' = one_key) /\
  (exists r m', get_keys_and_values one_key = Ok (r, m') /\ m' = one_key).
Proof.
  destruct (observers_leave_map_unchanged len 10 "d" one_key)
    as (Hget & Hcontains & Hsize & Hcapacity & Hload & Hempty & Hexport).
  split; [|split; [|split; [|split; [|split; [|split]]]]].
  - assert (H : get len 10 "d" one_key = Ok (Some 2, one_key))
      by (vm_compute; reflexivity).
    split; [exact H | exact (Hget _ _ H)].
  - assert (H : contains_key len 10 "d" one_key = Ok (true, one_key))
      by (vm_compute; reflexivity).
    split; [exact H | exact (Hcontains _ _ H)].
  - eexists. eexists. split; [reflexivity|]. eapply Hsize. reflexivity.
  - eexists. eexists. split; [reflexivity|]. eapply Hcapacity. reflexivity.
  - eexists. eexists. split; [reflexivity|]. eapply Hload. reflexivity.
  - eexists. eexists. split; [reflexivity|]. eapply Hempty. reflexivity.
  - eexists. eexists. split; [reflexivity|]. eapply Hexport. reflexivity.
Defined.

(** ** The further properties at concrete inputs *)

(** [five_keys] has the prime capacity 11. *)
Lemma capacity_is_prime_witness :
  Z.prime 11 /\ get_capacity five_keys = Ok (11, five_keys).
Proof.
  apply (capacity_is_prime len five_keys);
    [exact five_keys_reachable | simpl; lia].
Defined.

(** [two_keys] holds 2 entries in 3 slots. *)
Lemma load_stays_below_half_witness :
  0 <= _size two_keys <= Z.max 0 (_capacity two_keys) /\
  (_size two_keys = 0 \/ 2 * (_size two_keys - 1) < _capacity two_keys).
Proof.
  apply (load_stays_below_half len two_keys). exact two_keys_reachable.
Defined.

(** The load factor of [two_keys] is 2/3. *)
Lemma table_load_in_range_witness :
  _capacity two_keys <> 0 /\
  exists load,
    table_load two_keys = Ok (load, two_keys) /\
    (load == inject_Z (_size two_keys) / inject_Z (_capacity two_keys))%Q /\
    (0 <= load)%Q /\ (load <= 2 # 3)%Q.
Proof.
  apply (table_load_in_range len two_keys). exact two_keys_reachable.
Defined.

(** [one_key] has one slot never used and one tombstone. *)
Lemma empty_buckets_counts_dead_slots_witness :
  empty_buckets one_key = Ok (2, one_key).
Proof.
  apply (empty_buckets_counts_dead_slots len one_key);
    [exact one_key_reachable | simpl; lia].
Defined.

(** [put("b", 7)] on [one_key] takes the place of the tombstone. *)
Lemma put_grows_witness :
  exists r m',
    put len 10 "b" 7 one_key = Ok (r, m') /\
    0 < _capacity one_key <= _capacity m' /\
    1 <= _size m' <= _size one_key + 1.
Proof.
  exists (0%nat, [1]), (mkHashMap [None; entry "b" 7; entry "d" 2] 3 2).
  split; [vm_compute; reflexivity|].
  eapply (put_grows len 10 "b" 7 one_key);
    [exact one_key_reachable | vm_compute; reflexivity].
Defined.

(** [put("abcdef", 6)] on [five_keys] looks at the empty slot 6 only. *)
Lemma put_probes_at_most_half_witness :
  exists m',
    put len 10 "abcdef" 6 five_keys = Ok ((0%nat, [6]), m') /\
    1 <= Z.of_nat (length [6]) <= _capacity m' / 2 + 1 /\
    [6] = quadratic_sequence len "abcdef" (_capacity m') (length [6]) /\
    NoDup [6].
Proof.
  eexists. split; [vm_compute; reflexivity|].
  eapply (put_probes_at_most_half len 10 "abcdef" 6 five_keys 0%nat);
    [exact five_keys_reachable | vm_compute; reflexivity].
Defined.

(** [resize_table(20)] on [five_keys] ends with the prime capacity 23. *)
Lemma resize_table_contract_witness :
  exists n m',
    resize_table len 40 20 five_keys = Ok (n, m') /\
    (20 < _size five_keys /\ m' = five_keys \/
     _size five_keys <= 20 /\ 20 <= _capacity m' /\
     Z.prime (_capacity m') /\ _size m' <= _size five_keys).
Proof.
  eexists. eexists. split; [vm_compute; reflexivity|].
  eapply (resize_table_contract len 40 20 five_keys);
    [exact five_keys_reachable | vm_compute; reflexivity].
Defined.

(** [remove("d")] on [two_keys] leaves [stuck_map]. *)
Lemma remove_effect_witness :
  _capacity stuck_map = _capacity two_keys /\
  length (_buckets stuck_map) = length (_buckets two_keys) /\
  (stuck_map = two_keys \/
   (_size stuck_map = _size two_keys - 1 /\
    exists index curr,
      _buckets two_keys !! index = Some (Some curr) /\
      key curr = "d" /\ is_tombstone curr = false /\
      _buckets stuck_map =
        <[index := Some (mkHashEntry "d" (value curr) true)]>
          (_buckets two_keys))).
Proof.
  apply (remove_effect len 10 "d" two_keys [1; 2] stuck_map).
  vm_compute. reflexivity.
Defined.

(** [get_keys_and_values()] on [one_key] lists the one live entry. *)
Lemma export_lists_live_entries_witness :
  get_keys_and_values one_key = Ok ([("d", 2)], one_key) /\
  get_size one_key = Ok (1, one_key).
Proof.
  apply (export_lists_live_entries len one_key). exact one_key_reachable.
Defined.

(** The key "d" of [two_keys]. *)
Lemma get_agrees_with_export_witness :
  (forall fuel v m',
     get len fuel "d" two_keys = Ok (Some v, m') ->
     In ("d", v) (live_pairs (_buckets two_keys))) /\
  (forall v,
     In ("d", v) (live_pairs (_buckets two_keys)) ->
     exists fuel0, forall fuel, (fuel0 <= fuel)%nat ->
       contains_key len fuel "d" two_keys = Ok (true, two_keys) /\
       exists v', get len fuel "d" two_keys = Ok (Some v', two_keys) /\
                  In ("d", v') (live_pairs (_buckets two_keys))).
Proof.
  apply (get_agrees_with_export len two_keys "d"). exact two_keys_reachable.
Defined.

(** [put("x", 9)] on [five_keys]. *)
Lemma put_get_round_trip_witness :
  (forall fuel r m',
     put len fuel "x" 9 five_keys = Ok (r, m') ->
     forall fuel', (fuel <= fuel')%nat ->
       get len fuel' "x" m' = Ok (Some 9, m') /\
       contains_key len fuel' "x" m' = Ok (true, m')) /\
  (0 <= _capacity five_keys ->
   exists fuel0, forall fuel, (fuel0 <= fuel)%nat ->
     exists r m', put len fuel "x" 9 five_keys = Ok (r, m')).
Proof.
  apply (put_get_round_trip len five_keys "x" 9). exact five_keys_reachable.
Defined.

(** [put("a", 10)] and then [put("a", 11)] on [five_keys]. *)
Lemma put_again_overwrites_witness :
  exists r1 m1 tr2 m2,
    put len 10 "a" 10 five_keys = Ok (r1, m1) /\
    put len 10 "a" 11 m1 = Ok ((0%nat, tr2), m2) /\
    _size m2 = _size m1 /\ _capacity m2 = _capacity m1 /\
    length (_buckets m2) = length (_buckets m1) /\
    get len 10 "a" m2 = Ok (Some 11, m2).
Proof.
  eexists. eexists. eexists. eexists.
  split; [vm_compute; reflexivity|]. split; [vm_compute; reflexivity|].
  eapply (put_again_overwrites len five_keys "a" 10 11 10%nat _ _ 10%nat);
    [exact five_keys_reachable | vm_compute; reflexivity
    | vm_compute; reflexivity].
Defined.

(** [put("abcdef", 6)] on [five_keys], where the key is absent. *)
Lemma put_new_key_adds_one_witness :
  exists tr m',
    get len 10 "abcdef" five_keys = Ok (None, five_keys) /\
    put len 10 "abcdef" 6 five_keys = Ok ((0%nat, tr), m') /\
    _size m' = _size five_keys + 1 /\ _capacity m' = _capacity five_keys /\
    exists index old,
      _buckets five_keys !! index = Some old /\ live old = false /\
      _buckets m' =
        <[index := Some (new_HashEntry "abcdef" 6)]> (_buckets five_keys).
Proof.
  eexists. eexists.
  split; [vm_compute; reflexivity|]. split; [vm_compute; reflexivity|].
  eapply (put_new_key_adds_one len five_keys "abcdef" 6 10%nat five_keys
            10%nat);
    [exact five_keys_reachable | vm_compute; reflexivity
    | vm_compute; reflexivity].
Defined.

(** [get("d")] and [remove("d")] on [two_keys]. *)
Lemma remove_follows_get_witness :
  (forall m1 tr m',
     get len 10 "d" two_keys = Ok (None, m1) ->
     remove len 10 "d" two_keys = Ok (tr, m') -> m' = two_keys) /\
  (forall v m1,
     get len 10 "d" two_keys = Ok (Some v, m1) ->
     exists tr m',
       remove len 10 "d" two_keys = Ok (tr, m') /\
       _size m' = _size two_keys - 1 /\
       _capacity m' = _capacity two_keys).
Proof.
  apply (remove_follows_get len 10 "d" two_keys). exact two_keys_reachable.
Defined.

(** [HashMap(-4, len)]. *)
Lemma negative_capacity_map_witness :
  exists m : HashMap Z,
    (forall fuel, (2 <= fuel)%nat -> HashMap_init fuel (-4) = Ok m) /\
    -4 <= _capacity m < 0 /\ _buckets m = [] /\ _size m = 0 /\
    empty_buckets m = Ok (_capacity m, m) /\
    forall fuel k,
      (2 <= fuel)%nat ->
      (forall v, put len fuel k v m = Raise DynamicArrayException) /\
      remove len fuel k m = Raise DynamicArrayException /\
      get len fuel k m = Ok (None, m) /\
      contains_key len fuel k m = Ok (false, m).
Proof.
  apply (negative_capacity_map len (-4)). lia.
Defined.

(** The first [__next__] on [one_key] skips the empty slot 0 and the
    tombstone in slot 1 and yields the entry of slot 2. *)
Lemma next_contract_witness :
  __next__ 5 (__iter__ one_key)
    = Ok (Yield (mkHashEntry "d" 2 false), mkHashMapIter one_key 3) /\
  _map (mkHashMapIter one_key 3) = _map (__iter__ one_key) /\
  _index (__iter__ one_key) < _index (mkHashMapIter one_key 3)
    <= Z.of_nat (length (_buckets (_map (__iter__ one_key)))) /\
  _buckets (_map (__iter__ one_key))
    !! Z.to_nat (_index (mkHashMapIter one_key 3) - 1)
    = Some (Some (mkHashEntry "d" 2 false)) /\
  is_tombstone (mkHashEntry "d" 2 false) = false /\
  forall j,
    _index (__iter__ one_key) <= j < _index (mkHashMapIter one_key 3) - 1 ->
    live_at (_buckets (_map (__iter__ one_key))) j = false.
Proof.
  split; [vm_compute; reflexivity|].
  apply (next_contract 5 (__iter__ one_key)
           (Yield (mkHashEntry "d" 2 false)) (mkHashMapIter one_key 3));
    [simpl; lia | vm_compute; reflexivity].
Defined.

(** Iterating over [one_key]. *)
Lemma iteration_yields_live_entries_witness :
  for_each 5 (__iter__ one_key)
    = Ok ([mkHashEntry "d" 2 false], mkHashMapIter one_key 3) /\
  __next__ 5 (mkHashMapIter one_key 3)
    = Ok (StopIteration, mkHashMapIter one_key 3) /\
  (reachable len one_key ->
   get_keys_and_values one_key = Ok ([("d", 2)], one_key) /\
   get_size one_key = Ok (1, one_key)).
Proof.
  apply (iteration_yields_live_entries len one_key 5). simpl. lia.
Defined.

(** No operation raises on [five_keys]. *)
Lemma operations_never_raise_witness :
  0 <= _capacity five_keys /\
  forall fuel k,
    (forall v, put len fuel k v five_keys <> Raise DynamicArrayException) /\
    get len fuel k five_keys <> Raise DynamicArrayException /\
    contains_key len fuel k five_keys <> Raise DynamicArrayException /\
    remove len fuel k five_keys <> Raise DynamicArrayException /\
    (forall new_capacity,
       resize_table len fuel new_capacity five_keys
         <> Raise DynamicArrayException) /\
    (forall index,
       0 <= index ->
       __next__ fuel (mkHashMapIter five_keys index)
         <> Raise DynamicArrayException).
Proof.
  split; [simpl; lia|].
  apply (operations_never_raise len five_keys DynamicArrayException);
    [exact five_keys_reachable | simpl; lia].
Defined.

(** The keys of [five_keys] after a [put] or a [resize_table]. *)
Lemma put_and_resize_keep_keys_witness :
  (forall fuel k v r m',
     put len fuel k v five_keys = Ok (r, m') ->
     forall k0,
       k0 = k \/
       (exists v0, In (k0, v0) (live_pairs (_buckets five_keys))) ->
       (exists v', In (k0, v') (live_pairs (_buckets m'))) /\
       exists fuel0, forall fuel', (fuel0 <= fuel')%nat ->
         contains_key len fuel' k0 m' = Ok (true, m')) /\
  (forall fuel new_capacity n m',
     resize_table len fuel new_capacity five_keys = Ok (n, m') ->
     forall k0,
       (exists v0, In (k0, v0) (live_pairs (_buckets five_keys))) ->
       (exists v', In (k0, v') (live_pairs (_buckets m'))) /\
       exists fuel0, forall fuel', (fuel0 <= fuel')%nat ->
         contains_key len fuel' k0 m' = Ok (true, m')).
Proof.
  apply (put_and_resize_keep_keys len five_keys). exact five_keys_reachable.
Defined.
